(** * HyperBloom protocol engine

    A shallow embedding of [lib/protocol/parser.js] (the frame parser) and
    [lib/protocol/stream.js] (the session that inherits from it), together
    with the properties of the wire protocol proved about them.

    The JavaScript object is modelled as a record that is threaded through
    every method; a method that can throw returns the state it had reached
    together with the exception.  What the object does to the outside world
    ([push], [emit], [process.nextTick], completion callbacks) is collected
    in the [node] part of the state. *)

From Stdlib Require Import ZArith List Bool Lia.
From Stdlib.Strings Require Import Byte.
From Stdlib Require String.
Import ListNotations String.StringSyntax.
Open Scope string_scope.
Open Scope Z_scope.

(** ** Buffers and JavaScript integers *)

Definition bytes := list byte.

Definition byte_val (b : byte) : Z := Z.of_N (Byte.to_N b).

(** [.length] of a buffer or an array, a JavaScript number. *)
Definition size {A} (b : list A) : Z := Z.of_nat (length b).

(** [Buffer.prototype.equals]. *)
Definition equals (a b : bytes) : bool :=
  if list_eq_dec Byte.byte_eq_dec a b then true else false.

Definition xor_byte (a b : byte) : byte :=
  let '(a0, (a1, (a2, (a3, (a4, (a5, (a6, a7))))))) := Byte.to_bits a in
  let '(b0, (b1, (b2, (b3, (b4, (b5, (b6, b7))))))) := Byte.to_bits b in
  Byte.of_bits (xorb a0 b0, (xorb a1 b1, (xorb a2 b2, (xorb a3 b3,
               (xorb a4 b4, (xorb a5 b5, (xorb a6 b6, xorb a7 b7))))))).

(** The bitwise operators of JavaScript work on 32-bit integers. *)
Definition ToInt32 (z : Z) : Z := (z + 2 ^ 31) mod 2 ^ 32 - 2 ^ 31.
Definition ToUint32 (z : Z) : Z := z mod 2 ^ 32.

(** [a & b], [a | b], [a << b] and [a >>> 0]. *)
Definition js_and (a b : Z) : Z := ToInt32 (Z.land (ToInt32 a) (ToInt32 b)).
Definition js_or (a b : Z) : Z := ToInt32 (Z.lor (ToInt32 a) (ToInt32 b)).
Definition js_shl (a b : Z) : Z :=
  ToInt32 (Z.shiftl (ToInt32 a) (Z.land b 31)).
Definition js_ushr0 (a : Z) : Z := ToUint32 a.

Arguments js_and : simpl never.
Arguments js_or : simpl never.
Arguments js_shl : simpl never.
Arguments js_ushr0 : simpl never.

(** A JavaScript number that may be [Infinity] (the parser waits for
    [Infinity] bytes while it is paused; a link may never expire). *)
Inductive Num := Fin (z : Z) | Infinity.

Definition Math_min (a b : Num) : Num :=
  match a, b with
  | Infinity, _ => b
  | _, Infinity => a
  | Fin x, Fin y => Fin (Z.min x y)
  end.

(** [a >= b] where only [b] may be infinite. *)
Definition geb_num (a : Z) (b : Num) : bool :=
  match b with Fin z => z <=? a | Infinity => false end.

(** ** Exceptions *)

Inductive Exn :=
| Error (message : String.string)
| AssertionError (message : String.string)
| TypeError (message : String.string)
| RangeError (message : String.string).

(** The errors of parser.js and stream.js, by their messages; the last
    four are thrown by the libraries and stand for whatever those throw. *)
Definition E_MAGIC := Error "Invalid MAGIC value".
Definition E_VARINT := Error "varint doesn't fit into 32-bit value".
Definition E_LENGTH := Error "Message length is too big".
Definition E_FEED_SIZE := Error "Invalid feed size".
Definition E_NONCE_SIZE := Error "Invalid nonce size".
Definition E_HANDSHAKE_FIRST :=
  Error "Handshake must be the first message after Open".
Definition E_HANDSHAKE_ONCE := Error "Handshake must be sent only once".
Definition E_TOO_BIG := Error "Message is too big".
Definition E_NOT_CALLED := Error "Should not be called".
Definition E_FEED := Error "Feed mismatch".
Definition E_CHAIN_LENGTH :=
  AssertionError "Maximum chain length size is 5".
Definition E_REQUIRED := Error "required field is missing".
Definition E_DECODE := Error "Decoded message is not valid".
Definition E_VERIFY := Error "hyperbloom-chain: verification failed".
Definition E_LINK := Error "hyperbloom-chain: invalid link".

(** ** Constants *)

(** Values of the [hyperbloom-constants] package. *)
Definition MAGIC : bytes := [xd5; x72; xc8; x75].
Definition PUBLIC_KEY_SIZE : Z := 32.
Definition PRIVATE_KEY_SIZE : Z := 64.
Definition ID_SIZE : Z := 32.
Definition HASH_SIZE : Z := 32.
Definition MAX_CHAIN_LENGTH : Z := 5.

(** Local constants of parser.js and stream.js. *)
Definition MAX_PENDING_SIZE : Z := 256 * 1024.
Definition NONCE_SIZE : Z := 24.
Definition EMPTY_HASH : bytes := repeat x00 (Z.to_nat HASH_SIZE).

(** ** Messages

    The schema of [lib/protocol/messages.js].  A field that a caller of the
    send API may leave out is an [option]; the messages that only the engine
    itself builds carry their fields directly. *)

Record Open := { open_feed : bytes; open_nonce : bytes }.

Record Handshake := {
  hs_id : bytes;
  hs_extensions : list String.string;
  hs_signature : bytes;
  hs_chain : list bytes
}.

Record Range := { range_start : option bytes; range_end : option bytes }.

Record Sync := {
  sync_filter : option bytes;
  sync_size : option Z;
  sync_n : option Z;
  sync_seed : option Z;
  sync_limit : option Z;
  sync_range : option Range
}.

Record FilterOptions := { fo_size : option Z; fo_n : option Z }.

Record Data := { data_values : list bytes }.

Record Request := {
  req_start : option bytes;
  req_end : option bytes;
  req_limit : option Z
}.

Record Link := { link_link : bytes }.

(** A message together with the [Type] it is encoded with. *)
Inductive Body :=
| BOpen (b : Open)
| BHandshake (b : Handshake)
| BSync (b : Sync)
| BFilterOptions (b : FilterOptions)
| BData (b : Data)
| BRequest (b : Request)
| BLink (b : Link).

Module messages.

Module id.

Definition HANDSHAKE : Z := 0.
Definition SYNC : Z := 1.
Definition FILTER_OPTIONS : Z := 2.
Definition DATA : Z := 3.
Definition REQUEST : Z := 4.
Definition LINK : Z := 5.

End id.

End messages.

(** The [type] strings of [_parse]. *)
Inductive MsgType :=
| Thandshake | Tsync | Tfilter_options | Tdata | Trequest | Tlink.

Definition MsgType_eqb (a b : MsgType) : bool :=
  match a, b with
  | Thandshake, Thandshake | Tsync, Tsync
  | Tfilter_options, Tfilter_options
  | Tdata, Tdata | Trequest, Trequest | Tlink, Tlink => true
  | _, _ => false
  end.

Definition is_some {A} (o : option A) : bool :=
  match o with Some _ => true | None => false end.

(** The generated [encodingLength] walks the fields of the schema and
    throws as soon as a [required] one is not defined; optional fields are
    counted when they are defined, whatever their value. *)
Definition required_present (b : Body) : bool :=
  match b with
  | BOpen _ | BHandshake _ | BData _ | BLink _ => true
  | BSync s =>
      is_some (sync_filter s) && is_some (sync_size s) &&
      is_some (sync_n s) && is_some (sync_seed s) &&
      match sync_range s with
      | Some r => is_some (range_start r)
      | None => true
      end
  | BFilterOptions f => is_some (fo_size f) && is_some (fo_n f)
  | BRequest r => is_some (req_start r)
  end.

(** ** Injected dependencies

    Everything the two files [require] from outside the repository. *)

Record ParsedLink := { link_expiration : Num; link_publicKey : bytes }.

Class Env := {
  (** hyperbloom-constants *)
  HASH_KEY : bytes;
  (** sodium-universal: [crypto_generichash(out, input, key)] and the byte
      of the XSalsa20 keystream of [(nonce, key)] at a position. *)
  crypto_generichash : bytes -> bytes -> bytes;
  crypto_stream : bytes -> bytes -> nat -> byte;
  (** sodium-signatures *)
  signatures_sign : bytes -> bytes -> bytes;
  (** hyperbloom-chain, for a chain rooted at [root]: [verify] ([false]
      when it throws), [parseLink] ([None] when it throws), [issueLink]. *)
  hyperchain_verify : bytes -> list bytes -> bytes -> bytes -> bool;
  hyperchain_parseLink : bytes -> option ParsedLink;
  hyperchain_issueLink : Num -> option bytes -> bytes -> bytes;
  (** varint: [encode], and [decode] with [decode.bytes] ([None] when it
      throws). *)
  varint_encode : Z -> bytes;
  varint_decode : bytes -> option (Z * nat);
  (** protocol-buffers: the encoders and decoders compiled from the
      schema ([None] when a decoder throws). *)
  pb_encode : Body -> bytes;
  pb_decode_Open : bytes -> option Open;
  pb_decode_Handshake : bytes -> option Handshake;
  pb_decode_Sync : bytes -> option Sync;
  pb_decode_FilterOptions : bytes -> option FilterOptions;
  pb_decode_Data : bytes -> option Data;
  pb_decode_Request : bytes -> option Request;
  pb_decode_Link : bytes -> option Link
}.

(** [Type.encodingLength(content)]: [None] when it throws. *)
Definition encodingLength `{Env} (content : Body) : option Z :=
  if required_present content then Some (size (pb_encode content))
  else None.

Definition varint_encodingLength `{Env} (n : Z) : Z :=
  size (varint_encode n).

(** ** State *)

(** A [crypto_stream_xor_instance]: the keystream and how far it has been
    consumed. *)
Record XorInstance := { xor_nonce : bytes; xor_key : bytes; xor_pos : nat }.

Fixpoint xor_from `{Env} (nonce key : bytes) (pos : nat) (buf : bytes)
  : bytes :=
  match buf with
  | [] => []
  | b :: buf' =>
      xor_byte b (crypto_stream nonce key pos) ::
      xor_from nonce key (S pos) buf'
  end.

(** [instance.update(buf, buf)]: the buffer after the in-place XOR and the
    advanced instance. *)
Definition xor_update `{Env} (x : XorInstance) (buf : bytes)
  : bytes * XorInstance :=
  (xor_from (xor_nonce x) (xor_key x) (xor_pos x) buf,
   {| xor_nonce := xor_nonce x; xor_key := xor_key x;
      xor_pos := (xor_pos x + length buf)%nat |}).

Record XorPair := {
  xor_self : option XorInstance;
  xor_remote : option XorInstance
}.

Inductive State :=
| magic | open_length | open_body | paused | msg_length | msg_body.

Record Varint := { varint_value : Z; varint_shift : Z }.

(** Completion callbacks: the one node's [Writable] passes to the [n]-th
    [_write], the one a caller passes to the send API, and the one
    [_resumeParsing] makes up, which rethrows. *)
Inductive Callback := WriteCb (n : nat) | SendCb (n : nat) | RethrowCb.

Record Paused := {
  paused_enabled : bool;
  paused_pending : option bytes;
  paused_callback : option Callback
}.

Record Parser := {
  id : bytes;
  _xor : XorPair;
  _pending : bytes;
  _state : State;
  _waiting : Num;
  _varint : Varint;
  _gotHandshake : bool;
  _paused : Paused
}.

Record Nonce := {
  nonce_remote : option bytes;
  nonce_local : option bytes;
  nonce_hash : option bytes;
  nonce_reverseHash : option bytes
}.

Record Remote := {
  remote_id : option bytes;
  remote_chain : option (list bytes)
}.

(** A closure [() => this._secureSend(id, Type, content, callback)] of the
    send queue; [callback] names the caller's completion callback. *)
Record Queued := {
  q_id : Z;
  q_content : Body;
  q_callback : option Callback
}.

Inductive Event :=
| EvOpen (open : Open)
| EvSecure (id : bytes) (chain : list bytes)
| EvMessage (type : MsgType) (body : Body)
| EvChainUpdate (chain : list bytes)
| EvError (e : Exn)
| EvClose.

(** What [process.nextTick] has been given: the closure of [_onOpen]
    (which captures [open]) or a caller's completion callback. *)
Inductive Task :=
| TStartCallback (open : Open)
| TSendCallback (callback : Callback).

(** The part of the object that belongs to node: the readable side fed by
    [push], the events seen by listeners, whether the [once('open')]
    listener of the constructor is still registered, the [nextTick] queue,
    the completion callbacks that were called, and two lines of debug
    output: the message types [_parse] reports once a message has passed
    its order checks, and the [(id, size)] pairs [_send] reports. *)
Record Node := {
  pushed : list bytes;
  emitted : list Event;
  once_open : bool;
  nextTick : list Task;
  called : list (Callback * option Exn);
  debugged : list MsgType;
  sent : list (Z * Z)
}.

Record Stream := {
  parser : Parser;
  feedKey : option bytes;
  feed : option bytes;
  privateKey : option bytes;
  chain : option (list bytes);
  secure : bool;
  _hyperchain : option bytes;
  _startCallback : option Open;
  _destroyed : bool;
  _nonce : Nonce;
  _remote : Remote;
  _queue : option (list Queued);
  node : Node
}.

(** Field updates. *)
Definition set_id v (r : Parser) : Parser :=
  {| id := v; _xor := _xor r; _pending := _pending r; _state := _state r;
     _waiting := _waiting r; _varint := _varint r;
     _gotHandshake := _gotHandshake r; _paused := _paused r |}.
Definition set__xor v (r : Parser) : Parser :=
  {| id := id r; _xor := v; _pending := _pending r; _state := _state r;
     _waiting := _waiting r; _varint := _varint r;
     _gotHandshake := _gotHandshake r; _paused := _paused r |}.
Definition set__pending v (r : Parser) : Parser :=
  {| id := id r; _xor := _xor r; _pending := v; _state := _state r;
     _waiting := _waiting r; _varint := _varint r;
     _gotHandshake := _gotHandshake r; _paused := _paused r |}.
Definition set__state v (r : Parser) : Parser :=
  {| id := id r; _xor := _xor r; _pending := _pending r; _state := v;
     _waiting := _waiting r; _varint := _varint r;
     _gotHandshake := _gotHandshake r; _paused := _paused r |}.
Definition set__waiting v (r : Parser) : Parser :=
  {| id := id r; _xor := _xor r; _pending := _pending r; _state := _state r;
     _waiting := v; _varint := _varint r; _gotHandshake := _gotHandshake r;
     _paused := _paused r |}.
Definition set__varint v (r : Parser) : Parser :=
  {| id := id r; _xor := _xor r; _pending := _pending r; _state := _state r;
     _waiting := _waiting r; _varint := v; _gotHandshake := _gotHandshake r;
     _paused := _paused r |}.
Definition set__gotHandshake v (r : Parser) : Parser :=
  {| id := id r; _xor := _xor r; _pending := _pending r; _state := _state r;
     _waiting := _waiting r; _varint := _varint r; _gotHandshake := v;
     _paused := _paused r |}.
Definition set__paused v (r : Parser) : Parser :=
  {| id := id r; _xor := _xor r; _pending := _pending r; _state := _state r;
     _waiting := _waiting r; _varint := _varint r;
     _gotHandshake := _gotHandshake r; _paused := v |}.
Definition set_parser v (r : Stream) : Stream :=
  {| parser := v; feedKey := feedKey r; feed := feed r;
     privateKey := privateKey r; chain := chain r; secure := secure r;
     _hyperchain := _hyperchain r; _startCallback := _startCallback r;
     _destroyed := _destroyed r; _nonce := _nonce r; _remote := _remote r;
     _queue := _queue r; node := node r |}.
Definition set_feedKey v (r : Stream) : Stream :=
  {| parser := parser r; feedKey := v; feed := feed r;
     privateKey := privateKey r; chain := chain r; secure := secure r;
     _hyperchain := _hyperchain r; _startCallback := _startCallback r;
     _destroyed := _destroyed r; _nonce := _nonce r; _remote := _remote r;
     _queue := _queue r; node := node r |}.
Definition set_feed v (r : Stream) : Stream :=
  {| parser := parser r; feedKey := feedKey r; feed := v;
     privateKey := privateKey r; chain := chain r; secure := secure r;
     _hyperchain := _hyperchain r; _startCallback := _startCallback r;
     _destroyed := _destroyed r; _nonce := _nonce r; _remote := _remote r;
     _queue := _queue r; node := node r |}.
Definition set_privateKey v (r : Stream) : Stream :=
  {| parser := parser r; feedKey := feedKey r; feed := feed r;
     privateKey := v; chain := chain r; secure := secure r;
     _hyperchain := _hyperchain r; _startCallback := _startCallback r;
     _destroyed := _destroyed r; _nonce := _nonce r; _remote := _remote r;
     _queue := _queue r; node := node r |}.
Definition set_chain v (r : Stream) : Stream :=
  {| parser := parser r; feedKey := feedKey r; feed := feed r;
     privateKey := privateKey r; chain := v; secure := secure r;
     _hyperchain := _hyperchain r; _startCallback := _startCallback r;
     _destroyed := _destroyed r; _nonce := _nonce r; _remote := _remote r;
     _queue := _queue r; node := node r |}.
Definition set_secure v (r : Stream) : Stream :=
  {| parser := parser r; feedKey := feedKey r; feed := feed r;
     privateKey := privateKey r; chain := chain r; secure := v;
     _hyperchain := _hyperchain r; _startCallback := _startCallback r;
     _destroyed := _destroyed r; _nonce := _nonce r; _remote := _remote r;
     _queue := _queue r; node := node r |}.
Definition set__hyperchain v (r : Stream) : Stream :=
  {| parser := parser r; feedKey := feedKey r; feed := feed r;
     privateKey := privateKey r; chain := chain r; secure := secure r;
     _hyperchain := v; _startCallback := _startCallback r;
     _destroyed := _destroyed r; _nonce := _nonce r; _remote := _remote r;
     _queue := _queue r; node := node r |}.
Definition set__startCallback v (r : Stream) : Stream :=
  {| parser := parser r; feedKey := feedKey r; feed := feed r;
     privateKey := privateKey r; chain := chain r; secure := secure r;
     _hyperchain := _hyperchain r; _startCallback := v;
     _destroyed := _destroyed r; _nonce := _nonce r; _remote := _remote r;
     _queue := _queue r; node := node r |}.
Definition set__destroyed v (r : Stream) : Stream :=
  {| parser := parser r; feedKey := feedKey r; feed := feed r;
     privateKey := privateKey r; chain := chain r; secure := secure r;
     _hyperchain := _hyperchain r; _startCallback := _startCallback r;
     _destroyed := v; _nonce := _nonce r; _remote := _remote r;
     _queue := _queue r; node := node r |}.
Definition set__nonce v (r : Stream) : Stream :=
  {| parser := parser r; feedKey := feedKey r; feed := feed r;
     privateKey := privateKey r; chain := chain r; secure := secure r;
     _hyperchain := _hyperchain r; _startCallback := _startCallback r;
     _destroyed := _destroyed r; _nonce := v; _remote := _remote r;
     _queue := _queue r; node := node r |}.
Definition set__remote v (r : Stream) : Stream :=
  {| parser := parser r; feedKey := feedKey r; feed := feed r;
     privateKey := privateKey r; chain := chain r; secure := secure r;
     _hyperchain := _hyperchain r; _startCallback := _startCallback r;
     _destroyed := _destroyed r; _nonce := _nonce r; _remote := v;
     _queue := _queue r; node := node r |}.
Definition set__queue v (r : Stream) : Stream :=
  {| parser := parser r; feedKey := feedKey r; feed := feed r;
     privateKey := privateKey r; chain := chain r; secure := secure r;
     _hyperchain := _hyperchain r; _startCallback := _startCallback r;
     _destroyed := _destroyed r; _nonce := _nonce r; _remote := _remote r;
     _queue := v; node := node r |}.
Definition set_node v (r : Stream) : Stream :=
  {| parser := parser r; feedKey := feedKey r; feed := feed r;
     privateKey := privateKey r; chain := chain r; secure := secure r;
     _hyperchain := _hyperchain r; _startCallback := _startCallback r;
     _destroyed := _destroyed r; _nonce := _nonce r; _remote := _remote r;
     _queue := _queue r; node := v |}.
Definition set_pushed v (r : Node) : Node :=
  {| pushed := v; emitted := emitted r; once_open := once_open r;
     nextTick := nextTick r; called := called r; debugged := debugged r;
     sent := sent r |}.
Definition set_emitted v (r : Node) : Node :=
  {| pushed := pushed r; emitted := v; once_open := once_open r;
     nextTick := nextTick r; called := called r; debugged := debugged r;
     sent := sent r |}.
Definition set_once_open v (r : Node) : Node :=
  {| pushed := pushed r; emitted := emitted r; once_open := v;
     nextTick := nextTick r; called := called r; debugged := debugged r;
     sent := sent r |}.
Definition set_nextTick v (r : Node) : Node :=
  {| pushed := pushed r; emitted := emitted r; once_open := once_open r;
     nextTick := v; called := called r; debugged := debugged r;
     sent := sent r |}.
Definition set_called v (r : Node) : Node :=
  {| pushed := pushed r; emitted := emitted r; once_open := once_open r;
     nextTick := nextTick r; called := v; debugged := debugged r;
     sent := sent r |}.
Definition set_debugged v (r : Node) : Node :=
  {| pushed := pushed r; emitted := emitted r; once_open := once_open r;
     nextTick := nextTick r; called := called r; debugged := v;
     sent := sent r |}.
Definition set_sent v (r : Node) : Node :=
  {| pushed := pushed r; emitted := emitted r; once_open := once_open r;
     nextTick := nextTick r; called := called r; debugged := debugged r;
     sent := v |}.

Definition upd_parser (f : Parser -> Parser) (s : Stream) : Stream :=
  set_parser (f (parser s)) s.
Definition upd_node (f : Node -> Node) (s : Stream) : Stream :=
  set_node (f (node s)) s.

(** ** Methods: state and exceptions *)

Inductive Res (A : Type) := Ok (a : A) | Throw (e : Exn).
Arguments Ok {A} a.
Arguments Throw {A} e.

Definition M (A : Type) : Type := Stream -> Stream * Res A.

Definition ret {A} (a : A) : M A := fun s => (s, Ok a).

Definition throw {A} (e : Exn) : M A := fun s => (s, Throw e).

Definition bind {A B} (m : M A) (k : A -> M B) : M B :=
  fun s =>
    match m s with
    | (s', Ok a) => k a s'
    | (s', Throw e) => (s', Throw e)
    end.

Definition get {A} (f : Stream -> A) : M A := fun s => (s, Ok (f s)).

Definition modify (f : Stream -> Stream) : M unit := fun s => (f s, Ok tt).

Notation "x <- m ;; k" := (bind m (fun x => k))
  (at level 61, m at next level, right associativity).
Notation "m ;; k" := (bind m (fun _ => k))
  (at level 61, right associativity).

(** Using a value that may be [null]. *)
Definition deref {A} (o : option A) (what : String.string) : M A :=
  match o with
  | Some a => ret a
  | None => throw (TypeError what)
  end.

Definition assert (b : bool) (message : String.string) : M unit :=
  if b then ret tt else throw (AssertionError message).

(** *** What node provides *)

Definition push (buf : bytes) : M unit :=
  modify (upd_node (fun n => set_pushed (pushed n ++ [buf]) n)).

Definition emit (e : Event) : M unit :=
  modify (upd_node (fun n => set_emitted (emitted n ++ [e]) n)).

Definition process_nextTick (t : Task) : M unit :=
  modify (upd_node (fun n => set_nextTick (nextTick n ++ [t]) n)).

(** [debug('parser message type type=%s', type)] and
    [debug('stream send id=%d size=%d', id, msgLen)]. *)
Definition debug (type : MsgType) : M unit :=
  modify (upd_node (fun n => set_debugged (debugged n ++ [type]) n)).

Definition debug_send (id msgLen : Z) : M unit :=
  modify (upd_node (fun n => set_sent (sent n ++ [(id, msgLen)]) n)).

(** Calling a completion callback with an error or with [null]. *)
Definition call (cb : Callback) (err : option Exn) : M unit :=
  match cb with
  | RethrowCb =>
      match err with
      | Some e => throw e
      | None => ret tt
      end
  | _ => modify (upd_node (fun n => set_called (called n ++ [(cb, err)]) n))
  end.

(** ** The session: [lib/protocol/stream.js]

    The methods the parser dispatches to come first; the public API, which
    needs the parser, follows it. *)

Section Engine.

Context `{Env}.

(** [new Stream({ id })], once the constructor has checked the size of
    [id] (drawn at random when the caller gives none). *)
Definition new_Stream (id : bytes) : Stream :=
  {| parser :=
       {| id := id;
          _xor := {| xor_self := None; xor_remote := None |};
          _pending := [];
          _state := magic;
          _waiting := Fin (size MAGIC);
          _varint := {| varint_value := 0; varint_shift := 0 |};
          _gotHandshake := false;
          _paused := {| paused_enabled := false; paused_pending := None;
                        paused_callback := None |} |};
     feedKey := None;
     feed := None;
     privateKey := None;
     chain := None;
     secure := false;
     _hyperchain := None;
     _startCallback := None;
     _destroyed := false;
     _nonce := {| nonce_remote := None; nonce_local := None;
                  nonce_hash := None; nonce_reverseHash := None |};
     _remote := {| remote_id := None; remote_chain := None |};
     _queue := Some [];
     node := {| pushed := []; emitted := []; once_open := true;
                nextTick := []; called := []; debugged := [];
                sent := [] |} |}.

Definition _hash (input : bytes) : bytes :=
  crypto_generichash input HASH_KEY.

(** The encoder throws what the generated [encodingLength] throws. *)
Definition Type_encodingLength (content : Body) : M Z :=
  match encodingLength content with
  | Some n => ret n
  | None => throw E_REQUIRED
  end.

(** [nonce] is the result of [this._randomBytes(NONCE_SIZE)]. *)
Definition _open (nonce : bytes) : M unit :=
  modify (fun s =>
    set__nonce {| nonce_remote := nonce_remote (_nonce s);
                  nonce_local := Some nonce;
                  nonce_hash := nonce_hash (_nonce s);
                  nonce_reverseHash := nonce_reverseHash (_nonce s) |} s) ;;
  feed <- (f <- get feed ;; deref f "this.feed") ;;
  let msg := BOpen {| open_feed := feed; open_nonce := nonce |} in
  msgLen <- Type_encodingLength msg ;;
  let buf := MAGIC ++ varint_encode msgLen ++ pb_encode msg in
  push buf ;;
  key <- (k <- get feedKey ;; deref k "this.feedKey") ;;
  modify (upd_parser (fun p =>
    set__xor {| xor_self := Some {| xor_nonce := nonce; xor_key := key;
                                    xor_pos := 0 |};
                xor_remote := xor_remote (_xor p) |} p)).

(** The plaintext of a frame, as [_send] lays it out. *)
Definition frame (id : Z) (content : Body) : bytes :=
  let idLen := varint_encodingLength id in
  let msgLen := size (pb_encode content) in
  varint_encode (idLen + msgLen) ++ varint_encode id ++ pb_encode content.

Definition _send (id : Z) (content : Body) (callback : option Callback)
  : M unit :=
  msgLen <- Type_encodingLength content ;;
  debug_send id msgLen ;;
  let buf := frame id content in
  x <- (x <- get (fun s => xor_self (_xor (parser s))) ;;
        deref x "this._xor.self") ;;
  let '(buf, x) := xor_update x buf in
  modify (upd_parser (fun p =>
    set__xor {| xor_self := Some x; xor_remote := xor_remote (_xor p) |} p)) ;;
  push buf ;;
  match callback with
  | Some cb => process_nextTick (TSendCallback cb)
  | None => ret tt
  end.

(** The [Handshake] that [_handshake] sends; a [chain] that is not
    defined is left out by the encoder. *)
Definition handshake_body (s : Stream) (hash key : bytes) : Handshake :=
  {| hs_id := id (parser s);
     hs_extensions := [];
     hs_signature := signatures_sign hash key;
     hs_chain := match chain s with Some c => c | None => [] end |}.

Definition _handshake (remoteNonce : bytes) : M unit :=
  hash <- (h <- get (fun s => nonce_hash (_nonce s)) ;;
           deref h "this._nonce.hash") ;;
  key <- (k <- get privateKey ;; deref k "this.privateKey") ;;
  body <- get (fun s => handshake_body s hash key) ;;
  _send messages.id.HANDSHAKE (BHandshake body) None.

Definition _onStart (callback : Open) : M unit :=
  f <- get feed ;;
  if is_some f then process_nextTick (TStartCallback callback)
  else modify (set__startCallback (Some callback)).

(** [callback] stands for the closure that captures [open]; its body is
    [_onOpen_callback] below. *)
Definition _onOpen (open : Open) : M unit := _onStart open.

Definition _secureSend (id : Z) (content : Body)
  (callback : option Callback) : M unit :=
  _ <- Type_encodingLength content ;;
  sec <- get secure ;;
  if negb sec then
    q <- (q <- get _queue ;; deref q "this._queue") ;;
    modify (set__queue (Some (q ++ [{| q_id := id; q_content := content;
                                       q_callback := callback |}])))
  else _send id content callback.

(** [queue.forEach(cb => cb())]. *)
Fixpoint forEach_queue (queue : list Queued) : M unit :=
  match queue with
  | [] => ret tt
  | q :: queue' =>
      _secureSend (q_id q) (q_content q) (q_callback q) ;;
      forEach_queue queue'
  end.

(** The loop of [_onHandshake] over the remote chain, from the current
    [expiration] and [publicKey]; [None] when [parseLink] throws. *)
Fixpoint parse_links (links : list bytes) (expiration : Num)
  (publicKey : option bytes) : option (Num * option bytes) :=
  match links with
  | [] => Some (expiration, publicKey)
  | l :: links' =>
      match hyperchain_parseLink l with
      | None => None
      | Some link =>
          parse_links links' (Math_min expiration (link_expiration link))
                      (Some (link_publicKey link))
      end
  end.

Definition chain_verify (chain : list bytes) (hash signature : bytes)
  : M unit :=
  root <- (r <- get _hyperchain ;; deref r "this._hyperchain") ;;
  if hyperchain_verify root chain hash signature then ret tt
  else throw E_VERIFY.

Definition _onHandshake (body : Handshake) : M unit :=
  reverseHash <- (h <- get (fun s => nonce_reverseHash (_nonce s)) ;;
                  deref h "this._nonce.reverseHash") ;;
  chain_verify (hs_chain body) reverseHash (hs_signature body) ;;
  modify (set__remote {| remote_id := Some (hs_id body);
                         remote_chain := Some (hs_chain body) |}) ;;
  modify (set_secure true) ;;
  emit (EvSecure (hs_id body) (hs_chain body)) ;;
  queue <- get _queue ;;
  modify (set__queue None) ;;
  queue <- deref queue "queue" ;;
  forEach_queue queue ;;
  local <- (c <- get chain ;; deref c "this.chain") ;;
  if size (hs_chain body) - 1 <=? size local then ret tt
  else
    r <- match parse_links (hs_chain body) Infinity None with
         | Some r => ret r
         | None => throw E_LINK
         end ;;
    let '(expiration, publicKey) := r in
    key <- (k <- get privateKey ;; deref k "this.privateKey") ;;
    let link := hyperchain_issueLink expiration publicKey key in
    _secureSend messages.id.LINK (BLink {| link_link := link |}) None.

Definition _onLink (body : Link) : M unit :=
  local <- (c <- get chain ;; deref c "this.chain") ;;
  remote <- (c <- get (fun s => remote_chain (_remote s)) ;;
             deref c "this._remote.chain") ;;
  if size local - 1 <=? size remote then ret tt
  else
    let chain := remote ++ [link_link body] in
    key <- (k <- get privateKey ;; deref k "this.privateKey") ;;
    let sign := signatures_sign EMPTY_HASH key in
    chain_verify chain EMPTY_HASH sign ;;
    modify (set_chain (Some chain)) ;;
    emit (EvChainUpdate chain).

(** [Parser.prototype._onData]: stream.js overrides [_onHandshake] and
    [_onLink] but has no [_onData] of its own, so this is the method that
    runs. *)
Definition _onData (body : Data) : M unit :=
  throw E_NOT_CALLED.

(** ** The frame parser: [lib/protocol/parser.js] *)

Definition _setState (state : State) (waiting : Num) : M unit :=
  modify (upd_parser (fun p => set__waiting waiting (set__state state p))).

(** [this._pending.take(n)].  [_process] only parses when at least
    [_waiting] bytes are buffered; asking for more than there is throws. *)
Definition take (n : Num) : M bytes :=
  p <- get (fun s => _pending (parser s)) ;;
  match n with
  | Fin n =>
      if size p <? n then throw (RangeError "obuf: not enough data")
      else
        modify (upd_parser (set__pending (skipn (Z.to_nat n) p))) ;;
        ret (firstn (Z.to_nat n) p)
  | Infinity => throw (RangeError "obuf: not enough data")
  end.

Definition _parseMagic : M bool :=
  actual <- take (Fin (size MAGIC)) ;;
  if negb (equals actual MAGIC) then throw E_MAGIC
  else
    _setState open_length (Fin 1) ;;
    ret true.

(** The [while] loop of [_parseLength]; [pending] is what is left in
    [this._pending], one byte of which [readUInt8] consumes. *)
Fixpoint _parseLength_loop (pending : bytes) : M bool :=
  match pending with
  | [] => ret false
  | b :: pending' =>
      modify (upd_parser (set__pending pending')) ;;
      let msb := js_and (byte_val b) 0x80 in
      let rest := js_and (byte_val b) 0x7f in
      modify (upd_parser (fun p =>
        set__varint
          {| varint_value :=
               js_or (varint_value (_varint p))
                     (js_shl rest (varint_shift (_varint p)));
             varint_shift := varint_shift (_varint p) + 7 |} p)) ;;
      v <- get (fun s => _varint (parser s)) ;;
      if 25 <=? varint_shift v then
        throw E_VARINT
      else if msb =? 0 then
        st <- get (fun s => _state (parser s)) ;;
        _setState (match st with open_length => open_body | _ => msg_body end)
                  (Fin (js_ushr0 (varint_value v))) ;;
        if MAX_PENDING_SIZE <? js_ushr0 (varint_value v) then
          throw E_LENGTH
        else
          modify (upd_parser
            (set__varint {| varint_value := 0; varint_shift := 0 |})) ;;
          ret true
      else _parseLength_loop pending'
  end.

Definition _parseLength : M bool :=
  p <- get (fun s => _pending (parser s)) ;;
  _parseLength_loop p.

(** [this.emit('open', open)]: the listener the constructor registered
    with [once] runs [_onOpen]; the other listeners see the event. *)
Definition emit_open (open : Open) : M unit :=
  once <- get (fun s => once_open (node s)) ;;
  (if once then
     modify (upd_node (set_once_open false)) ;;
     _onOpen open
   else ret tt) ;;
  emit (EvOpen open).

Definition decoded {A} (o : option A) : M A :=
  match o with
  | Some a => ret a
  | None => throw E_DECODE
  end.

Definition _parseOpen : M bool :=
  w <- get (fun s => _waiting (parser s)) ;;
  raw <- take w ;;
  _setState paused Infinity ;;
  open <- decoded (pb_decode_Open raw) ;;
  if negb (size (open_feed open) =? HASH_SIZE) then
    throw E_FEED_SIZE
  else if negb (size (open_nonce open) =? NONCE_SIZE) then
    throw E_NONCE_SIZE
  else
    en <- get (fun s => paused_enabled (_paused (parser s))) ;;
    assert (negb en) "!this._paused.enabled" ;;
    all <- get (fun s => _pending (parser s)) ;;
    pending <- take (Fin (size all)) ;;
    modify (upd_parser (fun p =>
      set__paused {| paused_enabled := true;
                     paused_pending := Some pending;
                     paused_callback := paused_callback (_paused p) |} p)) ;;
    emit_open open ;;
    ret true.

(** The chain of [id === messages.id.X] tests of [_parse]; [None] is the
    final [else], an unknown message. *)
Definition type_of_id (id : Z) : option MsgType :=
  if id =? messages.id.HANDSHAKE then Some Thandshake
  else if id =? messages.id.SYNC then Some Tsync
  else if id =? messages.id.FILTER_OPTIONS then Some Tfilter_options
  else if id =? messages.id.DATA then Some Tdata
  else if id =? messages.id.REQUEST then Some Trequest
  else if id =? messages.id.LINK then Some Tlink
  else None.

(** [Type.decode(msg, offset, msg.length)] and the dispatch on [type]. *)
Definition dispatch (type : MsgType) (payload : bytes) : M unit :=
  match type with
  | Thandshake =>
      body <- decoded (pb_decode_Handshake payload) ;; _onHandshake body
  | Tlink => body <- decoded (pb_decode_Link payload) ;; _onLink body
  | Tdata => body <- decoded (pb_decode_Data payload) ;; _onData body
  | Tsync =>
      body <- decoded (pb_decode_Sync payload) ;;
      emit (EvMessage Tsync (BSync body))
  | Tfilter_options =>
      body <- decoded (pb_decode_FilterOptions payload) ;;
      emit (EvMessage Tfilter_options (BFilterOptions body))
  | Trequest =>
      body <- decoded (pb_decode_Request payload) ;;
      emit (EvMessage Trequest (BRequest body))
  end.

(** The [msg:body] part of [_parse]. *)
Definition _parse_body : M bool :=
  w <- get (fun s => _waiting (parser s)) ;;
  msg <- take w ;;
  _setState msg_length (Fin 1) ;;
  match varint_decode msg with
  | None => throw (RangeError "Could not decode varint")
  | Some (id, offset) =>
      match type_of_id id with
      | None => ret true
      | Some type =>
          got <- get (fun s => _gotHandshake (parser s)) ;;
          if negb got && negb (MsgType_eqb type Thandshake) then
            throw E_HANDSHAKE_FIRST
          else if got && MsgType_eqb type Thandshake then
            throw E_HANDSHAKE_ONCE
          else
            debug type ;;
            modify (upd_parser (set__gotHandshake true)) ;;
            dispatch type (skipn offset msg) ;;
            ret true
      end
  end.

Definition _parse : M bool :=
  st <- get (fun s => _state (parser s)) ;;
  match st with
  | magic => _parseMagic
  | open_length | msg_length => _parseLength
  | open_body => _parseOpen
  | _ => _parse_body
  end.

(** A bound on the number of turns of the loop of [_process]: every
    successful [_parse] lowers it (see [_parse_lowers_rank]). *)
Definition rank (s : Stream) : nat :=
  3 * length (_pending (parser s)) +
  match _state (parser s) with
  | open_body | msg_body => 2
  | paused => 1
  | _ => 0
  end.

(** The [while] loop of [_process] with its [try]/[catch]: [Some e] when
    [_parse] threw [e]. *)
Fixpoint _process_loop (turns : nat) : M (option Exn) :=
  fun s =>
    match turns with
    | O => (s, Ok None)
    | S turns' =>
        if geb_num (size (_pending (parser s))) (_waiting (parser s)) then
          match _parse s with
          | (s', Ok true) => _process_loop turns' s'
          | (s', Ok false) => (s', Ok None)
          | (s', Throw e) => (s', Ok (Some e))
          end
        else (s, Ok None)
    end.

Definition _process (cb : Callback) : M unit :=
  turns <- get (fun s => S (rank s)) ;;
  caught <- _process_loop turns ;;
  match caught with
  | Some e => call cb (Some e)
  | None =>
      p <- get (fun s => _pending (parser s)) ;;
      if MAX_PENDING_SIZE <=? size p then
        call cb (Some E_TOO_BIG)
      else
        pa <- get (fun s => _paused (parser s)) ;;
        if paused_enabled pa then
          assert (negb (is_some (paused_callback pa)))
                 "this._paused.callback === null" ;;
          modify (upd_parser (fun p =>
            set__paused {| paused_enabled := paused_enabled (_paused p);
                           paused_pending := paused_pending (_paused p);
                           paused_callback := Some cb |} p))
        else call cb None
  end.

Definition _write (data : bytes) (cb : Callback) : M unit :=
  x <- get (fun s => xor_remote (_xor (parser s))) ;;
  data <- match x with
          | Some x =>
              let '(data, x) := xor_update x data in
              modify (upd_parser (fun p =>
                set__xor {| xor_self := xor_self (_xor p);
                            xor_remote := Some x |} p)) ;;
              ret data
          | None => ret data
          end ;;
  modify (upd_parser (fun p => set__pending (_pending p ++ data) p)) ;;
  _process cb.

Definition _resumeParsing : M unit :=
  _setState msg_length (Fin 1) ;;
  pending <- get (fun s => paused_pending (_paused (parser s))) ;;
  modify (upd_parser (fun p =>
    set__paused {| paused_enabled := false;
                   paused_pending := None;
                   paused_callback := paused_callback (_paused p) |} p)) ;;
  pending <- deref pending "pending" ;;
  x <- (x <- get (fun s => xor_remote (_xor (parser s))) ;;
        deref x "this._xor.remote") ;;
  let '(pending, x) := xor_update x pending in
  modify (upd_parser (fun p =>
    set__xor {| xor_self := xor_self (_xor p); xor_remote := Some x |} p)) ;;
  modify (upd_parser (fun p => set__pending (_pending p ++ pending) p)) ;;
  cb <- get (fun s => paused_callback (_paused (parser s))) ;;
  modify (upd_parser (fun p =>
    set__paused {| paused_enabled := paused_enabled (_paused p);
                   paused_pending := paused_pending (_paused p);
                   paused_callback := None |} p)) ;;
  _process (match cb with Some cb => cb | None => RethrowCb end).

(** ** The session, continued: the public API *)

(** The body of the closure [_onOpen] hands to [_onStart]. *)
Definition _onOpen_callback (open : Open) : M unit :=
  feed <- (f <- get feed ;; deref f "this.feed") ;;
  if negb (equals (open_feed open) feed) then
    emit (EvError E_FEED)
  else
    let remote := open_nonce open in
    modify (fun s =>
      set__nonce {| nonce_remote := Some remote;
                    nonce_local := nonce_local (_nonce s);
                    nonce_hash := nonce_hash (_nonce s);
                    nonce_reverseHash := nonce_reverseHash (_nonce s) |} s) ;;
    local <- (l <- get (fun s => nonce_local (_nonce s)) ;;
              deref l "this._nonce.local") ;;
    modify (set__nonce
      {| nonce_remote := None;
         nonce_local := None;
         nonce_hash := Some (_hash (local ++ remote));
         nonce_reverseHash := Some (_hash (remote ++ local)) |}) ;;
    key <- (k <- get feedKey ;; deref k "this.feedKey") ;;
    modify (upd_parser (fun p =>
      set__xor {| xor_self := xor_self (_xor p);
                  xor_remote := Some {| xor_nonce := open_nonce open;
                                        xor_key := key;
                                        xor_pos := 0 |} |} p)) ;;
    _handshake (open_nonce open) ;;
    _resumeParsing.

Record StartOptions := {
  opt_feedKey : option bytes;
  opt_privateKey : option bytes;
  opt_chain : option (list bytes);
  opt_discoveryKey : option bytes
}.

(** [nonce] is what [_open] draws with [_randomBytes]. *)
Definition start (options : StartOptions) (nonce : bytes) : M unit :=
  assert (is_some (opt_feedKey options))
         "`options.feedKey` must be a Buffer" ;;
  feedKey <- deref (opt_feedKey options) "options.feedKey" ;;
  assert (size feedKey =? PUBLIC_KEY_SIZE)
         "`options.feedKey` must have size 32" ;;
  assert (is_some (opt_privateKey options))
         "`options.privateKey` must be a Buffer" ;;
  privateKey <- deref (opt_privateKey options) "options.privateKey" ;;
  assert (size privateKey =? PRIVATE_KEY_SIZE)
         "`options.privateKey` must have size 64" ;;
  assert (is_some (opt_chain options)) "options.chain must be an Array" ;;
  chain <- deref (opt_chain options) "options.chain" ;;
  assert (size chain <=? MAX_CHAIN_LENGTH)
         "Maximum chain length size is 5" ;;
  modify (set_feedKey (Some feedKey)) ;;
  let feed := match opt_discoveryKey options with
              | Some discoveryKey => discoveryKey
              | None => _hash feedKey
              end in
  modify (set_feed (Some feed)) ;;
  assert (size feed =? HASH_SIZE)
         "`options.discoverKey` must have size 32" ;;
  modify (set_privateKey (Some privateKey)) ;;
  modify (set_chain (Some chain)) ;;
  modify (set__hyperchain (Some feedKey)) ;;
  chain_verify chain EMPTY_HASH (signatures_sign EMPTY_HASH privateKey) ;;
  _open nonce ;;
  cb <- get _startCallback ;;
  match cb with
  | Some cb => process_nextTick (TStartCallback cb)
  | None => ret tt
  end.

Definition destroy : M unit :=
  d <- get _destroyed ;;
  if d then ret tt
  else
    modify (set__destroyed true) ;;
    emit EvClose.

Definition sync (body : Sync) (callback : option Callback) : M unit :=
  _secureSend messages.id.SYNC (BSync body) callback.

Definition filterOptions (body : FilterOptions)
  (callback : option Callback) : M unit :=
  _secureSend messages.id.FILTER_OPTIONS (BFilterOptions body) callback.

Definition data (body : Data) (callback : option Callback) : M unit :=
  _secureSend messages.id.DATA (BData body) callback.

Definition request (body : Request) (callback : option Callback)
  : M unit :=
  _secureSend messages.id.REQUEST (BRequest body) callback.

(** ** The session driven from outside

    Everything that can happen to a session on node's single thread: a
    chunk written to it, a call of the public API, or the next
    [process.nextTick] task being run. *)

Inductive Call :=
| call_start (options : StartOptions) (nonce : bytes)
| call_sync (body : Sync) (callback : option Callback)
| call_filterOptions (body : FilterOptions) (callback : option Callback)
| call_data (body : Data) (callback : option Callback)
| call_request (body : Request) (callback : option Callback)
| call_destroy.

Definition api (c : Call) : M unit :=
  match c with
  | call_start options nonce => start options nonce
  | call_sync body callback => sync body callback
  | call_filterOptions body callback => filterOptions body callback
  | call_data body callback => data body callback
  | call_request body callback => request body callback
  | call_destroy => destroy
  end.

Inductive Action :=
| Write (chunk : bytes) (cb : nat)
| Api (c : Call)
| Tick.

Definition run_task (t : Task) : M unit :=
  match t with
  | TStartCallback open => _onOpen_callback open
  | TSendCallback cb => call cb None
  end.

Definition step (a : Action) : M unit :=
  match a with
  | Write chunk cb => _write chunk (WriteCb cb)
  | Api c => api c
  | Tick =>
      q <- get (fun s => nextTick (node s)) ;;
      match q with
      | [] => ret tt
      | t :: q' =>
          modify (upd_node (set_nextTick q')) ;;
          run_task t
      end
  end.

(** The state after a sequence of actions; an exception ends the action
    that raised it and leaves the object as it was then. *)
Fixpoint run (actions : list Action) (s : Stream) : Stream :=
  match actions with
  | [] => s
  | a :: actions' => run actions' (fst (step a s))
  end.

End Engine.

(** ** A sample environment

    Stand-ins for the injected dependencies, used to run the engine on
    concrete sessions: LEB128 varints, the tagged wire format of the
    schema, and toy cryptography (a signature is the signer's public half
    followed by the message; a link is the public key it delegates to). *)

Module Sample.

Definition byte_of_Z (z : Z) : byte :=
  match Byte.of_N (Z.to_N z) with
  | Some b => b
  | None => x00
  end.

Fixpoint leb128 (fuel : nat) (n : Z) : bytes :=
  match fuel with
  | O => []
  | S fuel' =>
      if n <? 128 then [byte_of_Z n]
      else byte_of_Z (n mod 128 + 128) :: leb128 fuel' (n / 128)
  end.

Definition encode_varint (n : Z) : bytes := leb128 10 n.

Fixpoint decode_varint_from (buf : bytes) (shift : Z) (acc : Z) (read : nat)
  : option (Z * nat) :=
  match buf with
  | [] => None
  | b :: buf' =>
      let acc := acc + Z.shiftl (Z.land (byte_val b) 127) shift in
      if byte_val b <? 128 then Some (acc, S read)
      else decode_varint_from buf' (shift + 7) acc (S read)
  end.

Definition decode_varint (buf : bytes) : option (Z * nat) :=
  decode_varint_from buf 0 0 0%nat.

(** Wire format: a field is its tag byte followed by a varint, or by a
    varint length and that many bytes. *)
Definition f_bytes (field : Z) (v : bytes) : bytes :=
  byte_of_Z (field * 8 + 2) :: encode_varint (size v) ++ v.

Definition f_uint (field : Z) (v : Z) : bytes :=
  byte_of_Z (field * 8) :: encode_varint v.

Definition opt {A} (f : A -> bytes) (o : option A) : bytes :=
  match o with Some a => f a | None => [] end.

Definition bytes_of_string (s : String.string) : bytes :=
  String.list_byte_of_string s.

Definition encode_Range (r : Range) : bytes :=
  opt (f_bytes 1) (range_start r) ++ opt (f_bytes 2) (range_end r).

Definition encode (b : Body) : bytes :=
  match b with
  | BOpen o => f_bytes 1 (open_feed o) ++ f_bytes 2 (open_nonce o)
  | BHandshake h =>
      f_bytes 1 (hs_id h) ++
      flat_map (fun e => f_bytes 2 (bytes_of_string e)) (hs_extensions h) ++
      f_bytes 3 (hs_signature h) ++
      flat_map (f_bytes 4) (hs_chain h)
  | BSync s =>
      opt (f_bytes 1) (sync_filter s) ++ opt (f_uint 2) (sync_size s) ++
      opt (f_uint 3) (sync_n s) ++ opt (f_uint 4) (sync_seed s) ++
      opt (f_uint 5) (sync_limit s) ++
      opt (fun r => f_bytes 6 (encode_Range r)) (sync_range s)
  | BFilterOptions f => opt (f_uint 1) (fo_size f) ++ opt (f_uint 1) (fo_n f)
  | BData d => flat_map (f_bytes 1) (data_values d)
  | BRequest r =>
      opt (f_bytes 1) (req_start r) ++ opt (f_bytes 2) (req_end r) ++
      opt (f_uint 3) (req_limit r)
  | BLink l => f_bytes 1 (link_link l)
  end.

(** The decoders compiled from the schema.  A decoder walks the buffer
    from [offset] to [end]: it reads a prefix, takes [prefix >> 3] as the
    tag and decodes the field as the schema types that tag, whatever wire
    type the prefix carries; a tag the schema does not have is skipped by
    wire type.  A non-repeated field met twice keeps the last value. *)
Inductive Kind := KUint | KBytes | KMessage.

Inductive Value := VUint (v : Z) | VBytes (b : bytes) | VRange (r : Range).

(** [varint.decode(buf, offset)]: the value and the offset behind it. *)
Definition varint_at (buf : bytes) (offset : nat) : option (Z * nat) :=
  match decode_varint (skipn offset buf) with
  | Some (v, n) => Some (v, (offset + n)%nat)
  | None => None
  end.

(** [buf.slice(offset, offset + len)], cut at the end of the buffer. *)
Definition slice (buf : bytes) (offset : nat) (len : Z) : bytes :=
  firstn (Z.to_nat len) (skipn offset buf).

(** [skip(prefix & 7, buf, offset)]: groups and unknown wire types
    throw. *)
Definition skip (wire : Z) (buf : bytes) (offset : nat) : option nat :=
  if wire =? 0 then option_map snd (varint_at buf offset)
  else if wire =? 1 then Some (offset + 8)%nat
  else if wire =? 2 then
    match varint_at buf offset with
    | Some (len, offset) => Some (offset + Z.to_nat len)%nat
    | None => None
    end
  else if wire =? 5 then Some (offset + 4)%nat
  else None.

(** The loop of a decoder: the fields it has met, in order, and the
    offset it stops at.  A [bytes] field that runs past the end of the
    buffer is cut there; an embedded message must lie within the buffer,
    and is handed to [nested] with its own [end]. *)
Fixpoint read_fields (schema : Z -> option Kind)
  (nested : bytes -> nat -> nat -> option (Range * nat))
  (fuel : nat) (buf : bytes) (offset stop : nat)
  : option (list (Z * Value) * nat) :=
  match fuel with
  | O => None
  | S fuel' =>
      if (stop <=? offset)%nat then Some ([], offset)
      else
        match varint_at buf offset with
        | None => None
        | Some (prefix, offset) =>
            let tag := Z.shiftr (ToInt32 prefix) 3 in
            let more (v : Value) (offset : nat) :=
              match read_fields schema nested fuel' buf offset stop with
              | Some (fs, offset) => Some ((tag, v) :: fs, offset)
              | None => None
              end in
            match schema tag with
            | Some KUint =>
                match varint_at buf offset with
                | Some (v, offset) => more (VUint v) offset
                | None => None
                end
            | Some KBytes =>
                match varint_at buf offset with
                | Some (len, offset) =>
                    more (VBytes (slice buf offset len))
                         (offset + Z.to_nat len)%nat
                | None => None
                end
            | Some KMessage =>
                match varint_at buf offset with
                | Some (len, offset) =>
                    match nested buf offset (offset + Z.to_nat len)%nat with
                    | Some (r, offset) => more (VRange r) offset
                    | None => None
                    end
                | None => None
                end
            | None =>
                match skip (js_and prefix 7) buf offset with
                | Some offset =>
                    read_fields schema nested fuel' buf offset stop
                | None => None
                end
            end
        end
  end.

(** A decoder refuses an [end] or an [offset] beyond the buffer. *)
Definition fields_between (schema : Z -> option Kind)
  (nested : bytes -> nat -> nat -> option (Range * nat))
  (buf : bytes) (offset stop : nat) : option (list (Z * Value) * nat) :=
  if (stop <=? length buf)%nat && (offset <=? length buf)%nat then
    read_fields schema nested (S (length buf)) buf offset stop
  else None.

Definition last_bytes (field : Z) (fs : list (Z * Value)) : option bytes :=
  fold_left (fun acc f =>
    match f with
    | (n, VBytes v) => if n =? field then Some v else acc
    | _ => acc
    end) fs None.

Definition last_uint (field : Z) (fs : list (Z * Value)) : option Z :=
  fold_left (fun acc f =>
    match f with
    | (n, VUint v) => if n =? field then Some v else acc
    | _ => acc
    end) fs None.

Definition last_range (field : Z) (fs : list (Z * Value)) : option Range :=
  fold_left (fun acc f =>
    match f with
    | (n, VRange v) => if n =? field then Some v else acc
    | _ => acc
    end) fs None.

Definition all_bytes (field : Z) (fs : list (Z * Value)) : list bytes :=
  flat_map (fun f =>
    match f with
    | (n, VBytes v) => if n =? field then [v] else []
    | _ => []
    end) fs.

(** An optional [uint32] that is absent decodes to 0; an absent optional
    [bytes] or message decodes to [null]. *)
Definition uint_or_0 (o : option Z) : option Z :=
  match o with Some v => Some v | None => Some 0 end.

Definition no_message (buf : bytes) (offset stop : nat)
  : option (Range * nat) := None.

Definition schema_of (kinds : list (Z * Kind)) (tag : Z) : option Kind :=
  option_map snd (find (fun k => fst k =? tag) kinds).

Definition parse (kinds : list (Z * Kind)) (buf : bytes)
  : option (list (Z * Value)) :=
  option_map fst
    (fields_between (schema_of kinds) no_message buf 0 (length buf)).

Definition decode_Open (buf : bytes) : option Open :=
  match parse [(1, KBytes); (2, KBytes)] buf with
  | Some fs =>
      match last_bytes 1 fs, last_bytes 2 fs with
      | Some feed, Some nonce =>
          Some {| open_feed := feed; open_nonce := nonce |}
      | _, _ => None
      end
  | None => None
  end.

Definition decode_Handshake (buf : bytes) : option Handshake :=
  match parse [(1, KBytes); (2, KBytes); (3, KBytes); (4, KBytes)] buf with
  | Some fs =>
      match last_bytes 1 fs, last_bytes 3 fs with
      | Some id, Some signature =>
          Some {| hs_id := id;
                  hs_extensions :=
                    map String.string_of_list_byte (all_bytes 2 fs);
                  hs_signature := signature;
                  hs_chain := all_bytes 4 fs |}
      | _, _ => None
      end
  | None => None
  end.

Definition decode_Range (buf : bytes) (offset stop : nat)
  : option (Range * nat) :=
  match
    fields_between (schema_of [(1, KBytes); (2, KBytes)]) no_message
      buf offset stop
  with
  | Some (fs, offset) =>
      match last_bytes 1 fs with
      | Some start =>
          Some ({| range_start := Some start;
                   range_end := last_bytes 2 fs |}, offset)
      | None => None
      end
  | None => None
  end.

Definition decode_Sync (buf : bytes) : option Sync :=
  match
    fields_between
      (schema_of [(1, KBytes); (2, KUint); (3, KUint); (4, KUint);
                  (5, KUint); (6, KMessage)])
      decode_Range buf 0 (length buf)
  with
  | Some (fs, _) =>
      match last_bytes 1 fs, last_uint 2 fs, last_uint 3 fs, last_uint 4 fs
      with
      | Some filter, Some size, Some n, Some seed =>
          Some {| sync_filter := Some filter; sync_size := Some size;
                  sync_n := Some n; sync_seed := Some seed;
                  sync_limit := uint_or_0 (last_uint 5 fs);
                  sync_range := last_range 6 fs |}
      | _, _, _, _ => None
      end
  | None => None
  end.

(** [size] and [n] both have tag 1 in the schema.  The decoder stores
    every field 1 it meets in one of them and never finds the other, so
    the check of the required fields fails at the end of every body. *)
Definition decode_FilterOptions (buf : bytes) : option FilterOptions :=
  match parse [(1, KUint)] buf with
  | Some fs =>
      let size := last_uint 1 fs in
      let n : option Z := None in
      match size, n with
      | Some size, Some n => Some {| fo_size := Some size; fo_n := Some n |}
      | _, _ => None
      end
  | None => None
  end.

Definition decode_Data (buf : bytes) : option Data :=
  match parse [(1, KBytes)] buf with
  | Some fs => Some {| data_values := all_bytes 1 fs |}
  | None => None
  end.

Definition decode_Request (buf : bytes) : option Request :=
  match parse [(1, KBytes); (2, KBytes); (3, KUint)] buf with
  | Some fs =>
      match last_bytes 1 fs with
      | Some start =>
          Some {| req_start := Some start; req_end := last_bytes 2 fs;
                  req_limit := uint_or_0 (last_uint 3 fs) |}
      | None => None
      end
  | None => None
  end.

Definition decode_Link (buf : bytes) : option Link :=
  match parse [(1, KBytes)] buf with
  | Some fs =>
      match last_bytes 1 fs with
      | Some l => Some {| link_link := l |}
      | None => None
      end
  | None => None
  end.

(** Toy cryptography. *)
Definition hash (input key : bytes) : bytes :=
  firstn 32 (input ++ key ++ repeat x00 32).

Definition stream_byte (nonce key : bytes) (pos : nat) : byte :=
  nth (pos mod 24) (nonce ++ repeat x5a 24) x5a.

Definition public (secretKey : bytes) : bytes := firstn 32 secretKey.

Definition sign (message secretKey : bytes) : bytes :=
  public secretKey ++ message.

Definition verify (root : bytes) (chain : list bytes)
  (hash signature : bytes) : bool :=
  equals signature (last chain root ++ hash).

#[export] Instance env : Env := {|
  HASH_KEY := bytes_of_string "hyperbloom";
  crypto_generichash := hash;
  crypto_stream := stream_byte;
  signatures_sign := sign;
  hyperchain_verify := verify;
  hyperchain_parseLink := fun l =>
    Some {| link_expiration := Infinity; link_publicKey := l |};
  hyperchain_issueLink := fun _ publicKey _ =>
    match publicKey with Some k => k | None => [] end;
  varint_encode := encode_varint;
  varint_decode := decode_varint;
  pb_encode := encode;
  pb_decode_Open := decode_Open;
  pb_decode_Handshake := decode_Handshake;
  pb_decode_Sync := decode_Sync;
  pb_decode_FilterOptions := decode_FilterOptions;
  pb_decode_Data := decode_Data;
  pb_decode_Request := decode_Request;
  pb_decode_Link := decode_Link
|}.

End Sample.

(** * Properties *)

(** ** Arithmetic of the 32-bit operators *)

Lemma byte_val_range (b : byte) : 0 <= byte_val b < 256.
Proof.
  unfold byte_val. pose proof (Byte.to_N_bounded b). lia.
Qed.

Lemma js_and_msb (b : byte) :
  (js_and (byte_val b) 0x80 =? 0) = (byte_val b <? 128).
Proof. destruct b; reflexivity. Qed.

Lemma js_and_rest (b : byte) : js_and (byte_val b) 0x7f = byte_val b mod 128.
Proof. destruct b; reflexivity. Qed.

Lemma ToInt32_small (z : Z) : 0 <= z < 2 ^ 31 -> ToInt32 z = z.
Proof.
  intros Hz. unfold ToInt32. rewrite Z.mod_small; lia.
Qed.

Lemma land_shifted (a r k : Z) :
  0 <= k -> 0 <= a < 2 ^ k -> Z.land a (r * 2 ^ k) = 0.
Proof.
  intros Hk Ha.
  rewrite <- Z.shiftl_mul_pow2 by trivial.
  apply Z.bits_inj'; intros n Hn.
  rewrite Z.land_spec, Z.bits_0, Z.shiftl_spec by trivial.
  destruct (Z.lt_ge_cases n k) as [Hlt | Hge].
  - rewrite (Z.testbit_neg_r r) by lia. apply andb_false_r.
  - destruct (Z.eq_dec a 0) as [-> | Hne].
    + rewrite Z.bits_0. reflexivity.
    + rewrite (Z.bits_above_log2 a n); [reflexivity | lia |].
      apply Z.lt_le_trans with k; [apply Z.log2_lt_pow2; lia | lia].
Qed.

Lemma lor_shifted (a r k : Z) :
  0 <= k -> 0 <= a < 2 ^ k -> Z.lor a (r * 2 ^ k) = a + r * 2 ^ k.
Proof.
  intros Hk Ha.
  pose proof (land_shifted a r k Hk Ha) as Hland.
  rewrite <- Z.lxor_lor by exact Hland.
  symmetry. apply Z.add_nocarry_lxor. exact Hland.
Qed.

(** One more group of seven bits, as long as it lands below bit 21. *)
Lemma js_or_shl (a r k : Z) :
  0 <= k <= 14 -> 0 <= a < 2 ^ k -> 0 <= r < 128 ->
  js_or a (js_shl r k) = a + r * 2 ^ k.
Proof.
  intros Hk Ha Hr.
  assert (Hp : 2 ^ k <= 2 ^ 14) by (apply Z.pow_le_mono_r; lia).
  assert (Hk31 : Z.land k 31 = k).
  { change 31 with (Z.ones 5). rewrite Z.land_ones by lia.
    apply Z.mod_small. change (2 ^ 5) with 32. lia. }
  unfold js_or, js_shl.
  rewrite Hk31, (ToInt32_small r) by lia.
  rewrite Z.shiftl_mul_pow2 by lia.
  assert (0 <= r * 2 ^ k < 2 ^ 21) by nia.
  rewrite (ToInt32_small (r * 2 ^ k)) by lia.
  rewrite (ToInt32_small (r * 2 ^ k)) by lia.
  rewrite (ToInt32_small a) by lia.
  rewrite lor_shifted by lia.
  apply ToInt32_small. lia.
Qed.

Lemma js_ushr0_small (z : Z) : 0 <= z < 2 ^ 32 -> js_ushr0 z = z.
Proof.
  intros Hz. unfold js_ushr0, ToUint32. apply Z.mod_small. exact Hz.
Qed.

(** ** Length varints *)

(** The value an unsigned LEB128 encoding stands for, and whether a byte
    sequence is one encoding: continuation bytes, then a byte without the
    top bit. *)
Fixpoint leb128_value (enc : bytes) : Z :=
  match enc with
  | [] => 0
  | b :: enc' => byte_val b mod 128 + 128 * leb128_value enc'
  end.

Fixpoint terminated (enc : bytes) : bool :=
  match enc with
  | [] => false
  | b :: enc' =>
      match enc' with
      | [] => byte_val b <? 128
      | _ => (128 <=? byte_val b) && terminated enc'
      end
  end.

Definition body_state (st : State) : State :=
  match st with open_length => open_body | _ => msg_body end.

(** The state after [readUInt8] and the update of [_varint]. *)
Definition read_byte (b : byte) (pending' : bytes) (s : Stream) : Stream :=
  upd_parser (fun p =>
    set__varint
      {| varint_value :=
           js_or (varint_value (_varint p))
                 (js_shl (byte_val b mod 128) (varint_shift (_varint p)));
         varint_shift := varint_shift (_varint p) + 7 |}
      (set__pending pending' p)) s.

Definition length_parsed (v : Z) (s : Stream) : Stream :=
  upd_parser (fun p =>
    set__waiting (Fin v) (set__state (body_state (_state p)) p)) s.

Definition varint_reset (s : Stream) : Stream :=
  upd_parser (set__varint {| varint_value := 0; varint_shift := 0 |}) s.

Lemma _parseLength_loop_step (b : byte) (pending' : bytes) (s : Stream) :
  _parseLength_loop (b :: pending') s =
  let s1 := read_byte b pending' s in
  let v := js_ushr0 (varint_value (_varint (parser s1))) in
  if 25 <=? varint_shift (_varint (parser s1)) then (s1, Throw E_VARINT)
  else if byte_val b <? 128 then
    if MAX_PENDING_SIZE <? v then (length_parsed v s1, Throw E_LENGTH)
    else (varint_reset (length_parsed v s1), Ok true)
  else _parseLength_loop pending' s1.
Proof.
  cbn [_parseLength_loop]. rewrite js_and_msb, js_and_rest.
  unfold bind, modify, get. cbn zeta.
  fold (read_byte b pending' s).
  destruct (25 <=? _); [reflexivity |].
  destruct (byte_val b <? 128); [| reflexivity].
  unfold _setState, modify, throw, ret.
  destruct (MAX_PENDING_SIZE <? _); reflexivity.
Qed.

Lemma rest_range (b : byte) : 0 <= byte_val b mod 128 < 128.
Proof. apply Z.mod_pos_bound. lia. Qed.

Lemma group0 (r : Z) : 0 <= r < 128 -> js_or 0 (js_shl r 0) = r.
Proof.
  intros Hr. rewrite js_or_shl; change (2 ^ 0) with 1; lia.
Qed.

Lemma group1 (a r : Z) :
  0 <= a < 128 -> 0 <= r < 128 -> js_or a (js_shl r 7) = a + 128 * r.
Proof.
  intros Ha Hr. rewrite js_or_shl; change (2 ^ 7) with 128; lia.
Qed.

Lemma group2 (a r : Z) :
  0 <= a < 16384 -> 0 <= r < 128 -> js_or a (js_shl r 14) = a + 16384 * r.
Proof.
  intros Ha Hr. rewrite js_or_shl; change (2 ^ 14) with 16384; lia.
Qed.

Lemma group3 (a r : Z) :
  0 <= a < 2097152 -> 0 <= r < 128 ->
  js_or a (js_shl r 21) = a + 2097152 * r.
Proof.
  intros Ha Hr. unfold js_or, js_shl.
  change (Z.land 21 31) with 21.
  rewrite (ToInt32_small r) by lia.
  rewrite Z.shiftl_mul_pow2 by lia.
  change (2 ^ 21) with 2097152.
  rewrite (ToInt32_small (r * 2097152)) by lia.
  rewrite (ToInt32_small (r * 2097152)) by lia.
  rewrite (ToInt32_small a) by lia.
  change 2097152 with (2 ^ 21) at 1.
  rewrite lor_shifted by (change (2 ^ 21) with 2097152; lia).
  change (2 ^ 21) with 2097152.
  rewrite ToInt32_small by lia. lia.
Qed.
Opaque js_or js_shl js_ushr0 js_and.

(** The parser once a length [v] has been read: the body state, [v]
    bytes awaited, [rest] still buffered, [_varint] cleared. *)
Definition accepted (v : Z) (rest : bytes) (s : Stream) : Stream :=
  upd_parser (fun p =>
    set__varint {| varint_value := 0; varint_shift := 0 |}
      (set__waiting (Fin v)
        (set__state (body_state (_state p)) (set__pending rest p)))) s.

Ltac length_step :=
  rewrite _parseLength_loop_step;
  cbn [read_byte length_parsed varint_reset upd_parser set_parser parser
       set__varint set__pending set__waiting set__state
       _varint _pending _state _waiting varint_value varint_shift Z.add
       Pos.add Pos.succ Pos.add_carry Z.leb Z.compare Pos.compare
       Pos.compare_cont].

Ltac continuation b :=
  replace (byte_val b <? 128) with false by (symmetry; apply Z.ltb_ge; lia).

Ltac length_done V L :=
  let HV := fresh "HV" in
  assert (HV : V = L)
    by (rewrite js_ushr0_small by lia; cbn [leb128_value]; lia);
  rewrite HV; clear HV;
  destruct (L <=? MAX_PENDING_SIZE) eqn:Hle;
  destruct (MAX_PENDING_SIZE <? L) eqn:Hlt;
  try reflexivity; lia.

(** [_parseLength] on a terminated encoding, by the number of its
    bytes. *)
Lemma _parseLength_by_length (s : Stream) (enc rest : bytes) :
  terminated enc = true ->
  _varint (parser s) = {| varint_value := 0; varint_shift := 0 |} ->
  _pending (parser s) = enc ++ rest ->
  ((length enc <= 3)%nat ->
   if leb128_value enc <=? MAX_PENDING_SIZE
   then _parseLength s = (accepted (leb128_value enc) rest s, Ok true)
   else snd (_parseLength s) = Throw E_LENGTH) /\
  ((4 <= length enc)%nat -> snd (_parseLength s) = Throw E_VARINT).
Proof.
  intros Hterm Hvar Hpend.
  destruct s as [p fk f pk ch sec hc sc d no rm q nd].
  destruct p as [pid px pp pst pw pv pg ppa].
  cbn in Hvar, Hpend. subst pv pp.
  unfold _parseLength, bind, get.
  cbn [parser _pending].
  destruct enc as [| b1 [| b2 [| b3 [| b4 enc]]]]; cbn [app length];
    cbn [terminated] in Hterm;
    repeat match type of Hterm with
           | (_ && _) = true =>
               let H1 := fresh "Hc" in
               apply andb_prop in Hterm; destruct Hterm as [H1 Hterm];
               apply Z.leb_le in H1
           end.
  - discriminate.
  - split; [intros _ | intros Hlen; lia].
    pose proof (rest_range b1).
    length_step. rewrite Hterm.
    rewrite !group0 by lia.
    length_done (js_ushr0 (byte_val b1 mod 128)) (leb128_value [b1]).
  - split; [intros _ | intros Hlen; lia].
    pose proof (rest_range b1). pose proof (rest_range b2).
    length_step. continuation b1.
    length_step. rewrite Hterm.
    rewrite !group0 by lia. rewrite !group1 by lia.
    length_done
      (js_ushr0 (byte_val b1 mod 128 + 128 * (byte_val b2 mod 128)))
      (leb128_value [b1; b2]).
  - split; [intros _ | intros Hlen; lia].
    pose proof (rest_range b1). pose proof (rest_range b2).
    pose proof (rest_range b3).
    length_step. continuation b1.
    length_step. continuation b2.
    length_step. rewrite Hterm.
    rewrite !group0 by lia. rewrite !group1 by lia.
    rewrite !group2 by lia.
    length_done
      (js_ushr0 (byte_val b1 mod 128 + 128 * (byte_val b2 mod 128) +
                 16384 * (byte_val b3 mod 128)))
      (leb128_value [b1; b2; b3]).
  - split; [intros Hlen; lia | intros _].
    length_step. continuation b1.
    length_step. continuation b2.
    length_step. continuation b3.
    length_step.
    reflexivity.
Qed.

(** Continuation bytes only. *)
Definition continued (enc : bytes) : bool :=
  forallb (fun b => 128 <=? byte_val b) enc.

(** The parser once a length above [MAX_PENDING_SIZE] has been read: the
    body state is set and the length awaited, [_varint] is not cleared. *)
Definition oversized (enc rest : bytes) (s : Stream) : Stream :=
  upd_parser (fun p =>
    set__varint {| varint_value := leb128_value enc;
                   varint_shift := 7 * size enc |}
      (set__waiting (Fin (leb128_value enc))
        (set__state (body_state (_state p)) (set__pending rest p)))) s.

(** The parser once the fourth byte of a length has been read: the four
    groups of seven bits are in [_varint], [rest] is still buffered, the
    state and [_waiting] are as they were. *)
Definition overflowed (enc rest : bytes) (s : Stream) : Stream :=
  upd_parser (fun p =>
    set__varint {| varint_value := leb128_value enc; varint_shift := 28 |}
      (set__pending rest p)) s.

Ltac spelled :=
  cbv beta iota
      delta [length_parsed read_byte oversized overflowed upd_parser
             set_parser set__varint set__pending set__waiting set__state
             parser feedKey feed privateKey chain secure _hyperchain
             _startCallback _destroyed _nonce _remote _queue node
             id _xor _pending _state _waiting _varint _gotHandshake _paused
             varint_value varint_shift].

Lemma terminated_continued (enc : bytes) :
  terminated enc = true -> (4 <= length enc)%nat ->
  continued (firstn 3 enc) = true.
Proof.
  destruct enc as [| b1 [| b2 [| b3 [| b4 enc]]]]; cbn [length]; try lia.
  intros Hterm _. cbn [terminated] in Hterm.
  apply andb_prop in Hterm. destruct Hterm as [H1 Hterm].
  apply andb_prop in Hterm. destruct Hterm as [H2 Hterm].
  apply andb_prop in Hterm. destruct Hterm as [H3 _].
  cbn [firstn continued forallb]. rewrite H1, H2, H3. reflexivity.
Qed.

Lemma _parseLength_too_big (s : Stream) (enc rest : bytes) :
  terminated enc = true ->
  _varint (parser s) = {| varint_value := 0; varint_shift := 0 |} ->
  _pending (parser s) = enc ++ rest ->
  (length enc <= 3)%nat ->
  MAX_PENDING_SIZE < leb128_value enc ->
  _parseLength s = (oversized enc rest s, Throw E_LENGTH).
Proof.
  intros Hterm Hvar Hpend Hlen Hbig.
  destruct s as [p fk f pk ch sec hc sc d no rm q nd].
  destruct p as [pid px pp pst pw pv pg ppa].
  cbn in Hvar, Hpend. subst pv pp.
  unfold _parseLength, bind, get.
  cbn [parser _pending].
  unfold MAX_PENDING_SIZE in Hbig.
  destruct enc as [| b1 [| b2 [| b3 [| b4 enc]]]]; cbn [app length] in *;
    try lia;
    cbn [terminated] in Hterm;
    repeat match type of Hterm with
           | (_ && _) = true =>
               let H1 := fresh "Hc" in
               apply andb_prop in Hterm; destruct Hterm as [H1 Hterm];
               apply Z.leb_le in H1
           end.
  - discriminate.
  - pose proof (rest_range b1). cbn [leb128_value] in Hbig. lia.
  - pose proof (rest_range b1). pose proof (rest_range b2).
    cbn [leb128_value] in Hbig. lia.
  - pose proof (rest_range b1). pose proof (rest_range b2).
    pose proof (rest_range b3).
    length_step. continuation b1.
    length_step. continuation b2.
    length_step. rewrite Hterm.
    spelled.
    rewrite !group0 by lia. rewrite !group1 by lia.
    rewrite !group2 by lia.
    replace (leb128_value [b1; b2; b3])
      with (byte_val b1 mod 128 + 128 * (byte_val b2 mod 128) +
            16384 * (byte_val b3 mod 128)) in *
      by (cbn [leb128_value]; lia).
    rewrite js_ushr0_small by lia.
    replace (MAX_PENDING_SIZE <? _) with true
      by (symmetry; apply Z.ltb_lt; unfold MAX_PENDING_SIZE; lia).
    reflexivity.
Qed.

Lemma _parseLength_overflow (s : Stream) (enc rest : bytes) :
  continued (firstn 3 enc) = true ->
  (4 <= length enc)%nat ->
  _varint (parser s) = {| varint_value := 0; varint_shift := 0 |} ->
  _pending (parser s) = enc ++ rest ->
  _parseLength s =
  (overflowed (firstn 4 enc) (skipn 4 enc ++ rest) s, Throw E_VARINT).
Proof.
  intros Hcont Hlen Hvar Hpend.
  destruct s as [p fk f pk ch sec hc sc d no rm q nd].
  destruct p as [pid px pp pst pw pv pg ppa].
  cbn in Hvar, Hpend. subst pv pp.
  unfold _parseLength, bind, get.
  cbn [parser _pending].
  destruct enc as [| b1 [| b2 [| b3 [| b4 enc]]]]; cbn [app length] in *;
    try lia.
  cbn [firstn continued forallb] in Hcont.
  apply andb_prop in Hcont. destruct Hcont as [H1 Hcont].
  apply andb_prop in Hcont. destruct Hcont as [H2 Hcont].
  apply andb_prop in Hcont. destruct Hcont as [H3 _].
  apply Z.leb_le in H1, H2, H3.
  pose proof (rest_range b1). pose proof (rest_range b2).
  pose proof (rest_range b3). pose proof (rest_range b4).
  length_step. continuation b1.
  length_step. continuation b2.
  length_step. continuation b3.
  length_step.
  cbn [firstn skipn]. spelled.
  rewrite !group0 by lia. rewrite !group1 by lia.
  rewrite !group2 by lia. rewrite !group3 by lia.
  replace (leb128_value [b1; b2; b3; b4])
    with (byte_val b1 mod 128 + 128 * (byte_val b2 mod 128) +
          16384 * (byte_val b3 mod 128) + 2097152 * (byte_val b4 mod 128))
    by (cbn [leb128_value]; lia).
  reflexivity.
Qed.

(** C3 (as the code has it).  From a cleared [_varint], [_parseLength]
    reads a terminated encoding of one to three bytes to its LEB128 value
    and moves to the body state, unless that value exceeds
    [MAX_PENDING_SIZE], which throws "Message length is too big" once the
    body state is set.  When the first three bytes are continuation
    bytes, as in every encoding of four bytes or more, it throws "varint
    doesn't fit into 32-bit value" as soon as it has read the fourth
    byte, whether that byte ends the encoding or not: nothing behind the
    fourth byte is read, and the state and [_waiting] are untouched. *)
Theorem parseLength_varint (s : Stream) (enc rest : bytes) :
  _varint (parser s) = {| varint_value := 0; varint_shift := 0 |} ->
  _pending (parser s) = enc ++ rest ->
  (terminated enc = true -> (length enc <= 3)%nat ->
   _parseLength s =
   if leb128_value enc <=? MAX_PENDING_SIZE
   then (accepted (leb128_value enc) rest s, Ok true)
   else (oversized enc rest s, Throw E_LENGTH)) /\
  (terminated enc = true \/ continued (firstn 3 enc) = true ->
   (4 <= length enc)%nat ->
   _parseLength s =
   (overflowed (firstn 4 enc) (skipn 4 enc ++ rest) s, Throw E_VARINT)).
Proof.
  intros Hvarint Hpending. split.
  - intros Hterm Hlen.
    pose proof (proj1 (_parseLength_by_length s enc rest Hterm Hvarint
                         Hpending) Hlen) as Hsmall.
    destruct (leb128_value enc <=? MAX_PENDING_SIZE) eqn:Hle.
    + exact Hsmall.
    + apply _parseLength_too_big; try assumption.
      apply Z.leb_gt in Hle. exact Hle.
  - intros Hcase Hlen.
    apply _parseLength_overflow; try assumption.
    destruct Hcase as [Hterm | Hcont]; [| exact Hcont].
    apply terminated_continued; assumption.
Qed.

(** A parser waiting for a frame length, with [buffered] in
    [this._pending]. *)
Definition awaiting_length (buffered : bytes) : Stream :=
  upd_parser (fun p =>
    set__pending buffered (set__waiting (Fin 1) (set__state msg_length p)))
    (new_Stream (repeat x00 32)).

Lemma parseLength_varint_witness :
  _parseLength (awaiting_length [xac; x02; x0a]) =
    (accepted 300 [x0a] (awaiting_length [xac; x02; x0a]), Ok true) /\
  _parseLength (awaiting_length [x81; x80; x80; x80; x80; x00; x0a]) =
    (overflowed [x81; x80; x80; x80] [x80; x00; x0a]
       (awaiting_length [x81; x80; x80; x80; x80; x00; x0a]),
     Throw E_VARINT).
Proof.
  split.
  - apply (proj1 (parseLength_varint (awaiting_length [xac; x02; x0a])
                    [xac; x02] [x0a] eq_refl eq_refl));
      [reflexivity | cbn [length]; lia].
  - apply (proj2 (parseLength_varint
                    (awaiting_length [x81; x80; x80; x80; x80; x00; x0a])
                    [x81; x80; x80; x80; x80; x00] [x0a] eq_refl eq_refl));
      [right; reflexivity | cbn [length]; lia].
Defined.

(** C3, as stated, fails: [81 80 80 00] is a terminated four-byte
    encoding of 1, and the parser throws on it. *)
Lemma parseLength_four_bytes_overflow :
  terminated [x81; x80; x80; x00] = true /\
  leb128_value [x81; x80; x80; x00] = 1 /\
  snd (_parseLength (awaiting_length [x81; x80; x80; x00])) = Throw E_VARINT.
Proof.
  split; [reflexivity |]. split; [reflexivity |]. vm_compute. reflexivity.
Qed.

(** ** Properties kept by every method

    [preserves P m]: [P] holds of the object after [m], whether [m]
    returns or throws. *)

Definition preserves {A} (P : Stream -> Prop) (m : M A) : Prop :=
  forall s, P s -> P (fst (m s)).

Lemma preserves_ret {A} (P : Stream -> Prop) (a : A) : preserves P (ret a).
Proof. intros s Hs. exact Hs. Qed.

Lemma preserves_throw {A} (P : Stream -> Prop) (e : Exn) :
  preserves P (@throw A e).
Proof. intros s Hs. exact Hs. Qed.

Lemma preserves_get {A} (P : Stream -> Prop) (f : Stream -> A) :
  preserves P (get f).
Proof. intros s Hs. exact Hs. Qed.

Lemma preserves_modify (P : Stream -> Prop) (f : Stream -> Stream) :
  (forall s, P s -> P (f s)) -> preserves P (modify f).
Proof. intros Hf s Hs. apply Hf. exact Hs. Qed.

Lemma preserves_bind {A B} (P : Stream -> Prop) (m : M A) (k : A -> M B) :
  preserves P m -> (forall a, preserves P (k a)) -> preserves P (bind m k).
Proof.
  intros Hm Hk s Hs. unfold bind.
  specialize (Hm s Hs).
  destruct (m s) as [s' [a | e]]; cbn in *.
  - apply Hk. exact Hm.
  - exact Hm.
Qed.

Lemma preserves_throw_bind {A B} (P : Stream -> Prop) (e : Exn)
  (k : A -> M B) : preserves P (bind (throw e) k).
Proof. intros s Hs. exact Hs. Qed.

Lemma preserves_deref {A} (P : Stream -> Prop) (o : option A) what :
  preserves P (deref o what).
Proof. destruct o; [apply preserves_ret | apply preserves_throw]. Qed.

Lemma preserves_assert (P : Stream -> Prop) (b : bool) message :
  preserves P (assert b message).
Proof. destruct b; [apply preserves_ret | apply preserves_throw]. Qed.

Create HintDb kept.

#[export] Hint Resolve preserves_ret preserves_throw preserves_get
  preserves_deref preserves_assert : kept.

(** Splits a method into its statements; what is left is a field update
    or a call of a method already dealt with. *)
Ltac kept_step :=
  match goal with
  | |- preserves _ (bind (throw _) _) => apply preserves_throw_bind
  | |- preserves _ (bind _ _) => apply preserves_bind; [| intros ?]
  | |- preserves _ (modify _) => apply preserves_modify
  | |- preserves _ (if ?b then _ else _) => destruct b
  | |- preserves _ (match ?o with _ => _ end) => destruct o
  | |- preserves _ _ => solve [auto with kept]
  end.

Ltac kept := repeat kept_step.

(** [m] keeps [P] and, when it returns, has established [Q]. *)
Definition establishes {A} (P Q : Stream -> Prop) (m : M A) : Prop :=
  forall s, P s ->
    match m s with
    | (s', Ok _) => Q s'
    | (s', Throw _) => P s'
    end.

Lemma establishes_bind {A B} (P Q : Stream -> Prop) (m : M A)
  (k : A -> M B) :
  preserves P m -> (forall a, establishes P Q (k a)) ->
  establishes P Q (bind m k).
Proof.
  intros Hm Hk s Hs. unfold bind.
  specialize (Hm s Hs).
  destruct (m s) as [s' [a | e]]; cbn in *.
  - apply Hk. exact Hm.
  - exact Hm.
Qed.

Lemma establishes_then {A B} (P Q : Stream -> Prop) (m : M A)
  (k : A -> M B) :
  (forall s, Q s -> P s) ->
  establishes P Q m -> (forall a, preserves Q (k a)) ->
  establishes P Q (bind m k).
Proof.
  intros HQP Hm Hk s Hs. unfold bind.
  specialize (Hm s Hs).
  destruct (m s) as [s' [a | e]]; [| exact Hm].
  specialize (Hk a s' Hm).
  destruct (k a s') as [s'' [b | e]]; cbn in *; auto.
Qed.

Lemma establishes_preserves {A} (P Q : Stream -> Prop) (m : M A) :
  (forall s, Q s -> P s) -> establishes P Q m -> preserves P m.
Proof.
  intros HQP Hm s Hs. specialize (Hm s Hs).
  destruct (m s) as [s' [a | e]]; cbn; auto.
Qed.

(** *** The properties

    The chain never exceeds [MAX_CHAIN_LENGTH]; the message types that
    passed the order checks of [_parse] are a [Handshake] followed by
    messages that are not; and the first frame handed to [_send] is the
    [Handshake], which has been handed over before the session is secure
    and before the parser leaves its pause. *)

Definition chain_ok (s : Stream) : Prop :=
  match chain s with
  | Some c => size c <= MAX_CHAIN_LENGTH
  | None => True
  end.

Definition one_handshake_first (types : list MsgType) : Prop :=
  match types with
  | [] => True
  | t :: types' => t = Thandshake /\ ~ In Thandshake types'
  end.

Definition order_ok (s : Stream) : Prop :=
  one_handshake_first (debugged (node s)) /\
  (_gotHandshake (parser s) = false <-> debugged (node s) = []).

Definition handshake_sent_first (frames : list (Z * Z)) : Prop :=
  match frames with
  | [] => True
  | (id, _) :: _ => id = messages.id.HANDSHAKE
  end.

Definition messaging (st : State) : bool :=
  match st with
  | msg_length | msg_body => true
  | _ => false
  end.

Definition sent_ok (s : Stream) : Prop :=
  handshake_sent_first (sent (node s)) /\
  (secure s = true -> sent (node s) <> []) /\
  (messaging (_state (parser s)) = true -> sent (node s) <> []) /\
  (_state (parser s) = paused -> _waiting (parser s) = Infinity).

(** [after] says that the [Handshake] is known to have been handed to
    [_send] already. *)
Definition Inv (after : bool) (s : Stream) : Prop :=
  chain_ok s /\ order_ok s /\ sent_ok s /\
  (after = true -> sent (node s) <> []).

Lemma Inv_weaken (after : bool) (s : Stream) : Inv true s -> Inv after s.
Proof.
  intros (Hchain & Horder & Hsent & Hafter).
  exact (conj Hchain (conj Horder (conj Hsent (fun _ => Hafter eq_refl)))).
Qed.

Lemma Inv_after (after : bool) (s : Stream) :
  Inv after s -> sent (node s) <> [] -> Inv true s.
Proof.
  intros (Hchain & Horder & Hsent & Hafter) Hne.
  exact (conj Hchain (conj Horder (conj Hsent (fun _ => Hne)))).
Qed.

(** A field update that touches none of the fields the properties speak
    of. *)
Ltac kept_update :=
  let s := fresh "s" in
  let Hs := fresh "Hs" in
  intros s Hs; exact Hs.

Ltac kept_method := kept; try kept_update.

Section Kept.

Context `{Env}.

Lemma push_kept b buf : preserves (Inv b) (push buf).
Proof. unfold push. kept_method. Qed.

Lemma emit_kept b e : preserves (Inv b) (emit e).
Proof. unfold emit. kept_method. Qed.

Lemma process_nextTick_kept b t : preserves (Inv b) (process_nextTick t).
Proof. unfold process_nextTick. kept_method. Qed.

Lemma call_kept b cb err : preserves (Inv b) (call cb err).
Proof. unfold call. kept_method. Qed.

Hint Resolve push_kept emit_kept process_nextTick_kept call_kept : kept.

Lemma Type_encodingLength_kept b content :
  preserves (Inv b) (Type_encodingLength content).
Proof. unfold Type_encodingLength. kept_method. Qed.

Hint Resolve Type_encodingLength_kept : kept.

Lemma _open_kept b nonce : preserves (Inv b) (_open nonce).
Proof. unfold _open. kept_method. Qed.

(** Reporting a frame: fine for a [Handshake], and for anything once a
    [Handshake] has been reported. *)
Lemma debug_send_after b id msgLen s :
  Inv b s -> b = true \/ id = messages.id.HANDSHAKE ->
  Inv true (fst (debug_send id msgLen s)).
Proof.
  intros (Hchain & Horder & (Hfirst & Hsecure & Hmsg & Hpaused) & Hafter)
         Hcase.
  assert (Hne : sent (node s) ++ [(id, msgLen)] <> []).
  { intros Heq. apply app_eq_nil in Heq. destruct Heq. discriminate. }
  split; [exact Hchain |]. split; [exact Horder |].
  split; [| intros _; exact Hne].
  split; [| split; [intros _; exact Hne |
                    split; [intros _; exact Hne | exact Hpaused]]].
  cbn. destruct (sent (node s)) as [| [id0 n0] frames]; cbn.
  - destruct Hcase as [-> | ->]; [| reflexivity].
    exfalso. apply Hafter; reflexivity.
  - exact Hfirst.
Qed.

Lemma _send_after b id content callback :
  b = true \/ id = messages.id.HANDSHAKE ->
  establishes (Inv b) (Inv true) (_send id content callback).
Proof.
  intros Hcase. unfold _send.
  apply establishes_bind; [kept |]; intros msgLen.
  apply establishes_then; [apply Inv_weaken | |].
  - intros s Hs. cbn. exact (debug_send_after b id msgLen s Hs Hcase).
  - intros _. kept_method.
Qed.

Lemma _send_kept b id content callback :
  b = true \/ id = messages.id.HANDSHAKE ->
  preserves (Inv b) (_send id content callback).
Proof.
  intros Hcase.
  exact (establishes_preserves (Inv b) (Inv true) _ (Inv_weaken b)
           (_send_after b id content callback Hcase)).
Qed.

Lemma _handshake_after b remoteNonce :
  establishes (Inv b) (Inv true) (_handshake remoteNonce).
Proof.
  unfold _handshake.
  do 3 (apply establishes_bind; [kept |]; intros ?).
  apply _send_after. right. reflexivity.
Qed.

Lemma _onOpen_kept b open : preserves (Inv b) (_onOpen open).
Proof. unfold _onOpen, _onStart. kept_method. Qed.

(** A send after [secure]: the [Handshake] has been sent by then. *)
Lemma _secureSend_kept b id content callback :
  preserves (Inv b) (_secureSend id content callback).
Proof.
  unfold _secureSend.
  apply preserves_bind; [kept |]; intros _.
  intros s Hs. unfold bind at 1, get at 1.
  destruct (secure s) eqn:Hsecure; cbn [negb].
  - apply Inv_weaken. apply _send_kept; [left; reflexivity |].
    apply (Inv_after b); [exact Hs |].
    destruct Hs as (_ & _ & (_ & Hsec & _) & _). apply Hsec. exact Hsecure.
  - revert s Hs Hsecure. 
    assert (Hq : preserves (Inv b)
      (q <- (q <- get _queue ;; deref q "this._queue") ;;
       modify (set__queue (Some (q ++ [{| q_id := id; q_content := content;
                                          q_callback := callback |}])))))
      by kept_method.
    intros s Hs _. apply Hq. exact Hs.
Qed.

Hint Resolve _open_kept _onOpen_kept _secureSend_kept : kept.

Lemma forEach_queue_kept b queue : preserves (Inv b) (forEach_queue queue).
Proof.
  induction queue as [| q queue IH]; cbn [forEach_queue]; kept_method.
Qed.

Lemma chain_verify_kept b chain hash signature :
  preserves (Inv b) (chain_verify chain hash signature).
Proof. unfold chain_verify. kept_method. Qed.

Hint Resolve forEach_queue_kept chain_verify_kept : kept.

Lemma secure_after s : Inv true s -> Inv true (set_secure true s).
Proof.
  intros (Hchain & Horder & (Hfirst & Hsecure & Hmsg & Hpaused) & Hafter).
  split; [exact Hchain |]. split; [exact Horder |]. split; [| exact Hafter].
  split; [exact Hfirst |].
  split; [intros _; apply Hafter; reflexivity | split; assumption].
Qed.

Lemma _onHandshake_kept body : preserves (Inv true) (_onHandshake body).
Proof.
  unfold _onHandshake. kept; try kept_update.
  exact secure_after.
Qed.

(** [_onLink] replaces the chain only by one that is shorter than the
    current one. *)
Lemma _onLink_shortens body s :
  chain (fst (_onLink body s)) = chain s \/
  exists local remote,
    chain s = Some local /\
    remote_chain (_remote s) = Some remote /\
    chain (fst (_onLink body s)) = Some (remote ++ [link_link body]) /\
    size (remote ++ [link_link body]) < size local.
Proof.
  unfold _onLink, chain_verify, emit.
  unfold bind, get, deref, ret, throw, modify.
  destruct (chain s) as [local |] eqn:Hlocal; cbn; [| left; exact Hlocal].
  destruct (remote_chain (_remote s)) as [remote |] eqn:Hremote; cbn;
    [| left; exact Hlocal].
  destruct (size local - 1 <=? size remote) eqn:Hguard; cbn;
    [left; exact Hlocal |].
  destruct (privateKey s); cbn; [| left; exact Hlocal].
  destruct (_hyperchain s); cbn; [| left; exact Hlocal].
  destruct (hyperchain_verify _ _ _ _); cbn; [| left; exact Hlocal].
  right. exists local, remote.
  repeat split; try reflexivity.
  apply Z.leb_gt in Hguard. unfold size in *.
  rewrite length_app. cbn [length]. lia.
Qed.

Lemma _onLink_chain_ok body s : chain_ok s -> chain_ok (fst (_onLink body s)).
Proof.
  intros Hs. unfold chain_ok in *.
  destruct (_onLink_shortens body s)
    as [Hsame | (local & remote & Hlocal & _ & Hnew & Hlt)].
  - rewrite Hsame. exact Hs.
  - rewrite Hnew. rewrite Hlocal in Hs. lia.
Qed.

Lemma _onLink_kept b body : preserves (Inv b) (_onLink body).
Proof.
  intros s (Hchain & Hrest). split; [apply _onLink_chain_ok; exact Hchain |].
  assert (Hkept : preserves
            (fun s => order_ok s /\ sent_ok s /\
                      (b = true -> sent (node s) <> [])) (_onLink body)).
  { unfold _onLink, chain_verify, emit. kept_method. }
  apply Hkept. exact Hrest.
Qed.

Lemma _onData_kept b body : preserves (Inv b) (_onData body).
Proof. unfold _onData. kept_method. Qed.

Hint Resolve _onHandshake_kept _onLink_kept _onData_kept : kept.

(** The parser may enter a message state only after the [Handshake] has
    been sent, and pauses waiting for [Infinity]. *)
Lemma _setState_kept b state waiting :
  (messaging state = true -> b = true) ->
  (state = paused -> waiting = Infinity) ->
  preserves (Inv b) (_setState state waiting).
Proof.
  intros Hstate Hwaiting. unfold _setState. apply preserves_modify.
  intros s (Hchain & Horder & (Hfirst & Hsecure & Hmsg & Hpaused) & Hafter).
  split; [exact Hchain |]. split; [exact Horder |]. split; [| exact Hafter].
  split; [exact Hfirst |]. split; [exact Hsecure |].
  split; cbn.
  - intros Hm. apply Hafter, Hstate, Hm.
  - exact Hwaiting.
Qed.

Lemma _setState_open_length_kept b :
  preserves (Inv b) (_setState open_length (Fin 1)).
Proof. apply _setState_kept; discriminate. Qed.

Lemma _setState_paused_kept b :
  preserves (Inv b) (_setState paused Infinity).
Proof. apply _setState_kept; [discriminate | reflexivity]. Qed.

Lemma _setState_msg_length_kept :
  preserves (Inv true) (_setState msg_length (Fin 1)).
Proof. apply _setState_kept; [reflexivity | discriminate]. Qed.

Lemma take_kept b n : preserves (Inv b) (take n).
Proof. unfold take. kept_method. Qed.

Hint Resolve _setState_open_length_kept _setState_paused_kept
  _setState_msg_length_kept take_kept : kept.

Lemma _parseMagic_kept b : preserves (Inv b) _parseMagic.
Proof. unfold _parseMagic. kept_method. Qed.

Lemma length_parsed_kept b v s :
  Inv b s -> _state (parser s) = open_length \/ b = true ->
  Inv b (length_parsed v s).
Proof.
  intros (Hchain & Horder & (Hfirst & Hsecure & Hmsg & Hpaused) & Hafter)
         Hcase.
  split; [exact Hchain |]. split; [exact Horder |]. split; [| exact Hafter].
  split; [exact Hfirst |]. split; [exact Hsecure |].
  split; cbn.
  - destruct Hcase as [-> | ->]; [discriminate | intros _; auto].
  - destruct (_state (parser s)); discriminate.
Qed.

Lemma _parseLength_loop_kept b pending s :
  Inv b s -> _state (parser s) = open_length \/ b = true ->
  Inv b (fst (_parseLength_loop pending s)).
Proof.
  revert s. induction pending as [| byte pending IH]; intros s Hs Hcase.
  - exact Hs.
  - rewrite _parseLength_loop_step. cbn zeta.
    assert (Hs1 : Inv b (read_byte byte pending s)) by exact Hs.
    destruct (25 <=? _); [exact Hs1 |].
    destruct (byte_val byte <? 128).
    + destruct (MAX_PENDING_SIZE <? _); cbn [fst];
        apply (length_parsed_kept b _ (read_byte byte pending s) Hs1 Hcase).
    + apply IH; [exact Hs1 | exact Hcase].
Qed.

Lemma _parseOpen_kept b : preserves (Inv b) _parseOpen.
Proof. unfold _parseOpen, emit_open, decoded. kept_method. Qed.

Lemma dispatch_kept type payload :
  preserves (Inv true) (dispatch type payload).
Proof. unfold dispatch, decoded. kept_method. Qed.

Hint Resolve _parseMagic_kept _parseOpen_kept dispatch_kept : kept.

(** The state once a message of a known [type] has passed the order
    checks of [_parse]. *)
Definition passed (type : MsgType) (s : Stream) : Stream :=
  upd_parser (set__gotHandshake true)
    (upd_node (fun n => set_debugged (debugged n ++ [type]) n) s).

Lemma passed_first b s :
  Inv b s -> _gotHandshake (parser s) = false -> Inv b (passed Thandshake s).
Proof.
  intros (Hchain & [Hone Hgot] & Hsent & Hafter) Hfalse.
  split; [exact Hchain |]. split; [| split; assumption].
  apply Hgot in Hfalse.
  unfold order_ok, passed. cbn. rewrite Hfalse. cbn.
  split; [split; [reflexivity | tauto] | split; discriminate].
Qed.

Lemma passed_later b type s :
  Inv b s -> _gotHandshake (parser s) = true -> type <> Thandshake ->
  Inv b (passed type s).
Proof.
  intros (Hchain & [Hone Hgot] & Hsent & Hafter) Htrue Htype.
  split; [exact Hchain |]. split; [| split; assumption].
  unfold order_ok, passed. cbn.
  destruct (debugged (node s)) as [| t types] eqn:Hlog.
  - destruct Hgot as [_ Hgot]. rewrite Hgot in Htrue by reflexivity.
    discriminate.
  - cbn in *. destruct Hone as [-> Hnot].
    split; [split; [reflexivity |] | split; discriminate].
    rewrite in_app_iff. cbn. intuition congruence.
Qed.

Lemma _parse_body_kept : preserves (Inv true) _parse_body.
Proof.
  unfold _parse_body.
  apply preserves_bind; [kept |]; intros w.
  apply preserves_bind; [kept |]; intros msg.
  apply preserves_bind; [kept |]; intros _.
  destruct (varint_decode msg) as [[id offset] |]; [| kept].
  destruct (type_of_id id) as [type |]; [| kept].
  intros s Hs. unfold bind at 1, get at 1.
  destruct (_gotHandshake (parser s)) eqn:Hgot; destruct type;
    cbn [negb andb MsgType_eqb]; try exact Hs;
    match goal with
    | |- Inv true (fst (bind (debug ?t) _ s)) =>
        change (Inv true (fst (bind (dispatch t (skipn offset msg))
                                    (fun _ => ret true) (passed t s))))
    end;
    (apply preserves_bind; [kept | intros; kept |]);
    first [ apply passed_first; assumption
          | apply passed_later; [assumption | assumption | discriminate] ].
Qed.

(** While paused the parser waits for [Infinity] bytes and takes
    nothing. *)
Lemma _parse_body_paused s :
  _waiting (parser s) = Infinity -> fst (_parse_body s) = s.
Proof.
  intros Hwaiting. unfold _parse_body, bind, get, take. rewrite Hwaiting.
  reflexivity.
Qed.

Lemma _parse_kept b : preserves (Inv b) _parse.
Proof.
  intros s Hs. unfold _parse, bind at 1, get at 1.
  assert (Hafter : messaging (_state (parser s)) = true -> Inv true s).
  { intros Hm. apply (Inv_after b); [exact Hs |].
    destruct Hs as (_ & _ & (_ & _ & Hmsg & _) & _). apply Hmsg, Hm. }
  destruct (_state (parser s)) eqn:Hstate.
  - apply _parseMagic_kept. exact Hs.
  - apply _parseLength_loop_kept; [exact Hs | left; exact Hstate].
  - apply _parseOpen_kept. exact Hs.
  - rewrite _parse_body_paused; [exact Hs |].
    destruct Hs as (_ & _ & (_ & _ & _ & Hpaused) & _).
    apply Hpaused, Hstate.
  - apply Inv_weaken.
    apply _parseLength_loop_kept; [apply Hafter; reflexivity | right; reflexivity].
  - apply Inv_weaken. apply _parse_body_kept. apply Hafter. reflexivity.
Qed.

Lemma _process_loop_kept b turns : preserves (Inv b) (_process_loop turns).
Proof.
  induction turns as [| turns IH]; intros s Hs; cbn [_process_loop].
  - exact Hs.
  - destruct (geb_num _ _); [| exact Hs].
    pose proof (_parse_kept b s Hs) as Hparse.
    destruct (_parse s) as [s' [[|] | e]]; cbn in *.
    + apply IH. exact Hparse.
    + exact Hparse.
    + exact Hparse.
Qed.

Hint Resolve _parse_kept _process_loop_kept : kept.

Lemma _process_kept b cb : preserves (Inv b) (_process cb).
Proof. unfold _process. kept_method. Qed.

Hint Resolve _process_kept : kept.

Lemma _write_kept b chunk cb : preserves (Inv b) (_write chunk cb).
Proof. unfold _write. kept_method. Qed.

Lemma _resumeParsing_kept : preserves (Inv true) _resumeParsing.
Proof. unfold _resumeParsing. kept_method. Qed.

(** The closure of [_onOpen] sends the [Handshake] and only then lets
    the parser go on. *)
Lemma _onOpen_callback_kept b open : preserves (Inv b) (_onOpen_callback open).
Proof.
  unfold _onOpen_callback.
  apply preserves_bind; [kept |]; intros feed.
  destruct (negb _); [kept |].
  do 5 (apply preserves_bind; [kept_method |]; intros ?).
  apply (establishes_preserves (Inv b) (Inv true)); [apply Inv_weaken |].
  apply establishes_then; [apply Inv_weaken | apply _handshake_after |].
  intros _. apply _resumeParsing_kept.
Qed.

(** [start] stores the chain only after it has checked its length. *)
Lemma start_kept b options nonce : preserves (Inv b) (start options nonce).
Proof.
  unfold start.
  do 7 (apply preserves_bind; [kept |]; intros ?).
  apply preserves_bind; [kept |]; intros links.
  destruct (size links <=? MAX_CHAIN_LENGTH) eqn:Hlen; cbn [assert];
    [| kept].
  apply Z.leb_le in Hlen.
  kept; try kept_update.
  intros s (Hchain & Hrest). split; [exact Hlen | exact Hrest].
Qed.

Lemma destroy_kept b : preserves (Inv b) destroy.
Proof. unfold destroy. kept_method. Qed.

Hint Resolve _write_kept _onOpen_callback_kept start_kept destroy_kept : kept.

Lemma api_kept b c : preserves (Inv b) (api c).
Proof.
  destruct c; cbn [api];
    unfold sync, filterOptions, data, request; kept_method.
Qed.

Lemma step_kept b a : preserves (Inv b) (step a).
Proof.
  destruct a; cbn [step]; [kept | apply api_kept |].
  unfold run_task. kept_method.
Qed.

Lemma new_Stream_Inv id : Inv false (new_Stream id).
Proof.
  split; [exact I |]. split; [| split].
  - split; [exact I | split; reflexivity].
  - repeat split; discriminate.
  - discriminate.
Qed.

(** The properties hold whatever happens to a session. *)
Lemma run_Inv b actions s : Inv b s -> Inv b (run actions s).
Proof.
  revert s. induction actions as [| a actions IH]; intros s Hs; cbn [run].
  - exact Hs.
  - apply IH. apply step_kept. exact Hs.
Qed.

End Kept.

(** ** Message bodies *)

Lemma take_front (msg rest : bytes) (s : Stream) :
  _pending (parser s) = msg ++ rest ->
  take (Fin (size msg)) s = (upd_parser (set__pending rest) s, Ok msg).
Proof.
  intros Hpending. unfold take, bind, get. rewrite Hpending.
  assert (Hsize : (size (msg ++ rest) <? size msg) = false).
  { apply Z.ltb_ge. unfold size. rewrite length_app. lia. }
  rewrite Hsize. unfold size. rewrite Nat2Z.id.
  unfold modify, ret.
  rewrite firstn_app, Nat.sub_diag, firstn_all, app_nil_r.
  rewrite skipn_app, Nat.sub_diag, skipn_all. reflexivity.
Qed.

(** The parser once the body of a frame has been taken: back to waiting
    for a length, [rest] still buffered. *)
Definition taken (rest : bytes) (s : Stream) : Stream :=
  upd_parser (fun p =>
    set__waiting (Fin 1) (set__state msg_length (set__pending rest p))) s.

Section Bodies.

Context `{Env}.

(** [_parse] on a buffered frame body [msg], spelled out. *)
Lemma _parse_body_eq (s : Stream) (msg rest : bytes) :
  _state (parser s) = msg_body ->
  _waiting (parser s) = Fin (size msg) ->
  _pending (parser s) = msg ++ rest ->
  _parse s =
  match varint_decode msg with
  | None => (taken rest s, Throw (RangeError "Could not decode varint"))
  | Some (id, offset) =>
      match type_of_id id with
      | None => (taken rest s, Ok true)
      | Some type =>
          if negb (_gotHandshake (parser s)) &&
             negb (MsgType_eqb type Thandshake)
          then (taken rest s, Throw E_HANDSHAKE_FIRST)
          else if _gotHandshake (parser s) && MsgType_eqb type Thandshake
          then (taken rest s, Throw E_HANDSHAKE_ONCE)
          else (dispatch type (skipn offset msg) ;; ret true)
                 (passed type (taken rest s))
      end
  end.
Proof.
  intros Hstate Hwaiting Hpending.
  unfold _parse. unfold bind at 1, get at 1. rewrite Hstate.
  unfold _parse_body. unfold bind at 1, get at 1. rewrite Hwaiting.
  unfold bind at 1. rewrite (take_front msg rest s Hpending).
  unfold bind at 1. unfold _setState at 1, modify at 1.
  change (upd_parser _ (upd_parser (set__pending rest) s))
    with (taken rest s).
  destruct (varint_decode msg) as [[id offset] |]; [| reflexivity].
  destruct (type_of_id id) as [type |]; [| reflexivity].
  unfold bind at 1, get at 1.
  change (_gotHandshake (parser (taken rest s)))
    with (_gotHandshake (parser s)).
  destruct (negb _ && negb _); [reflexivity |].
  destruct (_ && _); reflexivity.
Qed.

(** C10.  A frame whose id is none of 0..5 is consumed and nothing else
    happens: no exception, no event, no callback, and [_gotHandshake]
    stays as it was, before the [Handshake] as well as after it. *)
Theorem unknown_id_ignored (s : Stream) (msg rest : bytes) (id : Z)
  (offset : nat) :
  _state (parser s) = msg_body ->
  _waiting (parser s) = Fin (size msg) ->
  _pending (parser s) = msg ++ rest ->
  varint_decode msg = Some (id, offset) ->
  id < 0 \/ 5 < id ->
  _parse s = (taken rest s, Ok true) /\
  node (taken rest s) = node s /\
  _gotHandshake (parser (taken rest s)) = _gotHandshake (parser s).
Proof.
  intros Hstate Hwaiting Hpending Hid Hrange.
  split; [| split; reflexivity].
  rewrite (_parse_body_eq s msg rest Hstate Hwaiting Hpending), Hid.
  assert (Hnone : type_of_id id = None).
  { unfold type_of_id, messages.id.HANDSHAKE, messages.id.SYNC,
      messages.id.FILTER_OPTIONS, messages.id.DATA, messages.id.REQUEST,
      messages.id.LINK.
    repeat match goal with
           | |- context [id =? ?k] =>
               replace (id =? k) with false by (symmetry; apply Z.eqb_neq; lia)
           end.
    reflexivity. }
  rewrite Hnone. reflexivity.
Qed.

(** [_process] around a [_parse] that throws at once: the loop catches
    the exception and hands it to the callback of the write. *)
Lemma _process_caught (s s' : Stream) (msg rest : bytes) (e : Exn)
  (n : nat) :
  _waiting (parser s) = Fin (size msg) ->
  _pending (parser s) = msg ++ rest ->
  _parse s = (s', Throw e) ->
  _process (WriteCb n) s =
  (upd_node (fun nd => set_called (called nd ++ [(WriteCb n, Some e)]) nd)
     s', Ok tt).
Proof.
  intros Hwaiting Hpending Hparse.
  unfold _process, bind, get. cbn [_process_loop].
  rewrite Hwaiting, Hpending. cbn [geb_num].
  replace (size msg <=? size (msg ++ rest)) with true
    by (symmetry; apply Z.leb_le; unfold size; rewrite length_app; lia).
  rewrite Hparse. reflexivity.
Qed.


(** C8.  The chain of a session never has more than [MAX_CHAIN_LENGTH]
    links: [start] throws before it touches the session when it is given
    more, and [_onLink] keeps the bound. *)
Theorem chain_length_bounded :
  (forall (id : bytes) (actions : list Action),
     chain_ok (run actions (new_Stream id))) /\
  (forall (options : StartOptions) (nonce : bytes) (s : Stream)
          (feedKey privateKey : bytes) (links : list bytes),
     opt_feedKey options = Some feedKey ->
     size feedKey = PUBLIC_KEY_SIZE ->
     opt_privateKey options = Some privateKey ->
     size privateKey = PRIVATE_KEY_SIZE ->
     opt_chain options = Some links ->
     MAX_CHAIN_LENGTH < size links ->
     start options nonce s = (s, Throw E_CHAIN_LENGTH)) /\
  (forall (body : Link) (s : Stream),
     chain_ok s -> chain_ok (fst (_onLink body s))).
Proof.
  split; [| split].
  - intros id actions.
    exact (proj1 (run_Inv false actions _ (new_Stream_Inv id))).
  - intros options nonce s fk sk links Hfk Hfksize Hsk Hsksize Hlinks Hlong.
    unfold start. rewrite Hfk, Hsk, Hlinks. cbn [is_some assert deref].
    apply Z.eqb_eq in Hfksize, Hsksize. apply Z.ltb_lt in Hlong.
    unfold bind, ret. rewrite Hfksize, Hsksize.
    rewrite Z.leb_antisym, Hlong. reflexivity.
  - intros body s Hs. apply _onLink_chain_ok. exact Hs.
Qed.

(** C2 (what the code does).  Whatever its [values], a [Data] message
    that arrives after the [Handshake] and decodes is handed to
    [Parser.prototype._onData], which throws "Should not be called"; no
    event is emitted. *)
Theorem data_message_throws (s : Stream) (msg rest : bytes) (offset : nat)
  (body : Data) :
  _state (parser s) = msg_body ->
  _waiting (parser s) = Fin (size msg) ->
  _pending (parser s) = msg ++ rest ->
  varint_decode msg = Some (messages.id.DATA, offset) ->
  _gotHandshake (parser s) = true ->
  pb_decode_Data (skipn offset msg) = Some body ->
  _parse s = (passed Tdata (taken rest s), Throw E_NOT_CALLED) /\
  emitted (node (passed Tdata (taken rest s))) = emitted (node s).
Proof.
  intros Hstate Hwaiting Hpending Hid Hgot Hbody.
  split; [| reflexivity].
  rewrite (_parse_body_eq s msg rest Hstate Hwaiting Hpending), Hid.
  cbn [type_of_id Z.eqb messages.id.DATA messages.id.HANDSHAKE
       messages.id.SYNC messages.id.FILTER_OPTIONS Pos.eqb].
  rewrite Hgot. cbn [negb andb MsgType_eqb].
  unfold dispatch, decoded, _onData, bind, throw, ret.
  rewrite Hbody. reflexivity.
Qed.

End Bodies.

(** ** The secure transition *)

Section Secure.

Context `{Env}.

(** Frames as they reach the wire: each is XORed with the keystream where
    the previous one left it. *)
Fixpoint seal (x : XorInstance) (frames : list bytes) : list bytes :=
  match frames with
  | [] => []
  | f :: frames' =>
      fst (xor_update x f) :: seal (snd (xor_update x f)) frames'
  end.

Definition advance (x : XorInstance) (frames : list bytes) : XorInstance :=
  fold_left (fun x f => snd (xor_update x f)) frames x.

Lemma seal_app x frames frames' :
  seal x (frames ++ frames') =
  seal x frames ++ seal (advance x frames) frames'.
Proof.
  revert x. induction frames as [| f frames IH]; intros x; cbn.
  - reflexivity.
  - rewrite IH. reflexivity.
Qed.

(** What [_send] reports for a frame. *)
Definition report (id : Z) (content : Body) : Z * Z :=
  (id, size (pb_encode content)).

(** The session after [_send] has sent a frame with the keystream at
    [x]. *)
Definition sent_frame (id : Z) (content : Body)
  (callback : option Callback) (x : XorInstance) (s : Stream) : Stream :=
  upd_node (fun n =>
    set_nextTick
      (nextTick n ++
       match callback with
       | Some cb => [TSendCallback cb]
       | None => []
       end)
      (set_pushed (pushed n ++ [fst (xor_update x (frame id content))])
        (set_sent (sent n ++ [report id content]) n)))
    (upd_parser (fun p =>
       set__xor {| xor_self := Some (snd (xor_update x (frame id content)));
                   xor_remote := xor_remote (_xor p) |} p) s).

Lemma _send_ok id content callback x s :
  xor_self (_xor (parser s)) = Some x ->
  required_present content = true ->
  _send id content callback s = (sent_frame id content callback x s, Ok tt).
Proof.
  intros Hx Hreq.
  unfold _send, Type_encodingLength, encodingLength. rewrite Hreq.
  unfold bind, ret, get, debug_send, deref, push, process_nextTick, modify.
  cbn [node parser upd_node upd_parser set_node set_parser _xor xor_self].
  rewrite Hx. unfold ret, sent_frame, report, xor_update. cbn [fst snd].
  destruct s as [p fk f pk ch sec hc sc d no rm q nd]. destruct nd.
  destruct callback as [cb |]; unfold upd_node, upd_parser; simpl;
    rewrite ?app_nil_r; reflexivity.
Qed.

Lemma _secureSend_secure id content callback x s :
  secure s = true ->
  xor_self (_xor (parser s)) = Some x ->
  required_present content = true ->
  _secureSend id content callback s =
  (sent_frame id content callback x s, Ok tt).
Proof.
  intros Hsecure Hx Hreq.
  unfold _secureSend, Type_encodingLength, encodingLength. rewrite Hreq.
  unfold bind at 1, ret at 1. unfold bind at 1, get at 1. rewrite Hsecure.
  cbn [negb]. apply _send_ok; assumption.
Qed.

(** Before [secure] a send joins the end of the queue. *)
Lemma _secureSend_queued id content callback queue s :
  secure s = false ->
  _queue s = Some queue ->
  required_present content = true ->
  _secureSend id content callback s =
  (set__queue (Some (queue ++ [{| q_id := id; q_content := content;
                                  q_callback := callback |}])) s, Ok tt).
Proof.
  intros Hsecure Hqueue Hreq.
  unfold _secureSend, Type_encodingLength, encodingLength. rewrite Hreq.
  unfold bind, ret, get, modify. rewrite Hsecure. cbn [negb].
  rewrite Hqueue. reflexivity.
Qed.

Definition queued_frame (q : Queued) : bytes := frame (q_id q) (q_content q).

Definition queued_report (q : Queued) : Z * Z :=
  report (q_id q) (q_content q).

(** The session after the queue has been drained. *)
Fixpoint drained (queue : list Queued) (x : XorInstance) (s : Stream)
  : Stream :=
  match queue with
  | [] => s
  | q :: queue' =>
      drained queue' (snd (xor_update x (queued_frame q)))
              (sent_frame (q_id q) (q_content q) (q_callback q) x s)
  end.

Lemma forEach_queue_ok queue x s :
  secure s = true ->
  xor_self (_xor (parser s)) = Some x ->
  Forall (fun q => required_present (q_content q) = true) queue ->
  forEach_queue queue s = (drained queue x s, Ok tt).
Proof.
  revert x s. induction queue as [| q queue IH]; intros x s Hsecure Hx Hreq.
  - reflexivity.
  - inversion Hreq as [| q' queue' Hq Hqueue]; subst.
    cbn [forEach_queue drained]. unfold bind.
    rewrite (_secureSend_secure _ _ _ x s Hsecure Hx Hq).
    apply IH; [exact Hsecure | reflexivity | exact Hqueue].
Qed.

(** Draining touches the keystream position and node's side only. *)
Lemma drained_spec queue x s :
  pushed (node (drained queue x s)) =
    pushed (node s) ++ seal x (map queued_frame queue) /\
  sent (node (drained queue x s)) =
    sent (node s) ++ map queued_report queue /\
  (xor_self (_xor (parser s)) = Some x ->
   xor_self (_xor (parser (drained queue x s))) =
     Some (advance x (map queued_frame queue))) /\
  secure (drained queue x s) = secure s /\
  chain (drained queue x s) = chain s /\
  privateKey (drained queue x s) = privateKey s /\
  emitted (node (drained queue x s)) = emitted (node s) /\
  _queue (drained queue x s) = _queue s /\
  _remote (drained queue x s) = _remote s.
Proof.
  revert x s. induction queue as [| q queue IH]; intros x s.
  - cbn. rewrite !app_nil_r. repeat split; auto.
  - cbn [drained map seal advance fold_left].
    destruct (IH (snd (xor_update x (queued_frame q)))
                 (sent_frame (q_id q) (q_content q) (q_callback q) x s))
      as (Hpushed & Hsent & Hxor & Hsecure & Hchain & Hkey & Hemitted &
          Hqueue & Hremote).
    rewrite Hpushed, Hsent, Hsecure, Hchain, Hkey, Hemitted, Hqueue, Hremote.
    cbn. rewrite <- !app_assoc. cbn.
    repeat split; try reflexivity.
    intros _. apply Hxor. reflexivity.
Qed.

(** The session once the remote [Handshake] has been accepted, before
    the queue is drained. *)
Definition secured (body : Handshake) (s : Stream) : Stream :=
  set__queue None
    (upd_node (fun n =>
       set_emitted (emitted n ++ [EvSecure (hs_id body) (hs_chain body)]) n)
       (set_secure true
          (set__remote {| remote_id := Some (hs_id body);
                          remote_chain := Some (hs_chain body) |} s))).

Definition shortening_link (expiration : Num) (publicKey : option bytes)
  (key : bytes) : Body :=
  BLink {| link_link := hyperchain_issueLink expiration publicKey key |}.

(** [_onHandshake] on a session that has come as far as [_onOpen]'s
    closure takes it, once the remote chain and signature verify. *)
Lemma _onHandshake_eq (s : Stream) (body : Handshake)
  (reverseHash root key : bytes) (queue : list Queued) (local : list bytes)
  (x : XorInstance) :
  nonce_reverseHash (_nonce s) = Some reverseHash ->
  _hyperchain s = Some root ->
  hyperchain_verify root (hs_chain body) reverseHash (hs_signature body)
    = true ->
  _queue s = Some queue ->
  Forall (fun q => required_present (q_content q) = true) queue ->
  chain s = Some local ->
  privateKey s = Some key ->
  xor_self (_xor (parser s)) = Some x ->
  _onHandshake body s =
  let s' := drained queue x (secured body s) in
  if size (hs_chain body) - 1 <=? size local then (s', Ok tt)
  else
    match parse_links (hs_chain body) Infinity None with
    | None => (s', Throw E_LINK)
    | Some (expiration, publicKey) =>
        (sent_frame messages.id.LINK
           (shortening_link expiration publicKey key) None
           (advance x (map queued_frame queue)) s',
         Ok tt)
    end.
Proof.
  intros Hrh Hroot Hverify Hqueue Hreq Hlocal Hkey Hx.
  unfold _onHandshake, chain_verify.
  unfold bind at 1. unfold bind at 1, get at 1. rewrite Hrh. cbn [deref ret].
  unfold bind at 1. unfold bind at 1. unfold bind at 1, get at 1.
  rewrite Hroot. cbn [deref ret]. rewrite Hverify. cbn [ret].
  unfold bind at 1, modify at 1. unfold bind at 1, modify at 1.
  unfold bind at 1, emit at 1, modify at 1.
  unfold bind at 1, get at 1. unfold bind at 1, modify at 1.
  match goal with
  | |- context [upd_node ?f (set_secure true ?r)] =>
      change (set__queue None (upd_node f (set_secure true r)))
        with (secured body s);
      change (_queue (upd_node f (set_secure true r))) with (_queue s)
  end.
  rewrite Hqueue. unfold bind at 1. cbn [deref ret].
  unfold bind at 1.
  rewrite (forEach_queue_ok queue x (secured body s) eq_refl Hx Hreq).
  destruct (drained_spec queue x (secured body s))
    as (_ & _ & Hxor & Hsecure & Hchain & Hprivate & _).
  unfold bind at 1. unfold bind at 1, get at 1.
  rewrite Hchain. change (chain (secured body s)) with (chain s).
  rewrite Hlocal. cbn [deref ret]. cbn zeta.
  destruct (size (hs_chain body) - 1 <=? size local); [reflexivity |].
  unfold bind at 1.
  destruct (parse_links (hs_chain body) Infinity None)
    as [[expiration publicKey] |]; [| reflexivity].
  cbn [ret]. unfold bind at 1. unfold bind at 1, get at 1.
  rewrite Hprivate. change (privateKey (secured body s)) with (privateKey s).
  rewrite Hkey. cbn [deref ret].
  apply _secureSend_secure; [rewrite Hsecure; reflexivity | | reflexivity].
  apply Hxor. exact Hx.
Qed.

(** C1 (as the code has it).  At the secure transition the queued sends
    are handed to [_send], and after them a [Link] exactly when
    [remote.chain.length - 1 > local.chain.length]; when
    [remote.chain.length - 1 <= local.chain.length] nothing more is
    sent. *)
Theorem shortening_link_rule (s : Stream) (body : Handshake)
  (reverseHash root key : bytes) (queue : list Queued) (local : list bytes)
  (x : XorInstance) (expiration : Num) (publicKey : option bytes) :
  nonce_reverseHash (_nonce s) = Some reverseHash ->
  _hyperchain s = Some root ->
  hyperchain_verify root (hs_chain body) reverseHash (hs_signature body)
    = true ->
  _queue s = Some queue ->
  Forall (fun q => required_present (q_content q) = true) queue ->
  chain s = Some local ->
  privateKey s = Some key ->
  xor_self (_xor (parser s)) = Some x ->
  parse_links (hs_chain body) Infinity None = Some (expiration, publicKey) ->
  exists (s' : Stream) (issued : list Body),
    _onHandshake body s = (s', Ok tt) /\
    secure s' = true /\
    sent (node s') =
      sent (node s) ++ map queued_report queue ++
      map (report messages.id.LINK) issued /\
    pushed (node s') =
      pushed (node s) ++
      seal x (map queued_frame queue ++ map (frame messages.id.LINK) issued) /\
    (size (hs_chain body) - 1 > size local ->
     issued = [shortening_link expiration publicKey key]) /\
    (size (hs_chain body) - 1 <= size local -> issued = []).
Proof.
  intros Hrh Hroot Hverify Hqueue Hreq Hlocal Hkey Hx Hlinks.
  rewrite (_onHandshake_eq s body reverseHash root key queue local x
             Hrh Hroot Hverify Hqueue Hreq Hlocal Hkey Hx).
  cbn zeta. rewrite Hlinks.
  destruct (drained_spec queue x (secured body s))
    as (Hpushed & Hsent & _ & Hsecure & _).
  destruct (size (hs_chain body) - 1 <=? size local) eqn:Hguard.
  - apply Z.leb_le in Hguard.
    exists (drained queue x (secured body s)), [].
    cbn [map]. rewrite !app_nil_r.
    repeat split; try assumption; try reflexivity. lia.
  - apply Z.leb_gt in Hguard.
    exists (sent_frame messages.id.LINK
              (shortening_link expiration publicKey key) None
              (advance x (map queued_frame queue))
              (drained queue x (secured body s))),
           [shortening_link expiration publicKey key].
    split; [reflexivity |]. split; [exact Hsecure |].
    split; [| split; [| split; [reflexivity | lia]]].
    + cbn. rewrite Hsent. rewrite <- app_assoc. reflexivity.
    + cbn [map]. rewrite seal_app. cbn. rewrite Hpushed.
      rewrite <- app_assoc. reflexivity.
Qed.

(** C4 (as the code has it).  The first frame a session hands to [_send]
    is its own [Handshake]; a send made before [secure] joins the end of
    the queue; and the secure transition puts the queued frames on the
    wire in queue order, followed (not preceded) by the [Link] when
    one is issued. *)
Theorem queued_sends_order :
  (forall (id : bytes) (actions : list Action),
     handshake_sent_first (sent (node (run actions (new_Stream id))))) /\
  (forall (s : Stream) (id : Z) (content : Body)
          (callback : option Callback) (queue : list Queued),
     secure s = false ->
     _queue s = Some queue ->
     required_present content = true ->
     _secureSend id content callback s =
     (set__queue (Some (queue ++ [{| q_id := id; q_content := content;
                                     q_callback := callback |}])) s,
      Ok tt)) /\
  (forall (s : Stream) (body : Handshake) (reverseHash root key : bytes)
          (queue : list Queued) (local : list bytes) (x : XorInstance),
     nonce_reverseHash (_nonce s) = Some reverseHash ->
     _hyperchain s = Some root ->
     hyperchain_verify root (hs_chain body) reverseHash (hs_signature body)
       = true ->
     _queue s = Some queue ->
     Forall (fun q => required_present (q_content q) = true) queue ->
     chain s = Some local ->
     privateKey s = Some key ->
     xor_self (_xor (parser s)) = Some x ->
     exists (issued : list Body),
       (length issued <= 1)%nat /\
       pushed (node (fst (_onHandshake body s))) =
         pushed (node s) ++
         seal x (map queued_frame queue ++
                 map (frame messages.id.LINK) issued) /\
       sent (node (fst (_onHandshake body s))) =
         sent (node s) ++ map queued_report queue ++
         map (report messages.id.LINK) issued).
Proof.
  split; [| split].
  - intros id actions.
    exact (proj1 (proj1 (proj2 (proj2
             (run_Inv false actions _ (new_Stream_Inv id)))))).
  - intros s id content callback queue.
    apply _secureSend_queued.
  - intros s body reverseHash root key queue local x
           Hrh Hroot Hverify Hqueue Hreq Hlocal Hkey Hx.
    rewrite (_onHandshake_eq s body reverseHash root key queue local x
               Hrh Hroot Hverify Hqueue Hreq Hlocal Hkey Hx).
    cbn zeta.
    destruct (drained_spec queue x (secured body s))
      as (Hpushed & Hsent & _).
    assert (Hnone :
      exists issued : list Body,
        (length issued <= 1)%nat /\
        pushed (node (drained queue x (secured body s))) =
          pushed (node s) ++
          seal x (map queued_frame queue ++
                  map (frame messages.id.LINK) issued) /\
        sent (node (drained queue x (secured body s))) =
          sent (node s) ++ map queued_report queue ++
          map (report messages.id.LINK) issued).
    { exists []. cbn [map length]. rewrite !app_nil_r.
      split; [lia | split; assumption]. }
    destruct (size (hs_chain body) - 1 <=? size local); [exact Hnone |].
    destruct (parse_links (hs_chain body) Infinity None)
      as [[expiration publicKey] |]; [| exact Hnone].
    exists [shortening_link expiration publicKey key].
    split; [cbn; lia |]. split.
    + cbn [map]. rewrite seal_app. cbn. rewrite Hpushed.
      rewrite <- app_assoc. reflexivity.
    + cbn. rewrite Hsent. rewrite <- app_assoc. reflexivity.
Qed.

End Secure.

(** ** The send API and [destroy] *)

Section Api.

Context `{Env}.

(** C9 (as the code has it).  [request] validates with
    [Request.encodingLength] only: it throws, before queuing or sending
    and without touching the session, exactly when the required [start]
    is missing.  With [start] present the call is accepted, queued before
    [secure] and sent after it, whatever [limit] is: omitted, positive, or
    an explicit 0. *)
Theorem request_validation (s : Stream) (body : Request)
  (callback : option Callback) :
  (req_start body = None ->
   request body callback s = (s, Throw E_REQUIRED)) /\
  (req_start body <> None ->
   (forall queue : list Queued,
      secure s = false ->
      _queue s = Some queue ->
      request body callback s =
      (set__queue
         (Some (queue ++ [{| q_id := messages.id.REQUEST;
                             q_content := BRequest body;
                             q_callback := callback |}])) s,
       Ok tt)) /\
   (forall x : XorInstance,
      secure s = true ->
      xor_self (_xor (parser s)) = Some x ->
      request body callback s =
      (sent_frame messages.id.REQUEST (BRequest body) callback x s,
       Ok tt))).
Proof.
  split.
  - intros Hstart.
    unfold request, _secureSend, Type_encodingLength, encodingLength.
    cbn [required_present]. rewrite Hstart. reflexivity.
  - intros Hstart.
    assert (Hreq : required_present (BRequest body) = true).
    { cbn. destruct (req_start body); [reflexivity | congruence]. }
    split.
    + intros queue Hsecure Hqueue.
      apply _secureSend_queued; assumption.
    + intros x Hsecure Hx.
      apply _secureSend_secure; assumption.
Qed.

(** *** [destroy] *)

Definition destroyed (s : Stream) : Stream := set__destroyed true s.

(** [m] neither reads nor writes [_destroyed]. *)
Definition ignores_destroyed {A} (m : M A) : Prop :=
  forall s, m (destroyed s) = (destroyed (fst (m s)), snd (m s)).

Lemma ignores_ret {A} (a : A) : ignores_destroyed (ret a).
Proof. intros s. reflexivity. Qed.

Lemma ignores_throw {A} (e : Exn) : ignores_destroyed (@throw A e).
Proof. intros s. reflexivity. Qed.

Lemma ignores_get {A} (f : Stream -> A) :
  (forall s, f (destroyed s) = f s) -> ignores_destroyed (get f).
Proof. intros Hf s. unfold get. rewrite Hf. reflexivity. Qed.

Lemma ignores_modify (f : Stream -> Stream) :
  (forall s, f (destroyed s) = destroyed (f s)) ->
  ignores_destroyed (modify f).
Proof. intros Hf s. unfold modify. rewrite Hf. reflexivity. Qed.

Lemma ignores_bind {A B} (m : M A) (k : A -> M B) :
  ignores_destroyed m -> (forall a, ignores_destroyed (k a)) ->
  ignores_destroyed (bind m k).
Proof.
  intros Hm Hk s. unfold bind. rewrite Hm.
  destruct (m s) as [s' [a | e]]; cbn [fst snd].
  - apply Hk.
  - reflexivity.
Qed.

Ltac ignores_step :=
  match goal with
  | |- ignores_destroyed (bind _ _) => apply ignores_bind; [| intros ?]
  | |- ignores_destroyed (ret _) => apply ignores_ret
  | |- ignores_destroyed (throw _) => apply ignores_throw
  | |- ignores_destroyed (get _) => apply ignores_get; intros ?; reflexivity
  | |- ignores_destroyed (modify _) =>
      apply ignores_modify; intros ?; reflexivity
  | |- ignores_destroyed (if ?b then _ else _) => destruct b
  | |- ignores_destroyed (match ?o with _ => _ end) => destruct o
  end.

Ltac ignores :=
  unfold _secureSend, _send, _open, chain_verify, Type_encodingLength,
    debug_send, push, process_nextTick, deref, assert;
  repeat ignores_step.

(** C5 (as the code has it).  After [destroy] a further [destroy] does
    nothing, and that is all the flag does: every other call of the API
    acts on a destroyed session exactly as on a live one. *)
Theorem destroy_stops_only_destroy :
  (forall s : Stream,
     _destroyed s = false ->
     destroy s =
     (upd_node (fun n => set_emitted (emitted n ++ [EvClose]) n)
               (destroyed s), Ok tt)) /\
  (forall s : Stream, _destroyed s = true -> destroy s = (s, Ok tt)) /\
  (forall (c : Call) (s : Stream),
     c <> call_destroy ->
     api c (destroyed s) = (destroyed (fst (api c s)), snd (api c s))).
Proof.
  split; [| split].
  - intros s Hlive. unfold destroy, bind, get. rewrite Hlive. reflexivity.
  - intros s Hdead. unfold destroy, bind, get. rewrite Hdead. reflexivity.
  - intros c s Hcall.
    assert (Hignores : ignores_destroyed (api c)).
    { destruct c; cbn [api]; try congruence;
        unfold start, sync, filterOptions, data, request; ignores. }
    apply Hignores.
Qed.

End Api.

(** ** Two sessions in the sample environment

    Alice holds the feed's key and an empty chain; Bob holds a chain of
    two links.  Each starts, is written the other's [Open], runs the
    closure of [_onOpen], and is written the other's [Handshake]. *)

Module Scenario.

Import Sample.

Definition feed_key : bytes := repeat x01 32.
Definition alice_key : bytes := repeat x01 64.
Definition link1 : bytes := repeat x02 32.
Definition link2 : bytes := repeat x03 32.
Definition bob_key : bytes := repeat x03 64.
Definition alice_nonce : bytes := repeat x0a 24.
Definition bob_nonce : bytes := repeat x0b 24.

Definition alice_options : StartOptions :=
  {| opt_feedKey := Some feed_key; opt_privateKey := Some alice_key;
     opt_chain := Some []; opt_discoveryKey := None |}.

Definition bob_options : StartOptions :=
  {| opt_feedKey := Some feed_key; opt_privateKey := Some bob_key;
     opt_chain := Some [link1; link2]; opt_discoveryKey := None |}.

Definition alice0 : Stream := new_Stream (repeat xaa 32).
Definition bob0 : Stream := new_Stream (repeat xbb 32).

(** The [n]-th chunk a session has pushed. *)
Definition chunk (n : nat) (s : Stream) : bytes := nth n (pushed (node s)) [].

Definition request_a : Request :=
  {| req_start := Some [x61]; req_end := None; req_limit := None |}.

Definition alice1 : Stream :=
  run [Api (call_start alice_options alice_nonce)] alice0.
Definition bob1 : Stream :=
  run [Api (call_start bob_options bob_nonce)] bob0.

(** Open received, closure run: the [Handshake] is out, parsing resumed. *)
Definition alice3 : Stream := run [Write (chunk 0 bob1) 0; Tick] alice1.
Definition bob3 : Stream := run [Write (chunk 0 alice1) 0; Tick] bob1.

(** The remote [Handshake] received. *)
Definition alice4 : Stream := run [Write (chunk 1 bob3) 1] alice3.
Definition bob4 : Stream := run [Write (chunk 1 alice3) 1] bob3.

(** Alice again, with a [request] made before she started. *)
Definition alice4_queued : Stream :=
  run [Api (call_request request_a None);
       Api (call_start alice_options alice_nonce);
       Write (chunk 0 bob1) 0; Tick; Write (chunk 1 bob3) 1] alice0.

Example both_secure : secure alice4 = true /\ secure bob4 = true.
Proof. vm_compute. split; reflexivity. Qed.

(** Bob, written Alice's [Link], takes the shorter chain. *)
Example bob_shortens :
  chain (run [Write (chunk 2 alice4) 2] bob4) = Some [link2].
Proof. vm_compute. reflexivity. Qed.

(** C1, as stated, fails in both directions.  For Alice
    [remote.chain.length - 1 = 1 > 0 = local.chain.length] and she sends a
    [Link] after her [Handshake]; for Bob
    [remote.chain.length - 1 = -1 <= 2 = local.chain.length] and he sends
    none. *)
Lemma link_sent_when_remote_is_longer :
  (remote_chain (_remote alice4) = Some [link1; link2] /\
   chain alice4 = Some [] /\
   map fst (sent (node alice4)) =
     [messages.id.HANDSHAKE; messages.id.LINK]) /\
  (remote_chain (_remote bob4) = Some [] /\
   chain bob4 = Some [link1; link2] /\
   map fst (sent (node bob4)) = [messages.id.HANDSHAKE]).
Proof. vm_compute. repeat split; reflexivity. Qed.

(** C4, as stated, fails: the queued [Request] goes out before the
    [Link], not after it. *)
Lemma queued_request_precedes_link :
  map fst (sent (node alice4_queued)) =
    [messages.id.HANDSHAKE; messages.id.REQUEST; messages.id.LINK] /\
  length (pushed (node alice4_queued)) = 4%nat.
Proof. vm_compute. split; reflexivity. Qed.

(** C5, as stated, fails: after [destroy] a [request] is still queued
    on a session that is not secure, and still sent on one that is. *)
Lemma request_after_destroy :
  _queue (run [Api call_destroy; Api (call_request request_a None)] alice0) =
    Some [{| q_id := messages.id.REQUEST; q_content := BRequest request_a;
             q_callback := None |}] /\
  _queue (run [Api call_destroy] alice0) = Some [] /\
  length (pushed (node (run [Api call_destroy] alice4))) = 3%nat /\
  length (pushed (node (run [Api call_destroy;
                             Api (call_request request_a None)] alice4)))
    = 4%nat.
Proof. vm_compute. repeat split; reflexivity. Qed.

(** C9, as stated, fails: a [request] with an explicit [limit] of 0 is
    accepted. *)
Lemma request_with_limit_zero_accepted :
  request {| req_start := Some [x61]; req_end := None;
             req_limit := Some 0 |} None alice0 =
  (set__queue
     (Some [{| q_id := messages.id.REQUEST;
               q_content := BRequest {| req_start := Some [x61];
                                        req_end := None;
                                        req_limit := Some 0 |};
               q_callback := None |}]) alice0,
   Ok tt).
Proof. reflexivity. Qed.

(** C2: Bob sends [Data] with values [a] and [b] after the handshake;
    written to Alice, it ends her session with "Should not be called" and
    no [message] event. *)
Definition data_ab : Data := {| data_values := [[x61]; [x62]] |}.

Definition bob5 : Stream := run [Api (call_data data_ab None)] bob4.

Definition alice5 : Stream := run [Write (chunk 2 bob5) 2] alice4.

Lemma valid_data_is_not_delivered :
  last (called (node alice5)) (WriteCb 0, None) =
    (WriteCb 2, Some E_NOT_CALLED) /\
  emitted (node alice5) = emitted (node alice4).
Proof. vm_compute. split; reflexivity. Qed.

(** *** The theorems at these sessions *)

(** A session that has the frame body [msg] buffered, then [rest]. *)
Definition body_buffered (msg rest : bytes) (s : Stream) : Stream :=
  upd_parser (fun p =>
    set__pending (msg ++ rest)
      (set__waiting (Fin (size msg)) (set__state msg_body p))) s.

Lemma unknown_id_ignored_witness :
  _gotHandshake (parser (body_buffered [x07; x01] [x02] alice3)) = false /\
  _parse (body_buffered [x07; x01] [x02] alice3) =
    (taken [x02] (body_buffered [x07; x01] [x02] alice3), Ok true).
Proof.
  split; [vm_compute; reflexivity |].
  apply (unknown_id_ignored (body_buffered [x07; x01] [x02] alice3)
           [x07; x01] [x02] 7 1%nat);
    try (vm_compute; reflexivity).
  right. reflexivity.
Defined.


(** Peers that break the order of the [Handshake]. *)
Definition sync_a : Sync :=
  {| sync_filter := Some [x00]; sync_size := Some 8; sync_n := Some 2;
     sync_seed := Some 1; sync_limit := None; sync_range := None |}.

Definition bob_sent_handshake : Body :=
  BHandshake {| hs_id := repeat xbb 32; hs_extensions := [];
                hs_signature := sign (_hash (bob_nonce ++ alice_nonce))
                                     bob_key;
                hs_chain := [link1; link2] |}.

(** What a peer with Bob's keys puts on the wire behind its [Open]. *)
Definition bob_wire (frames : list bytes) : list bytes :=
  seal {| xor_nonce := bob_nonce; xor_key := feed_key; xor_pos := 0 |}
       frames.

Definition hasty_bob : list bytes :=
  bob_wire [frame messages.id.SYNC (BSync sync_a);
            frame messages.id.HANDSHAKE bob_sent_handshake].

Definition stuttering_bob : list bytes :=
  bob_wire [frame messages.id.HANDSHAKE bob_sent_handshake;
            frame messages.id.HANDSHAKE bob_sent_handshake;
            frame messages.id.REQUEST (BRequest request_a)].


Definition six_links : StartOptions :=
  {| opt_feedKey := Some feed_key; opt_privateKey := Some alice_key;
     opt_chain := Some (repeat link1 6); opt_discoveryKey := None |}.

Lemma chain_length_bounded_witness :
  start six_links alice_nonce alice0 = (alice0, Throw E_CHAIN_LENGTH) /\
  chain_ok (fst (_onLink {| link_link := link2 |} bob4)).
Proof.
  split.
  - apply (proj1 (proj2 chain_length_bounded) six_links alice_nonce alice0
             feed_key alice_key (repeat link1 6));
      reflexivity.
  - apply (proj2 (proj2 chain_length_bounded)).
    vm_compute. discriminate.
Defined.

Lemma data_message_throws_witness :
  _parse (body_buffered [x03; x0a; x01; x61; x0a; x01; x62] [] alice4) =
  (passed Tdata
     (taken [] (body_buffered [x03; x0a; x01; x61; x0a; x01; x62] []
                  alice4)),
   Throw E_NOT_CALLED).
Proof.
  apply (data_message_throws
           (body_buffered [x03; x0a; x01; x61; x0a; x01; x62] [] alice4)
           [x03; x0a; x01; x61; x0a; x01; x62] [] 1%nat data_ab);
    vm_compute; reflexivity.
Defined.

(** The [Handshake] Bob sends, and where Alice's keystream stands when it
    arrives. *)
Definition bob_handshake : Handshake :=
  {| hs_id := repeat xbb 32;
     hs_extensions := [];
     hs_signature := sign (_hash (bob_nonce ++ alice_nonce)) bob_key;
     hs_chain := [link1; link2] |}.

Definition alice_keystream : XorInstance :=
  {| xor_nonce := alice_nonce; xor_key := feed_key; xor_pos := 102 |}.

Lemma shortening_link_rule_witness :
  exists (s' : Stream) (issued : list Body),
    _onHandshake bob_handshake alice3 = (s', Ok tt) /\
    secure s' = true /\
    sent (node s') =
      sent (node alice3) ++ map queued_report [] ++
      map (report messages.id.LINK) issued /\
    pushed (node s') =
      pushed (node alice3) ++
      seal alice_keystream
        (map queued_frame [] ++ map (frame messages.id.LINK) issued) /\
    (size (hs_chain bob_handshake) - 1 > size (@nil bytes) ->
     issued = [shortening_link Infinity (Some link2) alice_key]) /\
    (size (hs_chain bob_handshake) - 1 <= size (@nil bytes) -> issued = []).
Proof.
  apply (shortening_link_rule alice3 bob_handshake
           (_hash (bob_nonce ++ alice_nonce)) feed_key alice_key [] []
           alice_keystream Infinity (Some link2));
    try (vm_compute; reflexivity).
  constructor.
Defined.

Definition queued_request : Queued :=
  {| q_id := messages.id.REQUEST; q_content := BRequest request_a;
     q_callback := None |}.

(** Alice with the [request] queued, about to receive Bob's
    [Handshake]. *)
Definition alice3_queued : Stream :=
  run [Api (call_request request_a None);
       Api (call_start alice_options alice_nonce);
       Write (chunk 0 bob1) 0; Tick] alice0.

Lemma queued_sends_order_witness :
  exists issued : list Body,
    (length issued <= 1)%nat /\
    pushed (node (fst (_onHandshake bob_handshake alice3_queued))) =
      pushed (node alice3_queued) ++
      seal alice_keystream
        (map queued_frame [queued_request] ++
         map (frame messages.id.LINK) issued) /\
    sent (node (fst (_onHandshake bob_handshake alice3_queued))) =
      sent (node alice3_queued) ++ map queued_report [queued_request] ++
      map (report messages.id.LINK) issued.
Proof.
  apply (proj2 (proj2 queued_sends_order) alice3_queued bob_handshake
           (_hash (bob_nonce ++ alice_nonce)) feed_key alice_key
           [queued_request] [] alice_keystream);
    try (vm_compute; reflexivity).
  repeat constructor.
Defined.

Lemma request_validation_witness :
  request {| req_start := None; req_end := None; req_limit := Some 5 |}
          None alice0 = (alice0, Throw E_REQUIRED) /\
  request {| req_start := Some [x61]; req_end := None;
             req_limit := Some 0 |} None alice0 =
  (set__queue
     (Some ([] ++ [{| q_id := messages.id.REQUEST;
                      q_content :=
                        BRequest {| req_start := Some [x61];
                                    req_end := None;
                                    req_limit := Some 0 |};
                      q_callback := None |}])) alice0,
   Ok tt).
Proof.
  split.
  - apply (proj1 (request_validation alice0
             {| req_start := None; req_end := None; req_limit := Some 5 |}
             None)).
    reflexivity.
  - apply (proj1 (proj2 (request_validation alice0
             {| req_start := Some [x61]; req_end := None;
                req_limit := Some 0 |} None) ltac:(discriminate)));
      reflexivity.
Defined.

Lemma destroy_stops_only_destroy_witness :
  destroy (destroyed alice4) = (destroyed alice4, Ok tt) /\
  api (call_request request_a None) (destroyed alice4) =
  (destroyed (fst (api (call_request request_a None) alice4)),
   snd (api (call_request request_a None) alice4)).
Proof.
  split.
  - apply (proj1 (proj2 destroy_stops_only_destroy)). reflexivity.
  - apply (proj2 (proj2 destroy_stops_only_destroy)). discriminate.
Defined.

End Scenario.

(** ** What the handlers leave alone

    The methods the parser dispatches to ([_onOpen], [_onHandshake],
    [_onLink], [_onData] and the [message] event) update node's side, the
    outbound keystream, [_remote], [secure], [_queue], [chain] and
    [_startCallback], and nothing else: a property that survives these
    updates survives the handlers. *)

Section Handlers.

Context `{Env}.

Variable P : Stream -> Prop.

Hypothesis P_node : forall f s, P s -> P (upd_node f s).
Hypothesis P_xor :
  forall (g : Parser -> XorPair) s,
    P s -> P (upd_parser (fun p => set__xor (g p) p) s).
Hypothesis P_remote : forall r s, P s -> P (set__remote r s).
Hypothesis P_secure : forall s, P s -> P (set_secure true s).
Hypothesis P_queue : forall q s, P s -> P (set__queue q s).
Hypothesis P_chain : forall c s, P s -> P (set_chain c s).
Hypothesis P_startCallback : forall c s, P s -> P (set__startCallback c s).

Ltac handler_update :=
  let s := fresh "s" in
  let Hs := fresh "Hs" in
  intros s Hs;
  first [ apply P_node; exact Hs
        | apply P_remote; exact Hs
        | apply P_secure; exact Hs
        | apply P_queue; exact Hs
        | apply P_chain; exact Hs
        | apply P_startCallback; exact Hs
        | refine (P_xor _ s Hs) ].

Ltac handler :=
  unfold _secureSend; unfold _send;
  unfold chain_verify, Type_encodingLength, decoded, debug_send, push, emit,
    process_nextTick;
  kept; try handler_update.

Lemma forEach_queue_handler queue : preserves P (forEach_queue queue).
Proof.
  induction queue as [| q queue IH]; cbn [forEach_queue]; handler.
Qed.

Lemma _onHandshake_handler body : preserves P (_onHandshake body).
Proof.
  pose proof forEach_queue_handler. unfold _onHandshake. handler.
Qed.

Lemma dispatch_handler type payload : preserves P (dispatch type payload).
Proof.
  pose proof _onHandshake_handler. unfold dispatch, _onLink, _onData.
  handler.
Qed.

Lemma emit_open_handler open : preserves P (emit_open open).
Proof. unfold emit_open, _onOpen, _onStart. handler. Qed.

End Handlers.

(** ** The loop of [_process] ends by itself

    Every [_parse] that returns [true] lowers [rank], so the bound on the
    turns of the loop is never what stops it. *)

Section Termination.

Context `{Env}.

Lemma dispatch_parser type payload s :
  _pending (parser (fst (dispatch type payload s))) = _pending (parser s) /\
  _state (parser (fst (dispatch type payload s))) = _state (parser s).
Proof.
  apply (dispatch_handler
           (fun s' => _pending (parser s') = _pending (parser s) /\
                      _state (parser s') = _state (parser s)));
    try (intros; assumption).
  split; reflexivity.
Qed.

Lemma emit_open_parser open s :
  _pending (parser (fst (emit_open open s))) = _pending (parser s) /\
  _state (parser (fst (emit_open open s))) = _state (parser s).
Proof.
  apply (emit_open_handler
           (fun s' => _pending (parser s') = _pending (parser s) /\
                      _state (parser s') = _state (parser s)));
    try (intros; assumption).
  split; reflexivity.
Qed.

Lemma _parseLength_loop_consumes pending s s' :
  _parseLength_loop pending s = (s', Ok true) ->
  (length (_pending (parser s')) < length pending)%nat /\
  _state (parser s') = body_state (_state (parser s)).
Proof.
  revert s. induction pending as [| b pending IH]; intros s.
  - discriminate.
  - rewrite _parseLength_loop_step. cbn zeta.
    destruct (25 <=? _); [discriminate |].
    destruct (byte_val b <? 128).
    + destruct (MAX_PENDING_SIZE <? _); [discriminate |].
      intros [= <-]. cbn. split; [lia | reflexivity].
    + intros Hloop. apply IH in Hloop. cbn in Hloop |- *.
      split; [lia | apply Hloop].
Qed.

Lemma body_state_rank st :
  match body_state st with
  | open_body | msg_body => True
  | _ => False
  end.
Proof. destruct st; exact I. Qed.

Ltac monad :=
  cbv beta iota zeta
      delta [bind get modify ret throw decoded deref assert _setState take
             debug].

Ltac parser_fields :=
  cbn [parser _pending _state upd_parser upd_node set_parser set_node
       set__pending set__state set__waiting set__paused set__gotHandshake
       fst] in *.

Lemma _parse_body_lowers_rank s s' :
  match _state (parser s) with
  | paused | msg_body => True
  | _ => False
  end ->
  _parse_body s = (s', Ok true) -> (rank s' < rank s)%nat.
Proof.
  intros Hstate. unfold _parse_body. monad.
  destruct (_waiting (parser s)) as [w |]; monad; [| discriminate].
  destruct (size (_pending (parser s)) <? w); monad; [discriminate |].
  destruct (varint_decode _) as [[id offset] |]; monad; [| discriminate].
  destruct (type_of_id id) as [type |]; monad.
  - destruct (negb _ && negb _); monad; [discriminate |].
    destruct (_ && _); monad; [discriminate |].
    match goal with
    | |- context [dispatch type ?payload ?mid] =>
        pose proof (dispatch_parser type payload mid) as Hd;
        destruct (dispatch type payload mid) as [s'' [[] | e]]
    end; monad; [| discriminate].
    intros [= <-]. parser_fields. destruct Hd as [Hp Hs].
    unfold rank. rewrite Hp, Hs. rewrite length_skipn.
    destruct (_state (parser s)); try contradiction; lia.
  - intros [= <-]. unfold rank. parser_fields. rewrite length_skipn.
    destruct (_state (parser s)); try contradiction; lia.
Qed.

Lemma _parse_lowers_rank s s' :
  _parse s = (s', Ok true) -> (rank s' < rank s)%nat.
Proof.
  unfold _parse, bind at 1, get at 1.
  destruct (_state (parser s)) eqn:Hstate.
  - (* magic *)
    unfold _parseMagic. monad.
    destruct (size (_pending (parser s)) <? size MAGIC) eqn:Hsize; monad;
      [discriminate |].
    destruct (negb _); monad; [discriminate |].
    intros [= <-]. unfold rank. parser_fields. rewrite Hstate.
    apply Z.ltb_ge in Hsize. unfold size in Hsize.
    destruct (_pending (parser s)) as [| ? [| ? [| ? [| ? pending]]]];
      cbn in Hsize |- *; lia.
  - (* open:length *)
    unfold _parseLength, bind, get. intros Hloop.
    apply _parseLength_loop_consumes in Hloop. destruct Hloop as [Hlt Hst].
    unfold rank. rewrite Hst, Hstate. cbn. lia.
  - (* open:body *)
    unfold _parseOpen. monad.
    destruct (_waiting (parser s)) as [w |]; monad; [| discriminate].
    destruct (size (_pending (parser s)) <? w); monad; [discriminate |].
    destruct (pb_decode_Open _) as [open |]; monad; [| discriminate].
    destruct (negb (size (open_feed open) =? HASH_SIZE)); monad;
      [discriminate |].
    destruct (negb (size (open_nonce open) =? NONCE_SIZE)); monad;
      [discriminate |].
    destruct (negb (paused_enabled _)); monad; [| discriminate].
    rewrite Z.ltb_irrefl. monad.
    match goal with
    | |- context [emit_open open ?mid] =>
        pose proof (emit_open_parser open mid) as Hemit;
        destruct (emit_open open mid) as [s'' [[] | e]]
    end; monad; [| discriminate].
    intros [= <-]. parser_fields. destruct Hemit as [Hp Hs].
    unfold rank. rewrite Hp, Hs, Hstate.
    unfold size. rewrite Nat2Z.id, skipn_all. cbn. lia.
  - apply _parse_body_lowers_rank. rewrite Hstate. exact I.
  - (* msg:length *)
    unfold _parseLength, bind, get. intros Hloop.
    apply _parseLength_loop_consumes in Hloop. destruct Hloop as [Hlt Hst].
    unfold rank. rewrite Hst, Hstate. cbn. lia.
  - apply _parse_body_lowers_rank. rewrite Hstate. exact I.
Qed.

(** With any bound above [rank] the loop does what it does with any
    other. *)
Lemma _process_loop_enough turns turns' s :
  (rank s < turns)%nat -> (rank s < turns')%nat ->
  _process_loop turns s = _process_loop turns' s.
Proof.
  revert turns' s. induction turns as [| turns IH]; intros turns' s Ht Ht'.
  - lia.
  - destruct turns' as [| turns']; [lia |].
    cbn [_process_loop].
    destruct (geb_num _ _); [| reflexivity].
    destruct (_parse s) as [s' [[|] | e]] eqn:Hparse; try reflexivity.
    apply _parse_lowers_rank in Hparse.
    apply IH; lia.
Qed.

Lemma _process_loop_S turns s :
  _process_loop (S turns) s =
  if geb_num (size (_pending (parser s))) (_waiting (parser s)) then
    match _parse s with
    | (s', Ok true) => _process_loop turns s'
    | (s', Ok false) => (s', Ok None)
    | (s', Throw e) => (s', Ok (Some e))
    end
  else (s, Ok None).
Proof. reflexivity. Qed.

(** One turn of the loop. *)
Lemma _process_loop_turn s :
  _process_loop (S (rank s)) s =
  if geb_num (size (_pending (parser s))) (_waiting (parser s)) then
    match _parse s with
    | (s', Ok true) => _process_loop (S (rank s')) s'
    | (s', Ok false) => (s', Ok None)
    | (s', Throw e) => (s', Ok (Some e))
    end
  else (s, Ok None).
Proof.
  rewrite _process_loop_S.
  destruct (geb_num _ _); [| reflexivity].
  destruct (_parse s) as [s' [[|] | e]] eqn:Hparse; try reflexivity.
  apply _parse_lowers_rank in Hparse.
  apply _process_loop_enough; lia.
Qed.

End Termination.

(** ** The states of the parser, one [_parse] at a time *)

Ltac monad :=
  cbv beta iota zeta
      delta [bind get modify ret throw decoded deref assert _setState debug].

(** Reads fields through the field updates. *)
Ltac fields :=
  cbn [parser feedKey feed privateKey chain secure _hyperchain
       _startCallback _destroyed _nonce _remote _queue node
       id _xor _pending _state _waiting _varint _gotHandshake _paused
       pushed emitted once_open nextTick called debugged sent
       xor_self xor_remote paused_enabled paused_pending paused_callback
       nonce_remote nonce_local nonce_hash nonce_reverseHash
       remote_id remote_chain
       set_parser set_feedKey set_feed set_privateKey set_chain set_secure
       set__hyperchain set__startCallback set__destroyed set__nonce
       set__remote set__queue set_node
       set_id set__xor set__pending set__state set__waiting set__varint
       set__gotHandshake set__paused
       set_pushed set_emitted set_once_open set_nextTick set_called
       set_debugged set_sent
       upd_parser upd_node app fst snd geb_num is_some negb body_state].

(** Sessions written out field by field are brought to a record. *)
Ltac states :=
  cbv beta iota delta
      [set_parser set_feedKey set_feed set_privateKey set_chain set_secure
       set__hyperchain set__startCallback set__destroyed set__nonce
       set__remote set__queue set_node
       set_id set__xor set__pending set__state set__waiting set__varint
       set__gotHandshake set__paused
       set_pushed set_emitted set_once_open set_nextTick set_called
       set_debugged set_sent
       upd_parser upd_node accepted taken passed body_state];
  fields.

Lemma take_all (s : Stream) :
  take (Fin (size (_pending (parser s)))) s =
  (upd_parser (set__pending []) s, Ok (_pending (parser s))).
Proof.
  pose proof (take_front (_pending (parser s)) [] s) as Htake.
  rewrite app_nil_r in Htake. apply Htake. reflexivity.
Qed.

Section Parsing.

Context `{Env}.

(** [magic]: the four bytes of [MAGIC] are taken. *)
Lemma _parse_magic (s : Stream) (rest : bytes) :
  _state (parser s) = magic ->
  _pending (parser s) = MAGIC ++ rest ->
  _parse s =
  (upd_parser (fun p =>
     set__waiting (Fin 1) (set__state open_length (set__pending rest p))) s,
   Ok true).
Proof.
  intros Hstate Hpending.
  unfold _parse, bind at 1, get at 1. rewrite Hstate.
  unfold _parseMagic, bind at 1.
  rewrite (take_front MAGIC rest s Hpending).
  reflexivity.
Qed.

(** [open:length] and [msg:length]: a length of at most three bytes and
    at most [MAX_PENDING_SIZE] is read. *)
Lemma _parse_length (s : Stream) (enc rest : bytes) :
  _state (parser s) = open_length \/ _state (parser s) = msg_length ->
  _varint (parser s) = {| varint_value := 0; varint_shift := 0 |} ->
  _pending (parser s) = enc ++ rest ->
  terminated enc = true ->
  (length enc <= 3)%nat ->
  leb128_value enc <= MAX_PENDING_SIZE ->
  _parse s = (accepted (leb128_value enc) rest s, Ok true).
Proof.
  intros Hstate Hvarint Hpending Hterm Hlen Hvalue.
  pose proof (proj1 (_parseLength_by_length s enc rest Hterm Hvarint
                       Hpending)
                Hlen) as Hparse.
  apply Z.leb_le in Hvalue. rewrite Hvalue in Hparse.
  unfold _parse, bind at 1, get at 1.
  destruct Hstate as [-> | ->]; exact Hparse.
Qed.

(** The session once [Open] has been decoded: paused, with what was
    buffered behind it set aside, the closure of [_onOpen] scheduled and
    the event emitted. *)
Definition opened (open : Open) (rest : bytes) (s : Stream) : Stream :=
  upd_node (fun n =>
    set_emitted (emitted n ++ [EvOpen open])
      (set_nextTick (nextTick n ++ [TStartCallback open])
        (set_once_open false n)))
    (upd_parser (fun p =>
       set__paused {| paused_enabled := true;
                      paused_pending := Some rest;
                      paused_callback := paused_callback (_paused p) |}
         (set__pending []
           (set__waiting Infinity (set__state paused p)))) s).

(** [open:body], on a session that has been started. *)
Lemma _parse_open (s : Stream) (body rest feed0 : bytes) (open : Open) :
  _state (parser s) = open_body ->
  _waiting (parser s) = Fin (size body) ->
  _pending (parser s) = body ++ rest ->
  pb_decode_Open body = Some open ->
  size (open_feed open) = HASH_SIZE ->
  size (open_nonce open) = NONCE_SIZE ->
  paused_enabled (_paused (parser s)) = false ->
  once_open (node s) = true ->
  feed s = Some feed0 ->
  _parse s = (opened open rest s, Ok true).
Proof.
  intros Hstate Hwaiting Hpending Hopen Hfeed Hnonce Hpaused Honce Hstarted.
  unfold _parse, bind at 1, get at 1. rewrite Hstate.
  unfold _parseOpen. unfold bind at 1, get at 1. rewrite Hwaiting.
  unfold bind at 1. rewrite (take_front body rest s Hpending).
  unfold bind at 1, _setState at 1, modify at 1.
  rewrite Hopen. unfold bind at 1, decoded at 1, ret at 1.
  apply Z.eqb_eq in Hfeed, Hnonce. rewrite Hfeed, Hnonce. cbn [negb].
  unfold bind at 1, get at 1.
  cbn [parser _paused upd_parser set_parser set__waiting set__state
       set__pending].
  rewrite Hpaused. cbn [negb assert]. unfold bind at 1, ret at 1.
  unfold bind at 1, get at 1.
  set (mid := upd_parser _ (upd_parser (set__pending rest) s)).
  unfold bind at 1. rewrite (take_all mid).
  unfold bind at 1, modify at 1.
  unfold emit_open, _onOpen, _onStart, emit, process_nextTick.
  monad.
  subst mid.
  cbn [node parser upd_parser upd_node set_parser set_node once_open feed
       set_once_open _pending set__waiting set__state set__pending].
  rewrite Honce. cbv beta iota.
  cbn [feed upd_parser upd_node set_parser set_node].
  rewrite Hstarted. cbn [is_some].
  unfold opened.
  destruct s as [p fk f pk ch sec hc sc d no rm q nd].
  destruct p, nd. reflexivity.
Qed.

End Parsing.

(** ** The keystream *)

Lemma xor_byte_involutive (a k : byte) : xor_byte (xor_byte a k) k = a.
Proof.
  unfold xor_byte.
  destruct (Byte.to_bits a)
    as (a0 & a1 & a2 & a3 & a4 & a5 & a6 & a7) eqn:Ha.
  destruct (Byte.to_bits k)
    as (k0 & k1 & k2 & k3 & k4 & k5 & k6 & k7) eqn:Hk.
  rewrite Byte.to_bits_of_bits.
  rewrite !xorb_assoc, !xorb_nilpotent, !xorb_false_r.
  rewrite <- Ha. apply Byte.of_bits_to_bits.
Qed.

Section Keystream.

Context `{Env}.

(** Decrypting with the keystream a frame was encrypted with, from the
    same position, gives the frame back. *)
Lemma xor_from_involutive nonce key pos buf :
  xor_from nonce key pos (xor_from nonce key pos buf) = buf.
Proof.
  revert pos. induction buf as [| b buf IH]; intros pos; cbn.
  - reflexivity.
  - rewrite xor_byte_involutive, IH. reflexivity.
Qed.

Lemma xor_from_length nonce key pos buf :
  length (xor_from nonce key pos buf) = length buf.
Proof.
  revert pos. induction buf as [| b buf IH]; intros pos; cbn.
  - reflexivity.
  - rewrite IH. reflexivity.
Qed.

End Keystream.

(** ** Two sessions against each other

    One side first: a session is started, is written the peer's [Open],
    runs the closure of [_onOpen] and is written the peer's [Handshake].
    What the codec libraries must do is asked of the messages of this
    session only. *)

Section Handshake.

Context `{Env}.

Definition credentials (fk sk : bytes) (links : list bytes) : StartOptions :=
  {| opt_feedKey := Some fk; opt_privateKey := Some sk;
     opt_chain := Some links; opt_discoveryKey := None |}.

(** What a session with these credentials and this nonce puts on the
    wire: its [Open], and its [Handshake] once it knows the peer's
    nonce. *)
Definition sent_open (fk nonce : bytes) : Open :=
  {| open_feed := _hash fk; open_nonce := nonce |}.

Definition open_chunk (fk nonce : bytes) : bytes :=
  MAGIC ++
  varint_encode (size (pb_encode (BOpen (sent_open fk nonce)))) ++
  pb_encode (BOpen (sent_open fk nonce)).

Definition sent_handshake (id sk : bytes) (links : list bytes)
  (local remote : bytes) : Handshake :=
  {| hs_id := id;
     hs_extensions := [];
     hs_signature := signatures_sign (_hash (local ++ remote)) sk;
     hs_chain := links |}.

Definition keystream (fk nonce : bytes) (pos : nat) : XorInstance :=
  {| xor_nonce := nonce; xor_key := fk; xor_pos := pos |}.

Definition handshake_chunk (fk id sk : bytes) (links : list bytes)
  (local remote : bytes) : bytes :=
  xor_from local fk 0
    (frame messages.id.HANDSHAKE
           (BHandshake (sent_handshake id sk links local remote))).

(** The credentials pass the checks of [start]. *)
Definition honest (fk sk : bytes) (links : list bytes) : Prop :=
  size fk = PUBLIC_KEY_SIZE /\
  size sk = PRIVATE_KEY_SIZE /\
  size links <= MAX_CHAIN_LENGTH /\
  size (_hash fk) = HASH_SIZE /\
  hyperchain_verify fk links EMPTY_HASH (signatures_sign EMPTY_HASH sk)
    = true.

(** [varint.encode] writes the length [n] as the parser reads it. *)
Definition length_readable (n : Z) : Prop :=
  terminated (varint_encode n) = true /\
  (length (varint_encode n) <= 3)%nat /\
  leb128_value (varint_encode n) = n /\
  n <= MAX_PENDING_SIZE.

(** The codecs read back the [Open] and the [Handshake] of a session. *)
Definition open_readable (fk nonce : bytes) : Prop :=
  size nonce = NONCE_SIZE /\
  length_readable (size (pb_encode (BOpen (sent_open fk nonce)))) /\
  pb_decode_Open (pb_encode (BOpen (sent_open fk nonce)))
    = Some (sent_open fk nonce).

Definition handshake_readable (id sk : bytes) (links : list bytes)
  (local remote : bytes) : Prop :=
  let body := BHandshake (sent_handshake id sk links local remote) in
  length_readable
    (varint_encodingLength messages.id.HANDSHAKE + size (pb_encode body)) /\
  varint_decode (varint_encode messages.id.HANDSHAKE ++ pb_encode body)
    = Some (messages.id.HANDSHAKE,
            length (varint_encode messages.id.HANDSHAKE)) /\
  pb_decode_Handshake (pb_encode body)
    = Some (sent_handshake id sk links local remote).

(** A session, by the fields that change during the handshake. *)
Definition session (id fk sk : bytes) (links : list bytes) (xor : XorPair)
  (st : State) (waiting : Num) (pause : Paused) (nonce : Nonce)
  (nd : Node) : Stream :=
  {| parser :=
       {| id := id; _xor := xor; _pending := []; _state := st;
          _waiting := waiting;
          _varint := {| varint_value := 0; varint_shift := 0 |};
          _gotHandshake := false; _paused := pause |};
     feedKey := Some fk;
     feed := Some (_hash fk);
     privateKey := Some sk;
     chain := Some links;
     secure := false;
     _hyperchain := Some fk;
     _startCallback := None;
     _destroyed := false;
     _nonce := nonce;
     _remote := {| remote_id := None; remote_chain := None |};
     _queue := Some [];
     node := nd |}.

Definition not_paused : Paused :=
  {| paused_enabled := false; paused_pending := None;
     paused_callback := None |}.

(** After [start]. *)
Definition started (id fk sk : bytes) (links : list bytes) (local : bytes)
  : Stream :=
  session id fk sk links
    {| xor_self := Some (keystream fk local 0); xor_remote := None |}
    magic (Fin (size MAGIC)) not_paused
    {| nonce_remote := None; nonce_local := Some local;
       nonce_hash := None; nonce_reverseHash := None |}
    {| pushed := [open_chunk fk local]; emitted := []; once_open := true;
       nextTick := []; called := []; debugged := []; sent := [] |}.

Lemma start_started id fk sk links local :
  honest fk sk links ->
  start (credentials fk sk links) local (new_Stream id) =
  (started id fk sk links local, Ok tt).
Proof.
  intros (Hfk & Hsk & Hlinks & Hfeed & Hverify).
  apply Z.eqb_eq in Hfk, Hsk, Hfeed. apply Z.leb_le in Hlinks.
  unfold start, credentials.
  cbn [opt_feedKey opt_privateKey opt_chain opt_discoveryKey is_some].
  monad. rewrite Hfk, Hsk, Hlinks. monad.
  cbn [set_feed set_feedKey new_Stream feed parser feedKey privateKey chain
       secure _hyperchain _startCallback _destroyed _nonce _remote _queue
       node].
  rewrite Hfeed. monad.
  unfold chain_verify. monad.
  cbn [set__hyperchain set_chain set_privateKey _hyperchain feed parser
       feedKey privateKey chain secure _startCallback _destroyed _nonce
       _remote _queue node].
  rewrite Hverify. monad.
  unfold _open, Type_encodingLength, encodingLength, push. monad.
  cbn [required_present]. monad.
  reflexivity.
Qed.

Lemma size_app {A} (a b : list A) : size (a ++ b) = size a + size b.
Proof. unfold size. rewrite length_app. lia. Qed.

Lemma size_nonneg {A} (a : list A) : 0 <= size a.
Proof. unfold size. lia. Qed.

Lemma terminated_size enc : terminated enc = true -> 1 <= size enc.
Proof.
  destruct enc as [| b enc]; [discriminate |].
  intros _. unfold size. cbn [length]. lia.
Qed.

(** After the peer's [Open] has been written: paused, with the closure
    of [_onOpen] scheduled and the callback of the write held back. *)
Definition open_received (id fk sk : bytes) (links : list bytes)
  (local remote : bytes) (cb : nat) : Stream :=
  session id fk sk links
    {| xor_self := Some (keystream fk local 0); xor_remote := None |}
    paused Infinity
    {| paused_enabled := true; paused_pending := Some [];
       paused_callback := Some (WriteCb cb) |}
    {| nonce_remote := None; nonce_local := Some local;
       nonce_hash := None; nonce_reverseHash := None |}
    {| pushed := [open_chunk fk local];
       emitted := [EvOpen (sent_open fk remote)];
       once_open := false;
       nextTick := [TStartCallback (sent_open fk remote)];
       called := []; debugged := []; sent := [] |}.

Lemma write_open id fk sk links local remote cb :
  honest fk sk links ->
  open_readable fk remote ->
  _write (open_chunk fk remote) (WriteCb cb) (started id fk sk links local) =
  (open_received id fk sk links local remote cb, Ok tt).
Proof.
  intros (_ & _ & _ & Hfeed & _)
         (Hnonce & (Hterm & Hlen & Hvalue & Hsmall) & Hdecode).
  unfold _write, started, session. monad. fields.
  unfold _process at 1. monad.
  (* magic *)
  rewrite _process_loop_turn. fields.
  unfold open_chunk at 1. rewrite size_app.
  replace (size MAGIC <=? size MAGIC + _) with true
    by (symmetry; apply Z.leb_le;
        pose proof (size_nonneg
          (varint_encode (size (pb_encode (BOpen (sent_open fk remote)))) ++
           pb_encode (BOpen (sent_open fk remote)))); lia).
  erewrite _parse_magic; [| reflexivity | reflexivity].
  (* open:length *)
  rewrite _process_loop_turn. fields.
  rewrite size_app.
  replace (1 <=? _) with true
    by (symmetry; apply Z.leb_le; pose proof (terminated_size _ Hterm);
        pose proof (size_nonneg (pb_encode (BOpen (sent_open fk remote))));
        lia).
  erewrite _parse_length;
    [| left; reflexivity | reflexivity | reflexivity | exact Hterm
     | exact Hlen | rewrite Hvalue; exact Hsmall].
  rewrite Hvalue.
  (* open:body *)
  rewrite _process_loop_turn. unfold accepted at 1 2. fields.
  rewrite Z.leb_refl.
  erewrite (_parse_open _ (pb_encode (BOpen (sent_open fk remote))) []
              (_hash fk) (sent_open fk remote));
    [| reflexivity | reflexivity | symmetry; apply app_nil_r | exact Hdecode
     | exact Hfeed | exact Hnonce | reflexivity | reflexivity | reflexivity].
  (* paused *)
  rewrite _process_loop_turn. unfold opened at 1 2. fields.
  monad. unfold opened, accepted. fields.
  reflexivity.
Qed.

Lemma equals_refl (a : bytes) : equals a a = true.
Proof. unfold equals. destruct (list_eq_dec _ a a); congruence. Qed.

(** After the closure of [_onOpen] has run: the nonces are paired, the
    [Handshake] is on the wire and the parser reads messages. *)
Definition handshake_sent (id fk sk : bytes) (links : list bytes)
  (local remote : bytes) (cb : nat) : Stream :=
  session id fk sk links
    {| xor_self :=
         Some (keystream fk local
                 (length (frame messages.id.HANDSHAKE
                            (BHandshake
                               (sent_handshake id sk links local remote)))));
       xor_remote := Some (keystream fk remote 0) |}
    msg_length (Fin 1) not_paused
    {| nonce_remote := None; nonce_local := None;
       nonce_hash := Some (_hash (local ++ remote));
       nonce_reverseHash := Some (_hash (remote ++ local)) |}
    {| pushed := [open_chunk fk local;
                  handshake_chunk fk id sk links local remote];
       emitted := [EvOpen (sent_open fk remote)];
       once_open := false;
       nextTick := [];
       called := [(WriteCb cb, None)];
       debugged := [];
       sent := [report messages.id.HANDSHAKE
                  (BHandshake (sent_handshake id sk links local remote))] |}.

Lemma tick_sends_handshake id fk sk links local remote cb :
  step Tick (open_received id fk sk links local remote cb) =
  (handshake_sent id fk sk links local remote cb, Ok tt).
Proof.
  unfold step, open_received, session. monad. fields.
  unfold run_task, _onOpen_callback. monad. fields.
  unfold sent_open at 1. cbn [open_feed open_nonce].
  rewrite equals_refl. fields. monad. fields.
  unfold _handshake. monad. fields.
  erewrite _send_ok; [| reflexivity | reflexivity].
  unfold _resumeParsing. monad. unfold sent_frame. fields.
  unfold xor_update at 1. fields.
  unfold _process. monad.
  rewrite _process_loop_turn. fields.
  unfold call. monad. fields.
  reflexivity.
Qed.

(** Written the peer's [Handshake], the session becomes secure. *)
Lemma write_handshake_secures id fk sk links local remote cb
  id' sk' links' cb' :
  handshake_readable id' sk' links' remote local ->
  hyperchain_verify fk links' (_hash (remote ++ local))
    (signatures_sign (_hash (remote ++ local)) sk') = true ->
  secure (fst (_write (handshake_chunk fk id' sk' links' remote local)
                      (WriteCb cb')
                      (handshake_sent id fk sk links local remote cb)))
    = true.
Proof.
  intros ((Hterm & Hlen & Hvalue & Hsmall) & Hid & Hdecode) Hverify.
  set (body := sent_handshake id' sk' links' remote local) in *.
  set (msg := varint_encode messages.id.HANDSHAKE ++
              pb_encode (BHandshake body)) in *.
  assert (Hmsg : varint_encodingLength messages.id.HANDSHAKE +
                 size (pb_encode (BHandshake body)) = size msg).
  { unfold msg, varint_encodingLength. rewrite size_app. reflexivity. }
  rewrite Hmsg in *.
  unfold _write, handshake_sent, session. monad. fields.
  unfold xor_update at 1, handshake_chunk, keystream. fields.
  cbn [xor_nonce xor_key xor_pos].
  rewrite xor_from_involutive. fold body.
  unfold frame. fold msg.
  replace (varint_encodingLength messages.id.HANDSHAKE +
           size (pb_encode (BHandshake body))) with (size msg).
  states.
  unfold _process. monad.
  (* msg:length *)
  rewrite _process_loop_turn. states.
  rewrite size_app.
  replace (1 <=? _) with true
    by (symmetry; apply Z.leb_le; pose proof (terminated_size _ Hterm);
        pose proof (size_nonneg msg); lia).
  erewrite _parse_length;
    [| right; reflexivity | reflexivity | reflexivity | exact Hterm
     | exact Hlen | rewrite Hvalue; exact Hsmall].
  rewrite Hvalue.
  (* msg:body *)
  rewrite _process_loop_turn. states.
  rewrite Z.leb_refl.
  erewrite (_parse_body_eq _ msg []);
    [| reflexivity | reflexivity | symmetry; apply app_nil_r].
  rewrite Hid.
  cbn [type_of_id messages.id.HANDSHAKE Z.eqb].
  states. cbn [MsgType_eqb andb negb].
  replace (skipn (length (varint_encode messages.id.HANDSHAKE)) msg)
    with (pb_encode (BHandshake body))
    by (unfold msg; rewrite skipn_app, skipn_all, Nat.sub_diag;
        reflexivity).
  unfold dispatch. rewrite Hdecode. monad.
  erewrite (_onHandshake_eq _ body (_hash (remote ++ local)) fk sk [] links);
    [| reflexivity | reflexivity | exact Hverify | reflexivity
     | constructor | reflexivity | reflexivity | reflexivity].
  cbn zeta.
  destruct (size (hs_chain body) - 1 <=? size links);
    [| destruct (parse_links (hs_chain body) Infinity None)
         as [[expiration publicKey] |]];
    reflexivity.
Qed.

(** The [n]-th chunk a session has pushed to its readable side, which a
    pipe writes to the peer. *)
Definition piped (n : nat) (s : Stream) : bytes :=
  nth n (pushed (node s)) [].

(** What the session relies on from [sodium-signatures] and
    [hyperbloom-chain]: whether a chain and a private key belong together
    does not depend on the message signed. *)
Definition signatures_uniform : Prop :=
  forall (root : bytes) (links : list bytes) (sk hash hash' : bytes),
    hyperchain_verify root links hash (signatures_sign hash sk) = true ->
    hyperchain_verify root links hash' (signatures_sign hash' sk) = true.

Lemma run_start id fk sk links local :
  honest fk sk links ->
  run [Api (call_start (credentials fk sk links) local)] (new_Stream id) =
  started id fk sk links local.
Proof.
  intros Hhonest. cbn [run step api].
  rewrite (start_started id fk sk links local Hhonest). reflexivity.
Qed.

Lemma run_open id fk sk links local remote cb :
  honest fk sk links ->
  open_readable fk remote ->
  run [Write (open_chunk fk remote) cb; Tick] (started id fk sk links local) =
  handshake_sent id fk sk links local remote cb.
Proof.
  intros Hhonest Hopen. cbn [run].
  change (step (Write (open_chunk fk remote) cb))
    with (_write (open_chunk fk remote) (WriteCb cb)).
  rewrite (write_open id fk sk links local remote cb Hhonest Hopen).
  cbn [fst]. rewrite tick_sends_handshake. reflexivity.
Qed.


End Handshake.

(** ** The handshake of Alice and Bob *)

Module Pairing.

Import Sample Scenario.

Lemma sample_signatures_uniform : signatures_uniform.
Proof.
  intros root links sk hash hash'.
  cbn [hyperchain_verify signatures_sign env]. unfold verify, sign, equals.
  destruct (list_eq_dec _ _ _) as [Heq | _]; [intros _ | discriminate].
  apply app_inv_tail in Heq. rewrite Heq.
  destruct (list_eq_dec _ _ _) as [_ | Hneq]; [reflexivity |].
  exfalso. apply Hneq. reflexivity.
Qed.


End Pairing.

(** * Further properties of the parser and the session

    The behaviour of [_write], [_process] and the parsing states at the
    edges, of [start] and the two [Open] messages, of the handlers of
    [Handshake] and [Link], and what holds in every state a session can
    reach. *)

(** Sessions given by their fields: every field update and every field
    read is carried out. *)
Ltac records :=
  cbv beta iota
      delta [parser feedKey feed privateKey chain secure _hyperchain
             _startCallback _destroyed _nonce _remote _queue node
             id _xor _pending _state _waiting _varint _gotHandshake _paused
             pushed emitted once_open nextTick called debugged sent
             xor_self xor_remote paused_enabled paused_pending
             paused_callback
             nonce_remote nonce_local nonce_hash nonce_reverseHash
             remote_id remote_chain
             set_parser set_feedKey set_feed set_privateKey set_chain
             set_secure set__hyperchain set__startCallback set__destroyed
             set__nonce set__remote set__queue set_node
             set_id set__xor set__pending set__state set__waiting
             set__varint set__gotHandshake set__paused
             set_pushed set_emitted set_once_open set_nextTick set_called
             set_debugged set_sent upd_parser upd_node].

(** ** The first bytes of a connection *)

(** The session after a write callback has been called. *)
Definition acknowledged (cb : Callback) (err : option Exn) (s : Stream)
  : Stream :=
  upd_node (fun n => set_called (called n ++ [(cb, err)]) n) s.

Section Magic.

Context `{Env}.

(** X1.  A parser that still waits for [MAGIC] keeps fewer than four
    buffered bytes and acknowledges the write; as soon as four bytes are
    there it takes them, and when they are not [MAGIC] the write is
    answered with "Invalid MAGIC value" and what follows them stays
    buffered, unparsed. *)
Theorem magic_checked (s : Stream) (data : bytes) (n : nat) :
  _state (parser s) = magic ->
  _waiting (parser s) = Fin (size MAGIC) ->
  xor_remote (_xor (parser s)) = None ->
  paused_enabled (_paused (parser s)) = false ->
  let buffered := _pending (parser s) ++ data in
  (size buffered < size MAGIC ->
   _write data (WriteCb n) s =
   (acknowledged (WriteCb n) None (upd_parser (set__pending buffered) s),
    Ok tt)) /\
  (size MAGIC <= size buffered ->
   firstn 4 buffered <> MAGIC ->
   _write data (WriteCb n) s =
   (acknowledged (WriteCb n) (Some E_MAGIC)
      (upd_parser (set__pending (skipn 4 buffered)) s),
    Ok tt)).
Proof.
  intros Hstate Hwaiting Hxor Hpaused buffered.
  assert (Hsize : size MAGIC = 4) by reflexivity.
  split.
  - intros Hshort.
    unfold _write. monad. rewrite Hxor. monad.
    unfold _process. monad.
    rewrite _process_loop_turn. fields. rewrite Hwaiting. fields.
    fold buffered.
    replace (size MAGIC <=? size buffered) with false
      by (symmetry; apply Z.leb_gt; exact Hshort).
    monad. fields. fold buffered.
    replace (MAX_PENDING_SIZE <=? size buffered) with false
      by (symmetry; apply Z.leb_gt; unfold MAX_PENDING_SIZE; lia).
    monad. fields. rewrite Hpaused. reflexivity.
  - intros Hlong Hbad.
    unfold _write. monad. rewrite Hxor. monad.
    unfold _process. monad.
    rewrite _process_loop_turn. fields. rewrite Hwaiting. fields.
    fold buffered.
    replace (size MAGIC <=? size buffered) with true
      by (symmetry; apply Z.leb_le; exact Hlong).
    unfold _parse. monad. fields. rewrite Hstate.
    unfold _parseMagic, take. monad. fields. fold buffered.
    replace (size buffered <? size MAGIC) with false
      by (symmetry; apply Z.ltb_ge; exact Hlong).
    change (Z.to_nat (size MAGIC)) with 4%nat.
    unfold equals.
    destruct (list_eq_dec byte_eq_dec (firstn 4 buffered) MAGIC)
      as [Heq | _]; [contradiction |].
    reflexivity.
Qed.

End Magic.

(** ** Bytes that arrive later

    [fed more x acks s] is the session [s] with [more] appended to what is
    buffered, the inbound keystream at [x] and the write callbacks [acks]
    called: what a later [_write] changes before it parses. *)

Definition fed (more : bytes) (x : option XorInstance)
  (acks : list (Callback * option Exn)) (s : Stream) : Stream :=
  upd_node (fun n => set_called (called n ++ acks) n)
    (upd_parser (fun p =>
       set__xor {| xor_self := xor_self (_xor p); xor_remote := x |}
         (set__pending (_pending p ++ more) p)) s).

(** [this._pending.push(data)]. *)
Definition buffer (data : bytes) (s : Stream) : Stream :=
  upd_parser (fun p => set__pending (_pending p ++ data) p) s.

Lemma fed_buffer (more : bytes) (s : Stream) :
  fed more (xor_remote (_xor (parser s))) [] s = buffer more s.
Proof.
  unfold fed, buffer.
  destruct s as [p fk f pk ch sec hc sc d no rm q nd].
  destruct p as [pid [xs xr] pp pst pw pv pg ppa].
  destruct nd as [n1 n2 n3 n4 n5 n6 n7]. records.
  rewrite app_nil_r. reflexivity.
Qed.

Section Lengths.

Context `{Env}.

Lemma _parseLength_loop_more part more x acks s s' :
  _parseLength_loop part s = (s', Ok false) ->
  _parseLength_loop (part ++ more) (fed more x acks s) =
  _parseLength_loop more (fed more x acks s').
Proof.
  revert s. induction part as [| b part IH]; intros s.
  - intros [= <-]. reflexivity.
  - cbn [app]. rewrite !_parseLength_loop_step. cbn zeta.
    change (read_byte b (part ++ more) (fed more x acks s))
      with (fed more x acks (read_byte b part s)).
    change (varint_shift (_varint (parser (fed more x acks
                                             (read_byte b part s)))))
      with (varint_shift (_varint (parser (read_byte b part s)))).
    destruct (25 <=? _); [discriminate |].
    destruct (byte_val b <? 128).
    { destruct (MAX_PENDING_SIZE <? _); discriminate. }
    apply IH.
Qed.

Lemma _parseLength_loop_done part more x acks s s' :
  _parseLength_loop part s = (s', Ok true) ->
  _parseLength_loop (part ++ more) (fed more x acks s) =
  (fed more x acks s', Ok true).
Proof.
  revert s. induction part as [| b part IH]; intros s.
  - discriminate.
  - cbn [app]. rewrite !_parseLength_loop_step. cbn zeta.
    change (read_byte b (part ++ more) (fed more x acks s))
      with (fed more x acks (read_byte b part s)).
    change (varint_shift (_varint (parser (fed more x acks
                                             (read_byte b part s)))))
      with (varint_shift (_varint (parser (read_byte b part s)))).
    change (varint_value (_varint (parser (fed more x acks
                                             (read_byte b part s)))))
      with (varint_value (_varint (parser (read_byte b part s)))).
    destruct (25 <=? _); [discriminate |].
    destruct (byte_val b <? 128).
    + destruct (MAX_PENDING_SIZE <? _); [discriminate |].
      intros [= <-]. reflexivity.
    + apply IH.
Qed.

Lemma _parseLength_loop_starved part s s' :
  _parseLength_loop part s = (s', Ok false) ->
  _pending (parser s) = part ->
  _pending (parser s') = [] /\
  _state (parser s') = _state (parser s) /\
  _waiting (parser s') = _waiting (parser s) /\
  _xor (parser s') = _xor (parser s).
Proof.
  revert s. induction part as [| b part IH]; intros s.
  - intros [= <-] Hp. auto.
  - rewrite _parseLength_loop_step. cbn zeta.
    destruct (25 <=? _); [discriminate |].
    destruct (byte_val b <? 128).
    { destruct (MAX_PENDING_SIZE <? _); discriminate. }
    intros Hloop _. apply IH in Hloop; [| reflexivity].
    exact Hloop.
Qed.

(** X2.  When [_parseLength] runs out of bytes before the end of a length
    it returns [false], with nothing left buffered and the state and
    [_waiting] as they were; what it has read stays in [_varint], and
    called again when more bytes have been pushed it goes on exactly as
    if all of them had been there the first time. *)
Theorem parseLength_resumes (more : bytes) (s s' : Stream) :
  _parseLength s = (s', Ok false) ->
  _pending (parser s') = [] /\
  _state (parser s') = _state (parser s) /\
  _waiting (parser s') = _waiting (parser s) /\
  _parseLength (buffer more s') = _parseLength (buffer more s).
Proof.
  unfold _parseLength at 1. unfold bind, get. intros Hloop.
  destruct (_parseLength_loop_starved _ s s' Hloop eq_refl)
    as (Hpending & Hstate & Hwaiting & Hxor).
  repeat split; try assumption.
  rewrite <- (fed_buffer more s), <- (fed_buffer more s').
  unfold _parseLength, bind, get.
  change (_pending (parser (fed more ?x [] ?t)))
    with (_pending (parser t) ++ more).
  rewrite Hpending, Hxor. cbn [app]. symmetry.
  apply _parseLength_loop_more. exact Hloop.
Qed.

End Lengths.

(** ** An [Open] that is refused *)

(** The parser after [_parseOpen] has thrown: it has taken the body and
    set the state to [paused], and nothing more. *)
Definition refused (rest : bytes) (s : Stream) : Stream :=
  upd_parser (fun p =>
    set__waiting Infinity (set__state paused (set__pending rest p))) s.

Section Refused.

Context `{Env}.

(** X3.  [_parseOpen] refuses an [Open] that does not decode, whose feed
    is not [HASH_SIZE] bytes ("Invalid feed size", checked first) or whose
    nonce is not [NONCE_SIZE] bytes ("Invalid nonce size").  No [open]
    event is emitted and [_onOpen] does not run; the parser is left in
    [paused] waiting for [Infinity] bytes, so whatever is written
    afterwards is buffered and never parsed. *)
Theorem open_refused (s : Stream) (body rest : bytes) :
  _state (parser s) = open_body ->
  _waiting (parser s) = Fin (size body) ->
  _pending (parser s) = body ++ rest ->
  (pb_decode_Open body = None ->
   _parse s = (refused rest s, Throw E_DECODE)) /\
  (forall open : Open,
     pb_decode_Open body = Some open ->
     size (open_feed open) <> HASH_SIZE ->
     _parse s = (refused rest s, Throw E_FEED_SIZE)) /\
  (forall open : Open,
     pb_decode_Open body = Some open ->
     size (open_feed open) = HASH_SIZE ->
     size (open_nonce open) <> NONCE_SIZE ->
     _parse s = (refused rest s, Throw E_NONCE_SIZE)) /\
  node (refused rest s) = node s /\
  (forall (data : bytes) (turns : nat),
     _process_loop turns (buffer data (refused rest s)) =
     (buffer data (refused rest s), Ok None)).
Proof.
  intros Hstate Hwaiting Hpending.
  assert (Hparse : _parse s =
    (open <- decoded (pb_decode_Open body) ;;
     if negb (size (open_feed open) =? HASH_SIZE) then throw E_FEED_SIZE
     else if negb (size (open_nonce open) =? NONCE_SIZE)
     then throw E_NONCE_SIZE
     else
       en <- get (fun s => paused_enabled (_paused (parser s))) ;;
       assert (negb en) "!this._paused.enabled" ;;
       all <- get (fun s => _pending (parser s)) ;;
       pending <- take (Fin (size all)) ;;
       modify (upd_parser (fun p =>
         set__paused {| paused_enabled := true;
                        paused_pending := Some pending;
                        paused_callback := paused_callback (_paused p) |}
           p)) ;;
       emit_open open ;;
       ret true) (refused rest s)).
  { unfold _parse, bind at 1, get at 1. rewrite Hstate.
    unfold _parseOpen. unfold bind at 1, get at 1. rewrite Hwaiting.
    unfold bind at 1. rewrite (take_front body rest s Hpending).
    unfold bind at 1, _setState at 1, modify at 1.
    reflexivity. }
  rewrite Hparse.
  split; [| split; [| split; [| split]]].
  - intros Hnone. rewrite Hnone. reflexivity.
  - intros open Hopen Hfeed. rewrite Hopen.
    apply Z.eqb_neq in Hfeed.
    unfold bind at 1, decoded, ret. rewrite Hfeed. reflexivity.
  - intros open Hopen Hfeed Hnonce. rewrite Hopen.
    apply Z.eqb_eq in Hfeed. apply Z.eqb_neq in Hnonce.
    unfold bind at 1, decoded, ret. rewrite Hfeed, Hnonce. reflexivity.
  - reflexivity.
  - intros data [| turns]; reflexivity.
Qed.

End Refused.

(** ** The loop of [_process], as a loop

    [looped s s' caught]: started in [s], the [while] loop of [_process]
    ends in [s'], having caught the exception [caught] or none. *)

Section Loop.

Context `{Env}.

Inductive looped : Stream -> Stream -> option Exn -> Prop :=
| looped_waiting (s : Stream) :
    geb_num (size (_pending (parser s))) (_waiting (parser s)) = false ->
    looped s s None
| looped_break (s s' : Stream) :
    geb_num (size (_pending (parser s))) (_waiting (parser s)) = true ->
    _parse s = (s', Ok false) ->
    looped s s' None
| looped_catch (s s' : Stream) (e : Exn) :
    geb_num (size (_pending (parser s))) (_waiting (parser s)) = true ->
    _parse s = (s', Throw e) ->
    looped s s' (Some e)
| looped_again (s s' s'' : Stream) (caught : option Exn) :
    geb_num (size (_pending (parser s))) (_waiting (parser s)) = true ->
    _parse s = (s', Ok true) ->
    looped s' s'' caught ->
    looped s s'' caught.

Lemma looped_from_rank (n : nat) :
  forall s : Stream, rank s = n ->
  exists (s' : Stream) (caught : option Exn),
    looped s s' caught /\
    forall turns : nat, (rank s < turns)%nat ->
      _process_loop turns s = (s', Ok caught).
Proof.
  induction n as [n IH] using lt_wf_ind. intros s Hrank.
  destruct (geb_num (size (_pending (parser s))) (_waiting (parser s)))
    eqn:Hgeb.
  - destruct (_parse s) as [s' [[|] | e]] eqn:Hparse.
    + pose proof (_parse_lowers_rank s s' Hparse) as Hlower.
      destruct (IH (rank s') ltac:(lia) s' eq_refl)
        as (s'' & caught & Hlooped & Hturns).
      exists s'', caught. split.
      * exact (looped_again s s' s'' caught Hgeb Hparse Hlooped).
      * intros [| turns] Hlt; [lia |].
        rewrite _process_loop_S, Hgeb, Hparse. apply Hturns. lia.
    + exists s', None. split.
      * exact (looped_break s s' Hgeb Hparse).
      * intros [| turns] Hlt; [lia |].
        rewrite _process_loop_S, Hgeb, Hparse. reflexivity.
    + exists s', (Some e). split.
      * exact (looped_catch s s' e Hgeb Hparse).
      * intros [| turns] Hlt; [lia |].
        rewrite _process_loop_S, Hgeb, Hparse. reflexivity.
  - exists s, None. split.
    + exact (looped_waiting s Hgeb).
    + intros [| turns] Hlt; [lia |].
      rewrite _process_loop_S, Hgeb. reflexivity.
Qed.

(** X4.  The [while] loop of [_process] ends, whatever the state and
    whatever is buffered: every [_parse] that returns [true] has taken
    bytes from the buffer or moved the state forward, so the loop takes at
    most [3 * length pending + 3] turns, and [_process] gives the result
    of that loop. *)
Theorem process_loop_ends (s : Stream) :
  exists (s' : Stream) (caught : option Exn),
    looped s s' caught /\
    _process_loop (S (rank s)) s = (s', Ok caught) /\
    (rank s <= 3 * length (_pending (parser s)) + 2)%nat.
Proof.
  destruct (looped_from_rank (rank s) s eq_refl)
    as (s' & caught & Hlooped & Hturns).
  exists s', caught.
  split; [exact Hlooped |]. split; [apply Hturns; lia |].
  unfold rank. destruct (_state (parser s)); lia.
Qed.

(** *** What stays buffered *)

(** The handlers leave the parser's own fields alone. *)
Definition parser_kept (s t : Stream) : Prop :=
  _pending (parser t) = _pending (parser s) /\
  _state (parser t) = _state (parser s) /\
  _waiting (parser t) = _waiting (parser s) /\
  _varint (parser t) = _varint (parser s) /\
  _gotHandshake (parser t) = _gotHandshake (parser s) /\
  _paused (parser t) = _paused (parser s).

Lemma dispatch_parser_kept type payload s :
  parser_kept s (fst (dispatch type payload s)).
Proof.
  apply (dispatch_handler (parser_kept s)); try (intros; assumption).
  repeat split.
Qed.

Lemma emit_open_parser_kept open s :
  parser_kept s (fst (emit_open open s)).
Proof.
  apply (emit_open_handler (parser_kept s)); try (intros; assumption).
  repeat split.
Qed.

(** The parser waits for a number of bytes it accepts, or is paused with
    nothing buffered. *)
Definition within_bound (s : Stream) : Prop :=
  match _waiting (parser s) with
  | Fin w => w <= MAX_PENDING_SIZE
  | Infinity => _pending (parser s) = []
  end.

Lemma _parseLength_loop_bound pending s s' :
  _parseLength_loop pending s = (s', Ok true) -> within_bound s'.
Proof.
  revert s. induction pending as [| b pending IH]; intros s.
  - discriminate.
  - rewrite _parseLength_loop_step. cbn zeta.
    destruct (25 <=? _); [discriminate |].
    destruct (byte_val b <? 128).
    + destruct (MAX_PENDING_SIZE <? _) eqn:Hmax; [discriminate |].
      intros [= <-]. unfold within_bound. cbn.
      apply Z.ltb_ge in Hmax. exact Hmax.
    + apply IH.
Qed.

Lemma _parse_within_bound s s' :
  _parse s = (s', Ok true) -> within_bound s'.
Proof.
  unfold _parse, bind at 1, get at 1.
  assert (Hbody : _parse_body s = (s', Ok true) -> within_bound s').
  { unfold _parse_body. monad.
    destruct (_waiting (parser s)) as [w |]; unfold take; monad;
      [| discriminate].
    destruct (size (_pending (parser s)) <? w); monad; [discriminate |].
    destruct (varint_decode _) as [[id offset] |]; monad; [| discriminate].
    destruct (type_of_id id) as [type |]; monad.
    - destruct (negb _ && negb _); monad; [discriminate |].
      destruct (_ && _); monad; [discriminate |].
      match goal with
      | |- context [dispatch type ?payload ?mid] =>
          pose proof (dispatch_parser_kept type payload mid)
            as (_ & _ & Hd & _);
          destruct (dispatch type payload mid) as [s'' [[] | e]]
      end; monad; [| discriminate].
      intros [= <-]. unfold within_bound. cbn [fst] in Hd. rewrite Hd.
      fields. unfold MAX_PENDING_SIZE. lia.
    - intros [= <-]. unfold within_bound. cbn. unfold MAX_PENDING_SIZE. lia. }
  destruct (_state (parser s)) eqn:Hstate; try exact Hbody.
  - (* magic *)
    unfold _parseMagic, take. monad.
    destruct (size (_pending (parser s)) <? size MAGIC); monad;
      [discriminate |].
    destruct (negb _); monad; [discriminate |].
    intros [= <-]. unfold within_bound. cbn. unfold MAX_PENDING_SIZE. lia.
  - unfold _parseLength, bind, get. apply _parseLength_loop_bound.
  - (* open:body *)
    unfold _parseOpen, take. monad.
    destruct (_waiting (parser s)) as [w |]; monad; [| discriminate].
    destruct (size (_pending (parser s)) <? w); monad; [discriminate |].
    destruct (pb_decode_Open _) as [open |]; monad; [| discriminate].
    destruct (negb (size (open_feed open) =? HASH_SIZE)); monad;
      [discriminate |].
    destruct (negb (size (open_nonce open) =? NONCE_SIZE)); monad;
      [discriminate |].
    destruct (negb (paused_enabled _)); monad; [| discriminate].
    fields. rewrite Z.ltb_irrefl. monad.
    match goal with
    | |- context [emit_open open ?mid] =>
        pose proof (emit_open_parser_kept open mid)
          as (Hp & _ & Hw & _);
        destruct (emit_open open mid) as [s'' [[] | e]]
    end; monad; [| discriminate].
    intros [= <-]. unfold within_bound. cbn [fst] in Hw, Hp.
    rewrite Hw, Hp. fields.
    unfold size. rewrite Nat2Z.id. apply skipn_all.
  - unfold _parseLength, bind, get. apply _parseLength_loop_bound.
Qed.

(** Only [_parseLength] returns [false]. *)
Lemma _parse_false s s' :
  _parse s = (s', Ok false) -> _parseLength s = (s', Ok false).
Proof.
  unfold _parse, bind at 1, get at 1.
  assert (Hbody : _parse_body s = (s', Ok false) ->
                  _parseLength s = (s', Ok false)).
  { unfold _parse_body, take. monad.
    destruct (_waiting (parser s)) as [w |]; monad; [| discriminate].
    destruct (size (_pending (parser s)) <? w); monad; [discriminate |].
    destruct (varint_decode _) as [[id offset] |]; monad; [| discriminate].
    destruct (type_of_id id) as [type |]; monad; [| discriminate].
    destruct (negb _ && negb _); monad; [discriminate |].
    destruct (_ && _); monad; [discriminate |].
    match goal with
    | |- context [dispatch type ?payload ?mid] =>
        destruct (dispatch type payload mid) as [s'' [[] | e]]
    end; monad; discriminate. }
  destruct (_state (parser s)); try exact Hbody; try (intros Hp; exact Hp).
  - unfold _parseMagic, take. monad.
    destruct (_ <? _); monad; [discriminate |].
    destruct (negb _); monad; discriminate.
  - unfold _parseOpen, take. monad.
    destruct (_waiting (parser s)) as [w |]; monad; [| discriminate].
    destruct (size (_pending (parser s)) <? w); monad; [discriminate |].
    destruct (pb_decode_Open _) as [open |]; monad; [| discriminate].
    destruct (negb (size (open_feed open) =? HASH_SIZE)); monad;
      [discriminate |].
    destruct (negb (size (open_nonce open) =? NONCE_SIZE)); monad;
      [discriminate |].
    destruct (negb (paused_enabled _)); monad; [| discriminate].
    fields. rewrite Z.ltb_irrefl. monad.
    match goal with
    | |- context [emit_open open ?mid] =>
        destruct (emit_open open mid) as [s'' [[] | e]]
    end; monad; discriminate.
Qed.

(** X5.  When the parser waits for a number of bytes it accepts, or is
    paused with nothing buffered, and the loop of [_process] ends without
    an exception, fewer than [MAX_PENDING_SIZE] bytes are left in the
    buffer: the check "Message is too big" that follows the loop does not
    fire. *)
Theorem pending_stays_bounded (s s' : Stream) :
  within_bound s ->
  _process_loop (S (rank s)) s = (s', Ok None) ->
  size (_pending (parser s')) < MAX_PENDING_SIZE /\ within_bound s'.
Proof.
  remember (rank s) as n eqn:Hrank. revert s Hrank.
  induction n as [n IH] using lt_wf_ind. intros s -> Hbound.
  rewrite _process_loop_turn.
  destruct (geb_num (size (_pending (parser s))) (_waiting (parser s)))
    eqn:Hgeb.
  - destruct (_parse s) as [s1 [[|] | e]] eqn:Hparse.
    + apply (IH (rank s1)); [| reflexivity |].
      * apply _parse_lowers_rank. exact Hparse.
      * apply (_parse_within_bound s). exact Hparse.
    + intros [= <-].
      pose proof (_parse_false s s1 Hparse) as Hlength.
      unfold _parseLength, bind, get in Hlength.
      destruct (_parseLength_loop_starved _ s s1 Hlength eq_refl)
        as (Hpending & _ & Hwaiting & _).
      split.
      * rewrite Hpending. unfold MAX_PENDING_SIZE. cbn. lia.
      * unfold within_bound in *. rewrite Hwaiting, Hpending.
        destruct (_waiting (parser s)); [exact Hbound | reflexivity].
    + discriminate.
  - intros [= <-]. split; [| exact Hbound].
    unfold within_bound in Hbound.
    destruct (_waiting (parser s)) as [w |].
    + cbn in Hgeb. apply Z.leb_gt in Hgeb. lia.
    + rewrite Hbound. unfold MAX_PENDING_SIZE. cbn. lia.
Qed.

End Loop.

(** ** [start] *)

Section Start.

Context `{Env}.

(** The feed a session announces: [options.discoveryKey], or the hash of
    the feed key when there is none. *)
Definition feed_of (options : StartOptions) (feedKey : bytes) : bytes :=
  match opt_discoveryKey options with
  | Some discoveryKey => discoveryKey
  | None => _hash feedKey
  end.

(** The session after a [start] that went through. *)
Definition begun (options : StartOptions) (feedKey privateKey : bytes)
  (links : list bytes) (nonce : bytes) (s : Stream) : Stream :=
  let feed := feed_of options feedKey in
  let body := pb_encode (BOpen {| open_feed := feed; open_nonce := nonce |}) in
  upd_node (fun n =>
    set_nextTick
      (nextTick n ++
       match _startCallback s with
       | Some open => [TStartCallback open]
       | None => []
       end)
      (set_pushed (pushed n ++ [MAGIC ++ varint_encode (size body) ++ body])
         n))
    (upd_parser (fun p =>
       set__xor {| xor_self := Some {| xor_nonce := nonce;
                                       xor_key := feedKey; xor_pos := 0 |};
                   xor_remote := xor_remote (_xor p) |} p)
       (set__nonce {| nonce_remote := nonce_remote (_nonce s);
                      nonce_local := Some nonce;
                      nonce_hash := nonce_hash (_nonce s);
                      nonce_reverseHash := nonce_reverseHash (_nonce s) |}
          (set__hyperchain (Some feedKey)
             (set_chain (Some links)
                (set_privateKey (Some privateKey)
                   (set_feed (Some feed)
                      (set_feedKey (Some feedKey) s))))))).

Lemma start_begun (options : StartOptions) (nonce : bytes) (s : Stream)
  (feedKey privateKey : bytes) (links : list bytes) :
  opt_feedKey options = Some feedKey ->
  size feedKey = PUBLIC_KEY_SIZE ->
  opt_privateKey options = Some privateKey ->
  size privateKey = PRIVATE_KEY_SIZE ->
  opt_chain options = Some links ->
  size links <= MAX_CHAIN_LENGTH ->
  size (feed_of options feedKey) = HASH_SIZE ->
  hyperchain_verify feedKey links EMPTY_HASH
    (signatures_sign EMPTY_HASH privateKey) = true ->
  start options nonce s =
  (begun options feedKey privateKey links nonce s, Ok tt).
Proof.
  intros Hfk Hfksize Hsk Hsksize Hlinks Hshort Hfeed Hverify.
  apply Z.eqb_eq in Hfksize, Hsksize, Hfeed. apply Z.leb_le in Hshort.
  unfold begun.
  destruct s as [p fk f pk ch sec hc sc d no rm q nd].
  destruct p as [pid px pp pst pw pv pg ppa].
  destruct nd as [n1 n2 n3 n4 n5 n6 n7].
  unfold start. rewrite Hfk, Hsk, Hlinks. cbn [is_some].
  monad. rewrite Hfksize, Hsksize, Hshort. monad.
  fold (feed_of options feedKey). rewrite Hfeed. monad.
  unfold chain_verify. monad. records. rewrite Hverify. monad.
  unfold _open, Type_encodingLength, encodingLength, push. monad.
  cbn [required_present]. monad. records.
  unfold process_nextTick.
  destruct sc as [open |]; monad; records; rewrite ?app_nil_r; reflexivity.
Qed.

(** X6.  A [start] that throws has put nothing on the wire: the readable
    side, the events, the [nextTick] queue, the parser with both
    keystreams, the nonces, the send queue and [secure] are as they
    were. *)
Theorem start_failure_sends_nothing (options : StartOptions) (nonce : bytes)
  (s s' : Stream) (e : Exn) :
  start options nonce s = (s', Throw e) ->
  node s' = node s /\ parser s' = parser s /\ _nonce s' = _nonce s /\
  _queue s' = _queue s /\ secure s' = secure s /\ _remote s' = _remote s /\
  _startCallback s' = _startCallback s /\ _destroyed s' = _destroyed s.
Proof.
  destruct s as [p fk f pk ch sec hc sc d no rm q nd].
  destruct p as [pid px pp pst pw pv pg ppa].
  destruct nd as [n1 n2 n3 n4 n5 n6 n7].
  destruct options as [[fk' |] [sk' |] [ch' |] dk];
    unfold start, chain_verify, _open, Type_encodingLength, encodingLength,
      push, process_nextTick;
    cbn [opt_feedKey opt_privateKey opt_chain opt_discoveryKey is_some
         required_present];
    monad; records;
    repeat (match goal with
            | |- context [if ?b then _ else _] => destruct b
            | |- context [match ?o with Some _ => _ | None => _ end] =>
                destruct o
            end; monad; records);
    try discriminate;
    intros [= <- _]; repeat split; reflexivity.
Qed.

(** X7.  A [start] whose options pass the checks puts one chunk on the
    wire, in clear: [MAGIC], the length of the [Open] message as a varint
    and the [Open] message, which carries [options.discoveryKey] (the hash
    of the feed key when there is none) and the fresh nonce.  The outbound
    keystream is keyed with that nonce and the feed key and stands at 0;
    the closure of an [Open] that came before [start] is handed to
    [process.nextTick]; the parser is not touched. *)
Theorem start_sends_open (options : StartOptions) (nonce : bytes)
  (s : Stream) (feedKey privateKey : bytes) (links : list bytes) :
  opt_feedKey options = Some feedKey ->
  size feedKey = PUBLIC_KEY_SIZE ->
  opt_privateKey options = Some privateKey ->
  size privateKey = PRIVATE_KEY_SIZE ->
  opt_chain options = Some links ->
  size links <= MAX_CHAIN_LENGTH ->
  size (feed_of options feedKey) = HASH_SIZE ->
  hyperchain_verify feedKey links EMPTY_HASH
    (signatures_sign EMPTY_HASH privateKey) = true ->
  exists s' : Stream,
    start options nonce s = (s', Ok tt) /\
    (let body :=
       pb_encode (BOpen {| open_feed := feed_of options feedKey;
                           open_nonce := nonce |}) in
     pushed (node s') =
       pushed (node s) ++ [MAGIC ++ varint_encode (size body) ++ body]) /\
    xor_self (_xor (parser s')) =
      Some {| xor_nonce := nonce; xor_key := feedKey; xor_pos := 0 |} /\
    xor_remote (_xor (parser s')) = xor_remote (_xor (parser s)) /\
    nextTick (node s') =
      nextTick (node s) ++
      match _startCallback s with
      | Some open => [TStartCallback open]
      | None => []
      end /\
    emitted (node s') = emitted (node s) /\
    _state (parser s') = _state (parser s) /\
    _pending (parser s') = _pending (parser s) /\
    chain s' = Some links /\ secure s' = secure s.
Proof.
  intros Hfk Hfksize Hsk Hsksize Hlinks Hshort Hfeed Hverify.
  exists (begun options feedKey privateKey links nonce s).
  split.
  - apply start_begun; assumption.
  - repeat split.
Qed.

End Start.

(** ** The peer's [Open], whatever follows it *)

Section Opened.

Context `{Env}.

(** An [Open] as it travels, and what the codecs must do for the parser
    to read it. *)
Definition open_frame (open : Open) : bytes :=
  MAGIC ++ varint_encode (size (pb_encode (BOpen open))) ++
  pb_encode (BOpen open).

Definition open_wellformed (open : Open) : Prop :=
  size (open_feed open) = HASH_SIZE /\
  size (open_nonce open) = NONCE_SIZE /\
  length_readable (size (pb_encode (BOpen open))) /\
  pb_decode_Open (pb_encode (BOpen open)) = Some open.

(** A started session that has been written [open] with [rest] behind it
    in one chunk: paused, [rest] set aside still encrypted, the callback
    of the write held back. *)
Definition open_held (id fk sk : bytes) (links : list bytes)
  (local : bytes) (open : Open) (rest : bytes) (cb : nat) : Stream :=
  session id fk sk links
    {| xor_self := Some (keystream fk local 0); xor_remote := None |}
    paused Infinity
    {| paused_enabled := true; paused_pending := Some rest;
       paused_callback := Some (WriteCb cb) |}
    {| nonce_remote := None; nonce_local := Some local;
       nonce_hash := None; nonce_reverseHash := None |}
    {| pushed := [open_chunk fk local];
       emitted := [EvOpen open];
       once_open := false;
       nextTick := [TStartCallback open];
       called := []; debugged := []; sent := [] |}.

Lemma write_open_behind id fk sk links local open rest cb :
  open_wellformed open ->
  _write (open_frame open ++ rest) (WriteCb cb)
         (started id fk sk links local) =
  (open_held id fk sk links local open rest cb, Ok tt).
Proof.
  intros (Hfeed & Hnonce & (Hterm & Hlen & Hvalue & Hsmall) & Hdecode).
  set (body := pb_encode (BOpen open)) in *.
  assert (Hchunk : open_frame open ++ rest =
                   MAGIC ++ varint_encode (size body) ++ body ++ rest).
  { unfold open_frame. fold body. rewrite <- !app_assoc. reflexivity. }
  unfold _write, started, session. monad. fields. rewrite Hchunk.
  unfold _process at 1. monad.
  (* magic *)
  rewrite _process_loop_turn. fields.
  rewrite size_app.
  replace (size MAGIC <=? size MAGIC + _) with true
    by (symmetry; apply Z.leb_le;
        pose proof (size_nonneg (varint_encode (size body) ++ body ++ rest));
        lia).
  erewrite _parse_magic; [| reflexivity | reflexivity].
  (* open:length *)
  rewrite _process_loop_turn. fields.
  rewrite size_app.
  replace (1 <=? _) with true
    by (symmetry; apply Z.leb_le; pose proof (terminated_size _ Hterm);
        pose proof (size_nonneg (body ++ rest)); lia).
  erewrite _parse_length;
    [| left; reflexivity | reflexivity | reflexivity | exact Hterm
     | exact Hlen | rewrite Hvalue; exact Hsmall].
  rewrite Hvalue.
  (* open:body *)
  rewrite _process_loop_turn. unfold accepted at 1 2. fields.
  rewrite size_app.
  replace (size body <=? _) with true
    by (symmetry; apply Z.leb_le; pose proof (size_nonneg rest); lia).
  erewrite (_parse_open _ body rest (_hash fk) open);
    [| reflexivity | reflexivity | reflexivity | exact Hdecode
     | exact Hfeed | exact Hnonce | reflexivity | reflexivity | reflexivity].
  (* paused *)
  rewrite _process_loop_turn. unfold opened at 1 2. fields.
  monad. unfold opened, accepted. fields.
  reflexivity.
Qed.

(** The session that has sent its [Handshake] and reads messages, no
    write acknowledged yet. *)
Definition handshake_out (id fk sk : bytes) (links : list bytes)
  (local remote : bytes) : Stream :=
  session id fk sk links
    {| xor_self :=
         Some (keystream fk local
                 (length (frame messages.id.HANDSHAKE
                            (BHandshake
                               (sent_handshake id sk links local remote)))));
       xor_remote := Some (keystream fk remote 0) |}
    msg_length (Fin 1) not_paused
    {| nonce_remote := None; nonce_local := None;
       nonce_hash := Some (_hash (local ++ remote));
       nonce_reverseHash := Some (_hash (remote ++ local)) |}
    {| pushed := [open_chunk fk local;
                  handshake_chunk fk id sk links local remote];
       emitted := [EvOpen (sent_open fk remote)];
       once_open := false;
       nextTick := [];
       called := [];
       debugged := [];
       sent := [report messages.id.HANDSHAKE
                  (BHandshake (sent_handshake id sk links local remote))] |}.

Lemma tick_resumes id fk sk links local remote rest cb :
  step Tick (open_held id fk sk links local (sent_open fk remote) rest cb) =
  _write rest (WriteCb cb) (handshake_out id fk sk links local remote).
Proof.
  unfold step, open_held, session. monad. fields.
  unfold run_task, _onOpen_callback. monad. fields.
  unfold sent_open at 1. cbn [open_feed open_nonce].
  rewrite equals_refl. fields. monad. fields.
  unfold _handshake. monad. fields.
  erewrite _send_ok; [| reflexivity | reflexivity].
  unfold _resumeParsing. monad. unfold sent_frame. fields.
  unfold xor_update at 1. fields.
  unfold _write, handshake_out, session. monad. fields.
  unfold xor_update at 2. fields.
  reflexivity.
Qed.

(** X8.  Bytes that arrive in one chunk with the peer's [Open], behind it,
    are set aside, still encrypted, while the session is paused; when the
    closure of [_onOpen] has sent the [Handshake] they are decrypted from
    the start of the peer's keystream and parsed, exactly as if they had
    been written on their own to the session that has sent its
    [Handshake], and the callback of the write is called after that. *)
Theorem bytes_behind_open (id fk sk : bytes) (links : list bytes)
  (local remote rest : bytes) (cb : nat) :
  open_readable fk remote ->
  size (_hash fk) = HASH_SIZE ->
  run [Write (open_chunk fk remote ++ rest) cb; Tick]
      (started id fk sk links local) =
  fst (_write rest (WriteCb cb)
         (handshake_out id fk sk links local remote)).
Proof.
  intros (Hnonce & Hlength & Hdecode) Hfeed.
  cbn [run].
  change (step (Write (open_chunk fk remote ++ rest) cb))
    with (_write (open_frame (sent_open fk remote) ++ rest) (WriteCb cb)).
  rewrite (write_open_behind id fk sk links local (sent_open fk remote)
             rest cb);
    [| exact (conj Hfeed (conj Hnonce (conj Hlength Hdecode)))].
  cbn [fst]. rewrite tick_resumes. reflexivity.
Qed.

(** The session after the closure of [_onOpen] has found another feed in
    the peer's [Open]. *)
Definition mismatched (id fk sk : bytes) (links : list bytes)
  (local : bytes) (open : Open) (rest : bytes) (cb : nat) : Stream :=
  session id fk sk links
    {| xor_self := Some (keystream fk local 0); xor_remote := None |}
    paused Infinity
    {| paused_enabled := true; paused_pending := Some rest;
       paused_callback := Some (WriteCb cb) |}
    {| nonce_remote := None; nonce_local := Some local;
       nonce_hash := None; nonce_reverseHash := None |}
    {| pushed := [open_chunk fk local];
       emitted := [EvOpen open; EvError E_FEED];
       once_open := false;
       nextTick := [];
       called := []; debugged := []; sent := [] |}.

(** X9.  A peer on another feed: when the [Open] that arrives is well
    formed but names a feed other than the session's own, the closure of
    [_onOpen] emits the error "Feed mismatch" and does nothing else.  No
    [Handshake] is sent, no nonce is paired and no inbound keystream is
    set up; the parser stays paused, so later writes are never parsed,
    and the callback of the write that brought the [Open] is never
    called. *)
Theorem feed_mismatch_stalls (id fk sk : bytes) (links : list bytes)
  (local : bytes) (open : Open) (rest : bytes) (cb : nat) :
  open_wellformed open ->
  open_feed open <> _hash fk ->
  run [Write (open_frame open ++ rest) cb; Tick]
      (started id fk sk links local) =
  mismatched id fk sk links local open rest cb /\
  (forall (data : bytes) (turns : nat),
     _process_loop turns
       (buffer data (mismatched id fk sk links local open rest cb)) =
     (buffer data (mismatched id fk sk links local open rest cb), Ok None)).
Proof.
  intros Hopen Hfeed. split.
  - cbn [run].
    change (step (Write (open_frame open ++ rest) cb))
      with (_write (open_frame open ++ rest) (WriteCb cb)).
    rewrite (write_open_behind id fk sk links local open rest cb Hopen).
    cbn [fst].
    unfold step, open_held, session. monad. fields.
    unfold run_task, _onOpen_callback. monad. fields.
    unfold equals.
    destruct (list_eq_dec byte_eq_dec (open_feed open) (_hash fk))
      as [Heq | _]; [contradiction |].
    reflexivity.
  - intros data [| turns]; reflexivity.
Qed.

End Opened.

(** ** An [Open] that arrives before [start] *)

Section Early.

Context `{Env}.

(** The session once [Open] has been decoded before [start]: paused, the
    closure of [_onOpen] kept in [_startCallback]. *)
Definition opened_early (open : Open) (rest : bytes) (s : Stream) : Stream :=
  set__startCallback (Some open)
    (upd_node (fun n =>
       set_emitted (emitted n ++ [EvOpen open]) (set_once_open false n))
       (upd_parser (fun p =>
          set__paused {| paused_enabled := true;
                         paused_pending := Some rest;
                         paused_callback := paused_callback (_paused p) |}
            (set__pending []
              (set__waiting Infinity (set__state paused p)))) s)).

Lemma _parse_open_early (s : Stream) (body rest : bytes) (open : Open) :
  _state (parser s) = open_body ->
  _waiting (parser s) = Fin (size body) ->
  _pending (parser s) = body ++ rest ->
  pb_decode_Open body = Some open ->
  size (open_feed open) = HASH_SIZE ->
  size (open_nonce open) = NONCE_SIZE ->
  paused_enabled (_paused (parser s)) = false ->
  once_open (node s) = true ->
  feed s = None ->
  _parse s = (opened_early open rest s, Ok true).
Proof.
  intros Hstate Hwaiting Hpending Hopen Hfeed Hnonce Hpaused Honce Hstarted.
  unfold _parse, bind at 1, get at 1. rewrite Hstate.
  unfold _parseOpen. unfold bind at 1, get at 1. rewrite Hwaiting.
  unfold bind at 1. rewrite (take_front body rest s Hpending).
  unfold bind at 1, _setState at 1, modify at 1.
  rewrite Hopen. unfold bind at 1, decoded at 1, ret at 1.
  apply Z.eqb_eq in Hfeed, Hnonce. rewrite Hfeed, Hnonce. cbn [negb].
  unfold bind at 1, get at 1.
  cbn [parser _paused upd_parser set_parser set__waiting set__state
       set__pending].
  rewrite Hpaused. cbn [negb assert]. unfold bind at 1, ret at 1.
  unfold bind at 1, get at 1.
  set (mid := upd_parser _ (upd_parser (set__pending rest) s)).
  unfold bind at 1. rewrite (take_all mid).
  unfold bind at 1, modify at 1.
  unfold emit_open, _onOpen, _onStart, emit, process_nextTick.
  monad.
  subst mid.
  cbn [node parser upd_parser upd_node set_parser set_node once_open feed
       set_once_open _pending set__waiting set__state set__pending].
  rewrite Honce. cbv beta iota.
  cbn [feed upd_parser upd_node set_parser set_node].
  rewrite Hstarted. cbn [is_some].
  unfold opened_early.
  destruct s as [p fk f pk ch sec hc sc d no rm q nd].
  destruct p as [pid px pp pst pw pv pg ppa].
  destruct nd as [n1 n2 n3 n4 n5 n6 n7]. reflexivity.
Qed.

(** A new session that has been written [open]. *)
Definition open_early (id : bytes) (open : Open) (cb : nat) : Stream :=
  opened_early open []
    (upd_parser (set__paused {| paused_enabled := false;
                                paused_pending := None;
                                paused_callback := Some (WriteCb cb) |})
       (new_Stream id)).

Lemma write_open_early id open cb :
  open_wellformed open ->
  _write (open_frame open) (WriteCb cb) (new_Stream id) =
  (open_early id open cb, Ok tt).
Proof.
  intros (Hfeed & Hnonce & (Hterm & Hlen & Hvalue & Hsmall) & Hdecode).
  set (body := pb_encode (BOpen open)) in *.
  unfold _write, new_Stream. monad. fields. unfold open_frame. fold body.
  unfold _process at 1. monad.
  (* magic *)
  rewrite _process_loop_turn. fields.
  rewrite size_app.
  replace (size MAGIC <=? size MAGIC + _) with true
    by (symmetry; apply Z.leb_le;
        pose proof (size_nonneg (varint_encode (size body) ++ body)); lia).
  erewrite _parse_magic; [| reflexivity | reflexivity].
  (* open:length *)
  rewrite _process_loop_turn. fields.
  rewrite size_app.
  replace (1 <=? _) with true
    by (symmetry; apply Z.leb_le; pose proof (terminated_size _ Hterm);
        pose proof (size_nonneg body); lia).
  erewrite _parse_length;
    [| left; reflexivity | reflexivity | reflexivity | exact Hterm
     | exact Hlen | rewrite Hvalue; exact Hsmall].
  rewrite Hvalue.
  (* open:body *)
  rewrite _process_loop_turn. unfold accepted at 1 2. fields.
  rewrite Z.leb_refl.
  erewrite (_parse_open_early _ body [] open);
    [| reflexivity | reflexivity | symmetry; apply app_nil_r | exact Hdecode
     | exact Hfeed | exact Hnonce | reflexivity | reflexivity | reflexivity].
  (* paused *)
  rewrite _process_loop_turn. unfold opened_early at 1 2. fields.
  monad. unfold open_early, opened_early, accepted. fields.
  reflexivity.
Qed.

(** X10.  [start] and the arrival of the peer's [Open] may come in either
    order.  When the [Open] comes first the closure of [_onOpen] waits in
    [_startCallback] and [start] hands it to [process.nextTick]; after
    the tick the session has sent the same [Open] and the same
    [Handshake], has paired the same hashes and reads messages, as when
    it was started first.  The two sessions differ in [_startCallback]
    alone, which [start] does not clear. *)
Theorem start_after_open (id fk sk : bytes) (links : list bytes)
  (local remote : bytes) (cb : nat) :
  honest fk sk links ->
  open_readable fk remote ->
  run [Write (open_chunk fk remote) cb;
       Api (call_start (credentials fk sk links) local); Tick]
      (new_Stream id) =
  set__startCallback (Some (sent_open fk remote))
    (run [Api (call_start (credentials fk sk links) local);
          Write (open_chunk fk remote) cb; Tick]
         (new_Stream id)).
Proof.
  intros Hhonest Hopen.
  pose proof Hhonest as (Hfk & Hsk & Hlinks & Hfeed & Hverify).
  pose proof Hopen as (Hnonce & Hlength & Hdecode).
  (* started first *)
  change (run [Api (call_start (credentials fk sk links) local);
               Write (open_chunk fk remote) cb; Tick] (new_Stream id))
    with (run [Write (open_chunk fk remote) cb; Tick]
              (run [Api (call_start (credentials fk sk links) local)]
                   (new_Stream id))).
  rewrite (run_start id fk sk links local Hhonest).
  rewrite (run_open id fk sk links local remote cb Hhonest Hopen).
  (* written first *)
  cbn [run].
  change (step (Write (open_chunk fk remote) cb))
    with (_write (open_frame (sent_open fk remote)) (WriteCb cb)).
  rewrite (write_open_early id (sent_open fk remote) cb);
    [| exact (conj Hfeed (conj Hnonce (conj Hlength Hdecode)))].
  cbn [fst step api].
  rewrite (start_begun (credentials fk sk links) local _ fk sk links);
    try reflexivity; try assumption.
  cbn [fst].
  unfold begun, open_early, opened_early, new_Stream, feed_of, credentials.
  cbn [opt_discoveryKey]. records. cbn [app].
  unfold step. monad. fields.
  unfold run_task, _onOpen_callback. monad. fields.
  rewrite equals_refl. fields. monad. fields.
  unfold _handshake. monad. fields.
  erewrite _send_ok; [| reflexivity | reflexivity].
  unfold _resumeParsing. monad. unfold sent_frame. fields.
  unfold xor_update at 1. fields.
  unfold _process. monad.
  rewrite _process_loop_turn. fields.
  unfold call. monad. fields.
  reflexivity.
Qed.

End Early.

(** ** Chain updates *)

Section Links.

Context `{Env}.

(** X11.  A [Link] that [_onLink] goes through with either changes
    nothing, or replaces the chain by the remote chain followed by the
    link: that chain has passed the verification against the session's
    own private key, is strictly shorter than the one it replaces, and is
    announced by one [chain-update] event.  Once that has happened every
    further [Link] is ignored: a session takes at most one chain update
    from its peer. *)
Theorem link_taken_once (body : Link) (s s' : Stream) :
  _onLink body s = (s', Ok tt) ->
  s' = s \/
  exists (local remote : list bytes) (root key : bytes),
    chain s = Some local /\
    remote_chain (_remote s) = Some remote /\
    _hyperchain s = Some root /\
    privateKey s = Some key /\
    hyperchain_verify root (remote ++ [link_link body]) EMPTY_HASH
      (signatures_sign EMPTY_HASH key) = true /\
    size (remote ++ [link_link body]) < size local /\
    s' = upd_node (fun n =>
           set_emitted
             (emitted n ++ [EvChainUpdate (remote ++ [link_link body])]) n)
           (set_chain (Some (remote ++ [link_link body])) s) /\
    forall body' : Link, _onLink body' s' = (s', Ok tt).
Proof.
  unfold _onLink at 1, chain_verify, emit.
  unfold bind, get, deref, ret, throw, modify.
  destruct (chain s) as [local |] eqn:Hlocal; [| discriminate].
  destruct (remote_chain (_remote s)) as [remote |] eqn:Hremote;
    [| discriminate].
  destruct (size local - 1 <=? size remote) eqn:Hguard.
  { intros [= <-]. left. reflexivity. }
  destruct (privateKey s) as [key |] eqn:Hkey; [| discriminate].
  destruct (_hyperchain s) as [root |] eqn:Hroot; [| discriminate].
  destruct (hyperchain_verify _ _ _ _) eqn:Hverify; [| discriminate].
  intros [= <-]. right. exists local, remote, root, key.
  apply Z.leb_gt in Hguard.
  assert (Hshorter : size (remote ++ [link_link body]) < size local).
  { unfold size in *. rewrite length_app. cbn [length]. lia. }
  repeat split; try assumption.
  intros body'.
  unfold _onLink, bind, get, deref, ret.
  cbn [chain upd_node set_node set_chain _remote].
  rewrite Hremote.
  replace (size (remote ++ [link_link body]) - 1 <=? size remote) with true;
    [reflexivity |].
  symmetry. apply Z.leb_le. unfold size. rewrite length_app. cbn [length]. lia.
Qed.

End Links.

(** ** From [_send] to the [message] event *)

Section Delivery.

Context `{Env}.

(** What [_parse] decodes for the types it hands to the [message] event:
    [sync], [filter-options] and [request]. *)
Definition message_of (type : MsgType) (payload : bytes) : option Body :=
  match type with
  | Tsync => option_map BSync (pb_decode_Sync payload)
  | Tfilter_options =>
      option_map BFilterOptions (pb_decode_FilterOptions payload)
  | Trequest => option_map BRequest (pb_decode_Request payload)
  | Thandshake | Tdata | Tlink => None
  end.

Lemma dispatch_message type payload received s :
  message_of type payload = Some received ->
  dispatch type payload s =
  (upd_node (fun n =>
     set_emitted (emitted n ++ [EvMessage type received]) n) s, Ok tt).
Proof.
  destruct type; cbn [message_of]; try discriminate;
    unfold dispatch, decoded, emit, bind, ret, modify;
    match goal with
    | |- option_map _ ?o = _ -> _ => destruct o as [b |]
    end; cbn [option_map]; try discriminate; intros [= <-]; reflexivity.
Qed.

(** The types [_parse] hands to the [message] event. *)
Definition announced (type : MsgType) : bool :=
  match type with
  | Tsync | Tfilter_options | Trequest => true
  | Thandshake | Tdata | Tlink => false
  end.

Lemma dispatch_rejected type payload s :
  announced type = true ->
  message_of type payload = None ->
  dispatch type payload s = (s, Throw E_DECODE).
Proof.
  destruct type; cbn [announced message_of]; try discriminate; intros _;
    unfold dispatch, decoded, emit, bind, ret, modify, throw;
    match goal with
    | |- option_map _ ?o = _ -> _ => destruct o as [b |]
    end; cbn [option_map]; try discriminate; reflexivity.
Qed.

(** A session that has taken the peer's [Handshake] and waits for the
    length of the next frame, its inbound keystream at [x]. *)
Definition listening (x : XorInstance) (s : Stream) : Prop :=
  _state (parser s) = msg_length /\
  _waiting (parser s) = Fin 1 /\
  _varint (parser s) = {| varint_value := 0; varint_shift := 0 |} /\
  _pending (parser s) = [] /\
  _gotHandshake (parser s) = true /\
  paused_enabled (_paused (parser s)) = false /\
  xor_remote (_xor (parser s)) = Some x.

(** The listening session after a message has come in with [chunk]. *)
Definition delivered (type : MsgType) (received : Body) (x : XorInstance)
  (chunk : bytes) (cb : Callback) (s : Stream) : Stream :=
  acknowledged cb None
    (upd_node (fun n =>
       set_emitted (emitted n ++ [EvMessage type received])
         (set_debugged (debugged n ++ [type]) n))
       (upd_parser (fun p =>
          set__xor {| xor_self := xor_self (_xor p);
                      xor_remote := Some (snd (xor_update x chunk)) |} p) s)).

(** The listening session after a message has come in with [chunk] and
    its body has been refused by the decoder. *)
Definition rejected (type : MsgType) (x : XorInstance) (chunk : bytes)
  (cb : Callback) (s : Stream) : Stream :=
  acknowledged cb (Some E_DECODE)
    (upd_node (fun n => set_debugged (debugged n ++ [type]) n)
       (upd_parser (fun p =>
          set__xor {| xor_self := xor_self (_xor p);
                      xor_remote := Some (snd (xor_update x chunk)) |} p) s)).

Lemma frame_arrives (id : Z) (type : MsgType) (content : Body)
  (x : XorInstance) (n : nat) (s : Stream) :
  type_of_id id = Some type ->
  announced type = true ->
  length_readable (varint_encodingLength id + size (pb_encode content)) ->
  varint_decode (varint_encode id ++ pb_encode content)
    = Some (id, length (varint_encode id)) ->
  listening x s ->
  _write (fst (xor_update x (frame id content))) (WriteCb n) s =
  (match message_of type (pb_encode content) with
   | Some received =>
       delivered type received x (fst (xor_update x (frame id content)))
         (WriteCb n) s
   | None =>
       rejected type x (fst (xor_update x (frame id content))) (WriteCb n) s
   end, Ok tt).
Proof.
  intros Htype Hannounced (Hterm & Hlen & Hvalue & Hsmall) Hid
         (Hstate & Hwaiting & Hvarint & Hpending & Hgot & Hpaused & Hxor).
  destruct s as [p fk f pk ch sec hc sc d no rm q nd].
  destruct p as [pid [xs xr] pp pst pw pv pg [pe ppe pc]].
  destruct nd as [n1 n2 n3 n4 n5 n6 n7].
  cbn in Hstate, Hwaiting, Hvarint, Hpending, Hgot, Hpaused, Hxor.
  subst pst pw pv pp pg pe xr.
  set (msg := varint_encode id ++ pb_encode content) in *.
  assert (Hmsg : varint_encodingLength id + size (pb_encode content)
                 = size msg).
  { unfold msg, varint_encodingLength. rewrite size_app. reflexivity. }
  rewrite Hmsg in *.
  assert (Hframe : frame id content = varint_encode (size msg) ++ msg).
  { unfold frame. cbv zeta. rewrite Hmsg. reflexivity. }
  rewrite Hframe.
  unfold delivered, rejected, acknowledged.
  unfold _write. monad. fields.
  unfold xor_update at 1 2 3 4 5. cbn [fst snd].
  rewrite xor_from_involutive.
  records. cbn [app].
  unfold _process. monad.
  (* msg:length *)
  rewrite _process_loop_turn. fields.
  rewrite size_app.
  replace (1 <=? _) with true
    by (symmetry; apply Z.leb_le; pose proof (terminated_size _ Hterm);
        pose proof (size_nonneg msg); lia).
  erewrite _parse_length;
    [| right; reflexivity | reflexivity | reflexivity | exact Hterm
     | exact Hlen | rewrite Hvalue; exact Hsmall].
  rewrite Hvalue.
  (* msg:body *)
  rewrite _process_loop_turn. states.
  rewrite Z.leb_refl.
  erewrite (_parse_body_eq _ msg []);
    [| reflexivity | reflexivity | symmetry; apply app_nil_r].
  rewrite Hid, Htype. states.
  assert (Hnot : MsgType_eqb type Thandshake = false).
  { destruct type; try reflexivity. discriminate. }
  rewrite Hnot. cbn [andb negb].
  replace (skipn (length (varint_encode id)) msg)
    with (pb_encode content)
    by (unfold msg; rewrite skipn_app, skipn_all, Nat.sub_diag;
        reflexivity).
  monad.
  destruct (message_of type (pb_encode content)) as [received |]
    eqn:Hmessage.
  - rewrite (dispatch_message type (pb_encode content) received _ Hmessage).
    (* the loop ends *)
    rewrite _process_loop_turn. states.
    unfold call. monad. records.
    reflexivity.
  - rewrite (dispatch_rejected type (pb_encode content) _ Hannounced
               Hmessage).
    (* the loop ends, on the exception *)
    unfold call. monad. records.
    reflexivity.
Qed.

(** X12.  A [sync], [filter-options] or [request] message that a secure
    session sends goes out as one encrypted chunk.  Written to a session
    that waits for a frame with its inbound keystream where the sender's
    outbound one stood, the chunk is consumed entirely, and what happens
    next is decided by the decoder of the message type.  When it accepts
    the encoded body, the session emits one [message] event with the type
    and what the decoder has made of the body, and acknowledges the
    write.  When it refuses the body, no event is emitted and the
    callback of the write gets the error of the decoder; this is the lot
    of every [filter-options] message under the decoder compiled from the
    schema, where both fields of [FilterOptions] have tag 1.  Either way
    the session waits for the next frame, its inbound keystream again
    where the sender's outbound one stands. *)
Theorem message_delivered (sender receiver : Stream) (x : XorInstance)
  (id : Z) (type : MsgType) (content : Body)
  (callback : option Callback) (n : nat) :
  secure sender = true ->
  xor_self (_xor (parser sender)) = Some x ->
  required_present content = true ->
  type_of_id id = Some type ->
  announced type = true ->
  length_readable (varint_encodingLength id + size (pb_encode content)) ->
  varint_decode (varint_encode id ++ pb_encode content)
    = Some (id, length (varint_encode id)) ->
  listening x receiver ->
  exists (sender' : Stream) (chunk : bytes),
    _secureSend id content callback sender = (sender', Ok tt) /\
    pushed (node sender') = pushed (node sender) ++ [chunk] /\
    xor_self (_xor (parser sender')) = Some (snd (xor_update x chunk)) /\
    match message_of type (pb_encode content) with
    | Some received =>
        _write chunk (WriteCb n) receiver =
        (delivered type received x chunk (WriteCb n) receiver, Ok tt) /\
        listening (snd (xor_update x chunk))
          (delivered type received x chunk (WriteCb n) receiver)
    | None =>
        _write chunk (WriteCb n) receiver =
        (rejected type x chunk (WriteCb n) receiver, Ok tt) /\
        emitted (node (rejected type x chunk (WriteCb n) receiver)) =
          emitted (node receiver) /\
        listening (snd (xor_update x chunk))
          (rejected type x chunk (WriteCb n) receiver)
    end.
Proof.
  intros Hsecure Hx Hreq Htype Hannounced Hlength Hid Hlistening.
  exists (sent_frame id content callback x sender),
         (fst (xor_update x (frame id content))).
  split; [apply _secureSend_secure; assumption |].
  split; [reflexivity |].
  split.
  { unfold sent_frame, xor_update. cbn. rewrite xor_from_length.
    reflexivity. }
  pose proof (frame_arrives id type content x n receiver Htype Hannounced
                Hlength Hid Hlistening) as Hwrite.
  destruct Hlistening
    as (Hstate & Hwaiting & Hvarint & Hpending & Hgot & Hpaused & Hxor).
  destruct (message_of type (pb_encode content)) as [received |].
  - split; [exact Hwrite |]. repeat split; assumption.
  - split; [exact Hwrite |]. split; [reflexivity |].
    repeat split; assumption.
Qed.

End Delivery.

(** ** A frame in two writes

    [commutes f m]: the method [m] neither reads nor writes what the
    update [f] changes, so it may run before [f] or after it. *)

Definition commutes (f : Stream -> Stream) {A} (m : M A) : Prop :=
  forall s, m (f s) = (f (fst (m s)), snd (m s)).

Lemma commutes_ret f {A} (a : A) : commutes f (ret a).
Proof. intros s. reflexivity. Qed.

Lemma commutes_throw f {A} (e : Exn) : commutes f (@throw A e).
Proof. intros s. reflexivity. Qed.

Lemma commutes_get f {A} (g : Stream -> A) :
  (forall s, g (f s) = g s) -> commutes f (get g).
Proof. intros Hg s. unfold get. rewrite Hg. reflexivity. Qed.

Lemma commutes_modify f (h : Stream -> Stream) :
  (forall s, h (f s) = f (h s)) -> commutes f (modify h).
Proof. intros Hh s. unfold modify. rewrite Hh. reflexivity. Qed.

Lemma commutes_bind f {A B} (m : M A) (k : A -> M B) :
  commutes f m -> (forall a, commutes f (k a)) -> commutes f (bind m k).
Proof.
  intros Hm Hk s. unfold bind. rewrite Hm.
  destruct (m s) as [s' [a | e]]; cbn [fst snd].
  - apply Hk.
  - reflexivity.
Qed.

Create HintDb commuting.

Ltac commuting_step :=
  match goal with
  | |- commutes _ (bind _ _) => apply commutes_bind; [| intros ?]
  | |- commutes _ (ret _) => apply commutes_ret
  | |- commutes _ (throw _) => apply commutes_throw
  | |- commutes _ (get _) => apply commutes_get; intros ?; reflexivity
  | |- commutes _ (modify _) =>
      apply commutes_modify; intros ?; reflexivity
  | |- commutes _ (if ?b then _ else _) => destruct b
  | |- commutes _ (match ?o with _ => _ end) => destruct o
  | |- commutes _ _ => solve [auto with commuting]
  end.

Ltac commuting :=
  unfold _secureSend; unfold _send;
  unfold chain_verify, Type_encodingLength, decoded, debug_send, push, emit,
    process_nextTick, debug, _setState, deref, assert, xor_update;
  repeat commuting_step.

Section Split.

Context `{Env}.

Variable more : bytes.
Variable x : option XorInstance.
Variable acks : list (Callback * option Exn).

Lemma forEach_queue_fed queue :
  commutes (fed more x acks) (forEach_queue queue).
Proof.
  induction queue as [| q queue IH]; cbn [forEach_queue]; commuting.
Qed.

Hint Resolve forEach_queue_fed : commuting.

Lemma _onHandshake_fed body : commutes (fed more x acks) (_onHandshake body).
Proof. unfold _onHandshake. commuting. Qed.

Lemma _onLink_fed body : commutes (fed more x acks) (_onLink body).
Proof. unfold _onLink. commuting. Qed.

Hint Resolve _onHandshake_fed _onLink_fed : commuting.

Lemma dispatch_fed type payload :
  commutes (fed more x acks) (dispatch type payload).
Proof. unfold dispatch, _onData. commuting. Qed.

(** [_parse] after the frame body has been taken. *)
Definition parse_taken (msg : bytes) : M bool :=
  _setState msg_length (Fin 1) ;;
  match varint_decode msg with
  | None => throw (RangeError "Could not decode varint")
  | Some (id, offset) =>
      match type_of_id id with
      | None => ret true
      | Some type =>
          got <- get (fun s => _gotHandshake (parser s)) ;;
          if negb got && negb (MsgType_eqb type Thandshake) then
            throw E_HANDSHAKE_FIRST
          else if got && MsgType_eqb type Thandshake then
            throw E_HANDSHAKE_ONCE
          else
            debug type ;;
            modify (upd_parser (set__gotHandshake true)) ;;
            dispatch type (skipn offset msg) ;;
            ret true
      end
  end.

Lemma _parse_body_taken :
  _parse_body =
  (w <- get (fun s => _waiting (parser s)) ;;
   msg <- take w ;;
   parse_taken msg).
Proof. reflexivity. Qed.

Hint Resolve dispatch_fed : commuting.

Lemma parse_taken_fed msg : commutes (fed more x acks) (parse_taken msg).
Proof. unfold parse_taken. commuting. Qed.

Lemma take_fed w s :
  w <= size (_pending (parser s)) ->
  take (Fin w) (fed more x acks s) =
  (fed more x acks (fst (take (Fin w) s)), snd (take (Fin w) s)).
Proof.
  intros Hw.
  assert (Hn : (Z.to_nat w <= length (_pending (parser s)))%nat)
    by (unfold size in Hw; lia).
  unfold take, bind, get, modify, ret.
  change (_pending (parser (fed more x acks s)))
    with (_pending (parser s) ++ more).
  replace (size (_pending (parser s) ++ more) <? w) with false
    by (symmetry; apply Z.ltb_ge; rewrite size_app;
        pose proof (size_nonneg more); lia).
  replace (size (_pending (parser s)) <? w) with false
    by (symmetry; apply Z.ltb_ge; exact Hw).
  cbn [fst snd].
  rewrite firstn_app, skipn_app.
  replace (Z.to_nat w - length (_pending (parser s)))%nat with 0%nat by lia.
  cbn [firstn skipn]. rewrite app_nil_r.
  reflexivity.
Qed.

Lemma _parse_body_fed w s :
  _waiting (parser s) = Fin w ->
  w <= size (_pending (parser s)) ->
  _parse_body (fed more x acks s) =
  (fed more x acks (fst (_parse_body s)), snd (_parse_body s)).
Proof.
  intros Hwaiting Hw.
  rewrite _parse_body_taken.
  unfold bind at 1 3 5, get at 1 2 3.
  change (_waiting (parser (fed more x acks s))) with (_waiting (parser s)).
  rewrite Hwaiting.
  unfold bind. rewrite (take_fed w s Hw).
  destruct (take (Fin w) s) as [s1 [msg | e]]; cbn [fst snd].
  - rewrite (parse_taken_fed msg s1).
    destruct (parse_taken msg s1) as [s2 r]. reflexivity.
  - reflexivity.
Qed.

End Split.

Section Framing.

Context `{Env}.

(** The parser reads messages: it is past the peer's [Open], and while
    it waits for a length it waits for one byte. *)
Definition framing (s : Stream) : Prop :=
  messaging (_state (parser s)) = true /\
  (_state (parser s) = msg_length -> _waiting (parser s) = Fin 1).

(** What no [_parse] of a message changes: the pause and the inbound
    keystream. *)
Definition quiet (s t : Stream) : Prop :=
  _paused (parser t) = _paused (parser s) /\
  xor_remote (_xor (parser t)) = xor_remote (_xor (parser s)).

Lemma forEach_queue_quiet s0 queue :
  preserves (quiet s0) (forEach_queue queue).
Proof.
  induction queue as [| q queue IH]; cbn [forEach_queue];
    unfold _secureSend; unfold _send;
    unfold Type_encodingLength, debug_send, push, process_nextTick,
      xor_update;
    kept_method.
Qed.

Lemma _parse_body_quiet s0 : preserves (quiet s0) _parse_body.
Proof.
  pose proof (forEach_queue_quiet s0).
  unfold _parse_body, take, _setState, debug, dispatch, decoded,
    _onHandshake, _onLink, _onData, chain_verify, emit.
  unfold _secureSend; unfold _send;
    unfold Type_encodingLength, debug_send, push, process_nextTick,
      xor_update.
  kept_method.
Qed.

Lemma _parseLength_loop_quiet s0 pending s :
  quiet s0 s -> quiet s0 (fst (_parseLength_loop pending s)).
Proof.
  revert s. induction pending as [| b pending IH]; intros s Hs.
  - exact Hs.
  - rewrite _parseLength_loop_step. cbn zeta.
    destruct (25 <=? _); [exact Hs |].
    destruct (byte_val b <? 128).
    + destruct (MAX_PENDING_SIZE <? _); exact Hs.
    + apply IH. exact Hs.
Qed.

Lemma _parse_quiet s : framing s -> quiet s (fst (_parse s)).
Proof.
  intros [Hmessaging _]. unfold _parse, bind at 1, get at 1.
  destruct (_state (parser s)); try discriminate.
  - unfold _parseLength, bind, get. apply _parseLength_loop_quiet.
    split; reflexivity.
  - apply _parse_body_quiet. split; reflexivity.
Qed.

Lemma _parse_body_done s s' :
  _parse_body s = (s', Ok true) ->
  _state (parser s') = msg_length /\ _waiting (parser s') = Fin 1.
Proof.
  unfold _parse_body, take. monad.
  destruct (_waiting (parser s)) as [w |]; monad; [| discriminate].
  destruct (size (_pending (parser s)) <? w); monad; [discriminate |].
  destruct (varint_decode _) as [[id offset] |]; monad; [| discriminate].
  destruct (type_of_id id) as [type |]; monad.
  - destruct (negb _ && negb _); monad; [discriminate |].
    destruct (_ && _); monad; [discriminate |].
    match goal with
    | |- context [dispatch type ?payload ?mid] =>
        pose proof (dispatch_parser_kept type payload mid)
          as (_ & Hst & Hw & _);
        destruct (dispatch type payload mid) as [s'' [[] | e]]
    end; monad; [| discriminate].
    intros [= <-]. cbn [fst] in Hst, Hw. rewrite Hst, Hw.
    split; reflexivity.
  - intros [= <-]. split; reflexivity.
Qed.

Lemma _parse_body_never_false s s' : _parse_body s <> (s', Ok false).
Proof.
  unfold _parse_body, take. monad.
  destruct (_waiting (parser s)) as [w |]; monad; [| discriminate].
  destruct (size (_pending (parser s)) <? w); monad; [discriminate |].
  destruct (varint_decode _) as [[id offset] |]; monad; [| discriminate].
  destruct (type_of_id id) as [type |]; monad; [| discriminate].
  destruct (negb _ && negb _); monad; [discriminate |].
  destruct (_ && _); monad; [discriminate |].
  match goal with
  | |- context [dispatch type ?payload ?mid] =>
      destruct (dispatch type payload mid) as [s'' [[] | e]]
  end; monad; discriminate.
Qed.

Lemma _parse_framing s s' :
  framing s -> _parse s = (s', Ok true) -> framing s'.
Proof.
  intros [Hmessaging Hone]. unfold _parse, bind at 1, get at 1.
  destruct (_state (parser s)) eqn:Hstate; try discriminate.
  - unfold _parseLength, bind, get. intros Hloop.
    apply _parseLength_loop_consumes in Hloop. destruct Hloop as [_ Hst].
    rewrite Hstate in Hst. cbn in Hst.
    split; rewrite Hst; [reflexivity | discriminate].
  - intros Hbody. apply _parse_body_done in Hbody.
    destruct Hbody as [Hst Hw]. split; rewrite Hst; [reflexivity |].
    intros _. exact Hw.
Qed.

Lemma looped_quiet s s' caught :
  looped s s' caught -> framing s -> quiet s s'.
Proof.
  induction 1 as [s Hgeb | s s' Hgeb Hparse | s s' e Hgeb Hparse
                 | s s' s'' caught Hgeb Hparse Hlooped IH];
    intros Hframing.
  - split; reflexivity.
  - pose proof (_parse_quiet s Hframing) as Hq. rewrite Hparse in Hq.
    exact Hq.
  - pose proof (_parse_quiet s Hframing) as Hq. rewrite Hparse in Hq.
    exact Hq.
  - pose proof (_parse_quiet s Hframing) as Hq. rewrite Hparse in Hq.
    cbn [fst] in Hq.
    destruct (IH (_parse_framing s s' Hframing Hparse)) as [Hp Hx].
    destruct Hq as [Hp' Hx'].
    split; [rewrite Hp; exact Hp' | rewrite Hx; exact Hx'].
Qed.

Variable more : bytes.
Variable x : option XorInstance.
Variable acks : list (Callback * option Exn).

Lemma geb_fed s :
  geb_num (size (_pending (parser s))) (_waiting (parser s)) = true ->
  geb_num (size (_pending (parser (fed more x acks s))))
          (_waiting (parser (fed more x acks s))) = true.
Proof.
  change (_pending (parser (fed more x acks s)))
    with (_pending (parser s) ++ more).
  change (_waiting (parser (fed more x acks s))) with (_waiting (parser s)).
  destruct (_waiting (parser s)) as [w |]; cbn [geb_num]; [| discriminate].
  intros Hw. apply Z.leb_le in Hw. apply Z.leb_le.
  rewrite size_app. pose proof (size_nonneg more). lia.
Qed.

Lemma _parse_fed s s' :
  framing s ->
  geb_num (size (_pending (parser s))) (_waiting (parser s)) = true ->
  _parse s = (s', Ok true) ->
  _parse (fed more x acks s) = (fed more x acks s', Ok true).
Proof.
  intros [Hmessaging _] Hgeb.
  unfold _parse, bind at 1 2, get at 1 2.
  change (_state (parser (fed more x acks s))) with (_state (parser s)).
  destruct (_state (parser s)); try discriminate.
  - unfold _parseLength, bind, get. intros Hloop.
    change (_pending (parser (fed more x acks s)))
      with (_pending (parser s) ++ more).
    apply _parseLength_loop_done. exact Hloop.
  - destruct (_waiting (parser s)) as [w |] eqn:Hwaiting;
      cbn [geb_num] in Hgeb; [| discriminate].
    apply Z.leb_le in Hgeb. intros Hbody.
    rewrite (_parse_body_fed more x acks w s Hwaiting Hgeb), Hbody.
    reflexivity.
Qed.

Lemma looped_fed s s1 caught :
  looped s s1 caught -> caught = None -> framing s ->
  _process_loop (S (rank (fed more x acks s))) (fed more x acks s) =
  _process_loop (S (rank (fed more x acks s1))) (fed more x acks s1).
Proof.
  induction 1 as [s Hgeb | s s' Hgeb Hparse | s s' e Hgeb Hparse
                 | s s' s'' caught Hgeb Hparse Hlooped IH];
    intros Hnone Hframing.
  - reflexivity.
  - (* only a length runs out of bytes *)
    destruct Hframing as [Hmessaging Hone].
    assert (Hstate : _state (parser s) = msg_length).
    { revert Hparse. unfold _parse, bind at 1, get at 1.
      destruct (_state (parser s)); try discriminate; [reflexivity |].
      intros Hbody. exfalso. exact (_parse_body_never_false s s' Hbody). }
    assert (Hloop : _parseLength_loop (_pending (parser s)) s = (s', Ok false)).
    { revert Hparse. unfold _parse, bind at 1, get at 1. rewrite Hstate.
      intros Hp. exact Hp. }
    destruct (_parseLength_loop_starved _ s s' Hloop eq_refl)
      as (Hpending & Hstate' & Hwaiting' & _).
    assert (Hparse' : _parse (fed more x acks s) =
                      _parseLength_loop more (fed more x acks s')).
    { unfold _parse, bind at 1, get at 1.
      change (_state (parser (fed more x acks s))) with (_state (parser s)).
      rewrite Hstate. unfold _parseLength, bind, get.
      change (_pending (parser (fed more x acks s)))
        with (_pending (parser s) ++ more).
      apply _parseLength_loop_more. exact Hloop. }
    assert (Hparse'' : _parse (fed more x acks s') =
                       _parseLength_loop more (fed more x acks s')).
    { unfold _parse, bind at 1, get at 1.
      change (_state (parser (fed more x acks s')))
        with (_state (parser s')).
      rewrite Hstate', Hstate. unfold _parseLength, bind, get.
      change (_pending (parser (fed more x acks s')))
        with (_pending (parser s') ++ more).
      rewrite Hpending. reflexivity. }
    rewrite !_process_loop_turn.
    rewrite (geb_fed s Hgeb), Hparse', Hparse''.
    change (_pending (parser (fed more x acks s')))
      with (_pending (parser s') ++ more).
    change (_waiting (parser (fed more x acks s')))
      with (_waiting (parser s')).
    rewrite Hpending, Hwaiting', (Hone Hstate). cbn [app geb_num].
    destruct more as [| b more'] eqn:Hmore.
    + reflexivity.
    + replace (1 <=? size (b :: more')) with true
        by (symmetry; apply Z.leb_le; unfold size; cbn [length]; lia).
      reflexivity.
  - discriminate.
  - rewrite _process_loop_turn.
    rewrite (geb_fed s Hgeb), (_parse_fed s s' Hframing Hgeb Hparse).
    apply IH; [exact Hnone |].
    exact (_parse_framing s s' Hframing Hparse).
Qed.

End Framing.

Section InTwo.

Context `{Env}.

Lemma xor_from_app nonce key pos (a b : bytes) :
  xor_from nonce key pos (a ++ b) =
  xor_from nonce key pos a ++ xor_from nonce key (pos + length a) b.
Proof.
  revert pos. induction a as [| c a IH]; intros pos; cbn [app xor_from length].
  - rewrite Nat.add_0_r. reflexivity.
  - rewrite IH. rewrite <- Nat.add_succ_comm. reflexivity.
Qed.

Lemma xor_update_app x0 (a b : bytes) :
  xor_update x0 (a ++ b) =
  (fst (xor_update x0 a) ++ fst (xor_update (snd (xor_update x0 a)) b),
   snd (xor_update (snd (xor_update x0 a)) b)).
Proof.
  unfold xor_update. cbn [fst snd xor_nonce xor_key xor_pos].
  rewrite xor_from_app, length_app, Nat.add_assoc. reflexivity.
Qed.

Lemma fed_acknowledged more x cb err s :
  fed more x [] (acknowledged cb err s) = fed more x [(cb, err)] s.
Proof.
  unfold fed, acknowledged.
  destruct s as [p fk f pk ch sec hc sc d no rm q nd].
  destruct p as [pid [xs xr] pp pst pw pv pg ppa].
  destruct nd as [n1 n2 n3 n4 n5 n6 n7]. records.
  rewrite app_nil_r. reflexivity.
Qed.

Lemma fed_fed more x acks more' x' acks' s :
  fed more' x' acks' (fed more x acks s) =
  fed (more ++ more') x' (acks ++ acks') s.
Proof.
  unfold fed.
  destruct s as [p fk f pk ch sec hc sc d no rm q nd].
  destruct p as [pid [xs xr] pp pst pw pv pg ppa].
  destruct nd as [n1 n2 n3 n4 n5 n6 n7]. records.
  rewrite <- !app_assoc. reflexivity.
Qed.

(** [_process] is the loop, then the checks that follow it. *)
Definition after_loop (cb : Callback) (caught : option Exn) : M unit :=
  match caught with
  | Some e => call cb (Some e)
  | None =>
      p <- get (fun s => _pending (parser s)) ;;
      if MAX_PENDING_SIZE <=? size p then
        call cb (Some E_TOO_BIG)
      else
        pa <- get (fun s => _paused (parser s)) ;;
        if paused_enabled pa then
          assert (negb (is_some (paused_callback pa)))
                 "this._paused.callback === null" ;;
          modify (upd_parser (fun p =>
            set__paused {| paused_enabled := paused_enabled (_paused p);
                           paused_pending := paused_pending (_paused p);
                           paused_callback := Some cb |} p))
        else call cb None
  end.

Lemma _process_after_loop cb s :
  _process cb s =
  match _process_loop (S (rank s)) s with
  | (s', Ok caught) => after_loop cb caught s'
  | (s', Throw e) => (s', Throw e)
  end.
Proof. reflexivity. Qed.

(** What [_write] does before it parses. *)
Definition received (data : bytes) (s : Stream) : Stream :=
  match xor_remote (_xor (parser s)) with
  | Some x =>
      fed (fst (xor_update x data)) (Some (snd (xor_update x data))) [] s
  | None => fed data None [] s
  end.

Lemma _write_received data cb s :
  _write data cb s = _process cb (received data s).
Proof.
  unfold _write, received. monad.
  destruct s as [p fk f pk ch sec hc sc d no rm q nd].
  destruct p as [pid [xs [xr |]] pp pst pw pv pg ppa];
    destruct nd as [n1 n2 n3 n4 n5 n6 n7];
    unfold fed, xor_update; records; cbn [fst snd];
    rewrite app_nil_r; reflexivity.
Qed.

(** X13.  How the transport cuts the bytes does not matter to a session
    that reads messages.  When a write has been acknowledged without an
    error, writing the bytes that follow leaves the session exactly as
    one write of all the bytes would have, the first acknowledgement
    apart: the same frames are parsed, the same events emitted, the same
    frames sent in response, and the second callback is called with the
    same result. *)
Theorem write_in_two (s : Stream) (first second : bytes) (n1 n2 : nat) :
  messaging (_state (parser s)) = true ->
  (_state (parser s) = msg_length -> _waiting (parser s) = Fin 1) ->
  paused_enabled (_paused (parser s)) = false ->
  called (node (fst (_write first (WriteCb n1) s))) =
    called (node s) ++ [(WriteCb n1, None)] ->
  _write second (WriteCb n2) (fst (_write first (WriteCb n1) s)) =
  _write (first ++ second) (WriteCb n2) (acknowledged (WriteCb n1) None s).
Proof.
  intros Hmessaging Hone Hpaused Hcalled.
  set (b0 := received first s).
  assert (Hframing : framing b0).
  { unfold b0, received, framing.
    destruct (xor_remote (_xor (parser s))); split; assumption. }
  destruct (looped_from_rank (rank b0) b0 eq_refl)
    as (b1 & caught & Hlooped & Hturns).
  pose proof (Hturns (S (rank b0)) (Nat.lt_succ_diag_r _)) as Hloop.
  destruct (looped_quiet b0 b1 caught Hlooped Hframing) as [Hp Hx].
  (* the first write ended without an error *)
  assert (Hfirst : _write first (WriteCb n1) s =
                   (acknowledged (WriteCb n1) None b1, Ok tt) /\
                   caught = None).
  { rewrite _write_received. fold b0. rewrite _process_after_loop, Hloop.
    rewrite _write_received in Hcalled. fold b0 in Hcalled.
    rewrite _process_after_loop, Hloop in Hcalled.
    assert (Hsame : called (node b0) = called (node s)).
    { unfold b0, received.
      destruct (xor_remote (_xor (parser s))); cbn; apply app_nil_r. }
    destruct caught as [e |].
    - exfalso. unfold after_loop, call, modify in Hcalled.
      cbn [fst node upd_node set_node called set_called] in Hcalled.
      apply app_inj_tail in Hcalled. destruct Hcalled as [_ Hack].
      discriminate.
    - split; [| reflexivity].
      revert Hcalled. unfold after_loop. monad.
      destruct (MAX_PENDING_SIZE <=? _).
      + unfold call, modify.
        cbn [fst node upd_node set_node called set_called].
        intros Hcalled. apply app_inj_tail in Hcalled.
        destruct Hcalled as [_ Hack]. discriminate.
      + monad. rewrite Hp.
        assert (Hb0 : paused_enabled (_paused (parser b0)) = false).
        { unfold b0, received.
          destruct (xor_remote (_xor (parser s))); exact Hpaused. }
        rewrite Hb0. intros _. reflexivity. }
  destruct Hfirst as [Hfirst ->]. rewrite Hfirst. cbn [fst].
  rewrite !_write_received, !_process_after_loop.
  assert (Hb0 : xor_remote (_xor (parser b0)) =
                match xor_remote (_xor (parser s)) with
                | Some x0 => Some (snd (xor_update x0 first))
                | None => None
                end).
  { unfold b0, received.
    destruct (xor_remote (_xor (parser s))); reflexivity. }
  set (x12 := match xor_remote (_xor (parser b0)) with
              | Some x1 => Some (snd (xor_update x1 second))
              | None => None
              end).
  set (more := match xor_remote (_xor (parser b0)) with
               | Some x1 => fst (xor_update x1 second)
               | None => second
               end).
  assert (Hsecond : received second (acknowledged (WriteCb n1) None b1) =
                    fed more x12 [(WriteCb n1, None)] b1).
  { unfold received, more, x12.
    change (xor_remote (_xor (parser (acknowledged (WriteCb n1) None b1))))
      with (xor_remote (_xor (parser b1))).
    rewrite Hx.
    destruct (xor_remote (_xor (parser b0))); apply fed_acknowledged. }
  assert (Hwhole :
    received (first ++ second) (acknowledged (WriteCb n1) None s) =
    fed more x12 [(WriteCb n1, None)] b0).
  { unfold received, more, x12. rewrite Hb0. unfold b0, received.
    change (xor_remote (_xor (parser (acknowledged (WriteCb n1) None s))))
      with (xor_remote (_xor (parser s))).
    destruct (xor_remote (_xor (parser s))) as [x0 |].
    - rewrite fed_acknowledged, fed_fed, xor_update_app. reflexivity.
    - rewrite fed_acknowledged, fed_fed. reflexivity. }
  rewrite Hsecond, Hwhole.
  rewrite (looped_fed more x12 [(WriteCb n1, None)] b0 b1 None Hlooped
             eq_refl Hframing).
  reflexivity.
Qed.

End InTwo.

(** ** Before the session's own [Handshake] *)

Section First.

Context `{Env}.

(** X14.  Whatever is written to a session, whatever is called on it and
    whenever the ticks run: the session is not secure, and its parser
    does not read a message of the peer, before the session's own
    [Handshake] has been handed to [_send], and that [Handshake] is the
    first frame it sends. *)
Theorem own_handshake_first (id : bytes) (actions : list Action) :
  secure (run actions (new_Stream id)) = true \/
  messaging (_state (parser (run actions (new_Stream id)))) = true ->
  exists (msgLen : Z) (later : list (Z * Z)),
    sent (node (run actions (new_Stream id))) =
    (messages.id.HANDSHAKE, msgLen) :: later.
Proof.
  intros Hcase.
  destruct (run_Inv false actions _ (new_Stream_Inv id))
    as (_ & _ & (Hfirst & Hsecure & Hmessaging & _) & _).
  assert (Hne : sent (node (run actions (new_Stream id))) <> []).
  { destruct Hcase as [Hs | Hm]; [apply Hsecure | apply Hmessaging];
      assumption. }
  destruct (sent (node (run actions (new_Stream id))))
    as [| [id0 msgLen] later]; [contradiction |].
  cbn in Hfirst. subst id0. exists msgLen, later. reflexivity.
Qed.

End First.

(** ** The send API never throws on a well-formed message

    [ready known sure s]: sends are queued as long as the session is not
    secure, and the outbound keystream is set up as soon as it is secure
    or its parser reads messages.  [known] says that the keystream is
    known to be set up, [sure] that the session is known to be secure. *)

Definition ready (known sure : bool) (s : Stream) : Prop :=
  (secure s = false -> _queue s <> None) /\
  (secure s = true -> xor_self (_xor (parser s)) <> None) /\
  (messaging (_state (parser s)) = true ->
   xor_self (_xor (parser s)) <> None) /\
  (_state (parser s) = paused -> _waiting (parser s) = Infinity) /\
  (known = true -> xor_self (_xor (parser s)) <> None) /\
  (sure = true -> secure s = true).

Lemma ready_weaken known sure s : ready true sure s -> ready known sure s.
Proof.
  intros (Hq & Hs & Hm & Hp & Hk & Hsure).
  repeat split; try assumption. intros _. apply Hk. reflexivity.
Qed.

Lemma ready_unsure known sure s : ready known true s -> ready known sure s.
Proof.
  intros (Hq & Hs & Hm & Hp & Hk & Hsure).
  repeat split; try assumption. intros _. apply Hsure. reflexivity.
Qed.

Lemma ready_known known sure s :
  ready known sure s -> xor_self (_xor (parser s)) <> None ->
  ready true sure s.
Proof.
  intros (Hq & Hs & Hm & Hp & Hk & Hsure) Hx.
  repeat split; try assumption. intros _. exact Hx.
Qed.

Section Ready.

Context `{Env}.

Lemma push_ready k c buf : preserves (ready k c) (push buf).
Proof. unfold push. kept_method. Qed.

Lemma emit_ready k c e : preserves (ready k c) (emit e).
Proof. unfold emit. kept_method. Qed.

Lemma process_nextTick_ready k c t :
  preserves (ready k c) (process_nextTick t).
Proof. unfold process_nextTick. kept_method. Qed.

Lemma call_ready k c cb err : preserves (ready k c) (call cb err).
Proof. unfold call. kept_method. Qed.

Lemma debug_send_ready k c id msgLen :
  preserves (ready k c) (debug_send id msgLen).
Proof. unfold debug_send. kept_method. Qed.

Lemma Type_encodingLength_ready k c content :
  preserves (ready k c) (Type_encodingLength content).
Proof. unfold Type_encodingLength. kept_method. Qed.

Hint Resolve push_ready emit_ready process_nextTick_ready call_ready
  debug_send_ready Type_encodingLength_ready : kept.

(** Setting up or advancing the outbound keystream. *)
Lemma keyed_ready k c x s :
  ready k c s ->
  ready true c
    (upd_parser (fun p =>
       set__xor {| xor_self := Some x; xor_remote := xor_remote (_xor p) |}
         p) s).
Proof.
  intros (Hq & Hs & Hm & Hp & Hk & Hsure).
  repeat split; try assumption; intros _; discriminate.
Qed.

Lemma _open_ready k c nonce : preserves (ready k c) (_open nonce).
Proof.
  unfold _open. kept; try kept_update.
  intros s Hs. apply ready_weaken. apply (keyed_ready k). exact Hs.
Qed.

Lemma _send_after_ready k c id content callback :
  establishes (ready k c) (ready true c) (_send id content callback).
Proof.
  unfold _send.
  apply establishes_bind; [kept |]; intros msgLen.
  apply establishes_bind; [kept |]; intros _.
  apply establishes_bind; [kept |]; intros x.
  unfold xor_update.
  apply establishes_then; [apply ready_weaken | |].
  - intros s Hs. cbn. apply (keyed_ready k). exact Hs.
  - intros _. kept_method.
Qed.

Lemma _send_ready k c id content callback :
  preserves (ready k c) (_send id content callback).
Proof.
  exact (establishes_preserves (ready k c) (ready true c) _
           (ready_weaken k c) (_send_after_ready k c id content callback)).
Qed.

Lemma _handshake_after_ready k c remoteNonce :
  establishes (ready k c) (ready true c) (_handshake remoteNonce).
Proof.
  unfold _handshake.
  do 3 (apply establishes_bind; [kept |]; intros ?).
  apply _send_after_ready.
Qed.

Lemma _onOpen_ready k c open : preserves (ready k c) (_onOpen open).
Proof. unfold _onOpen, _onStart. kept_method. Qed.

Hint Resolve _open_ready _send_ready _onOpen_ready : kept.

Lemma queued_ready k c q s :
  ready k c s -> ready k c (set__queue (Some q) s).
Proof.
  intros (Hq & Hs & Hm & Hp & Hk & Hsure).
  repeat split; try assumption. intros _. discriminate.
Qed.

Lemma _secureSend_ready k c id content callback :
  preserves (ready k c) (_secureSend id content callback).
Proof.
  unfold _secureSend. kept; try kept_update.
  intros s Hs. apply queued_ready. exact Hs.
Qed.

Hint Resolve _secureSend_ready : kept.

Lemma forEach_queue_ready k c queue :
  preserves (ready k c) (forEach_queue queue).
Proof.
  induction queue as [| q queue IH]; cbn [forEach_queue]; kept_method.
Qed.

Lemma chain_verify_ready k c chain hash signature :
  preserves (ready k c) (chain_verify chain hash signature).
Proof. unfold chain_verify. kept_method. Qed.

Hint Resolve forEach_queue_ready chain_verify_ready : kept.

Lemma secured_ready c s : ready true c s -> ready true true (set_secure true s).
Proof.
  intros (Hq & Hs & Hm & Hp & Hk & Hsure).
  repeat split; try assumption; try (intros _; apply Hk; reflexivity).
  intros Hfalse. discriminate.
Qed.

Lemma emptied_ready k q s : ready k true s -> ready k true (set__queue q s).
Proof.
  intros (Hq & Hs & Hm & Hp & Hk & Hsure).
  repeat split; try assumption.
  intros Hfalse. cbn in Hfalse. rewrite Hsure in Hfalse by reflexivity.
  discriminate.
Qed.

Lemma _onHandshake_ready c body : preserves (ready true c) (_onHandshake body).
Proof.
  unfold _onHandshake.
  apply (establishes_preserves (ready true c) (ready true true));
    [apply ready_unsure |].
  do 3 (apply establishes_bind; [kept_method |]; intros ?).
  apply establishes_then; [apply ready_unsure | |].
  - intros s Hs. cbn. apply (secured_ready c). exact Hs.
  - intros _. kept; try kept_update.
    intros s Hs. apply emptied_ready. exact Hs.
Qed.

Lemma _onLink_ready k c body : preserves (ready k c) (_onLink body).
Proof. unfold _onLink. kept_method. Qed.

Lemma _onData_ready k c body : preserves (ready k c) (_onData body).
Proof. unfold _onData. kept_method. Qed.

Hint Resolve _onHandshake_ready _onLink_ready _onData_ready : kept.

Lemma _setState_ready k c state waiting :
  (messaging state = true -> k = true) ->
  (state = paused -> waiting = Infinity) ->
  preserves (ready k c) (_setState state waiting).
Proof.
  intros Hstate Hwaiting. unfold _setState. apply preserves_modify.
  intros s (Hq & Hs & Hm & Hp & Hk & Hsure).
  repeat split; try assumption; cbn.
  intros Hmsg. apply Hk, Hstate, Hmsg.
Qed.

Lemma _setState_open_length_ready k c :
  preserves (ready k c) (_setState open_length (Fin 1)).
Proof. apply _setState_ready; discriminate. Qed.

Lemma _setState_paused_ready k c :
  preserves (ready k c) (_setState paused Infinity).
Proof. apply _setState_ready; [discriminate | reflexivity]. Qed.

Lemma _setState_msg_length_ready c :
  preserves (ready true c) (_setState msg_length (Fin 1)).
Proof. apply _setState_ready; [reflexivity | discriminate]. Qed.

Lemma take_ready k c n : preserves (ready k c) (take n).
Proof. unfold take. kept_method. Qed.

Hint Resolve _setState_open_length_ready _setState_paused_ready
  _setState_msg_length_ready take_ready : kept.

Lemma _parseMagic_ready k c : preserves (ready k c) _parseMagic.
Proof. unfold _parseMagic. kept_method. Qed.

Lemma length_parsed_ready k c v s :
  ready k c s -> _state (parser s) = open_length \/ k = true ->
  ready k c (length_parsed v s).
Proof.
  intros (Hq & Hs & Hm & Hp & Hk & Hsure) Hcase.
  repeat split; try assumption; cbn.
  - destruct Hcase as [-> | ->]; [discriminate | intros _; auto].
  - destruct (_state (parser s)); discriminate.
Qed.

Lemma _parseLength_loop_ready k c pending s :
  ready k c s -> _state (parser s) = open_length \/ k = true ->
  ready k c (fst (_parseLength_loop pending s)).
Proof.
  revert s. induction pending as [| byte pending IH]; intros s Hs Hcase.
  - exact Hs.
  - rewrite _parseLength_loop_step. cbn zeta.
    assert (Hs1 : ready k c (read_byte byte pending s)) by exact Hs.
    destruct (25 <=? _); [exact Hs1 |].
    destruct (byte_val byte <? 128).
    + destruct (MAX_PENDING_SIZE <? _); cbn [fst];
        apply (length_parsed_ready k c _ (read_byte byte pending s) Hs1
                 Hcase).
    + apply IH; [exact Hs1 | exact Hcase].
Qed.

Lemma _parseOpen_ready k c : preserves (ready k c) _parseOpen.
Proof. unfold _parseOpen, emit_open, decoded. kept_method. Qed.

Lemma dispatch_ready c type payload :
  preserves (ready true c) (dispatch type payload).
Proof. unfold dispatch, decoded. kept_method. Qed.

Hint Resolve _parseMagic_ready _parseOpen_ready dispatch_ready : kept.

Lemma _parse_body_ready c : preserves (ready true c) _parse_body.
Proof. unfold _parse_body, debug. kept_method. Qed.

Lemma _parse_ready k c : preserves (ready k c) _parse.
Proof.
  intros s Hs. unfold _parse, bind at 1, get at 1.
  assert (Hafter : messaging (_state (parser s)) = true -> ready true c s).
  { intros Hm. apply (ready_known k); [exact Hs |].
    destruct Hs as (_ & _ & Hmsg & _). apply Hmsg, Hm. }
  destruct (_state (parser s)) eqn:Hstate.
  - apply _parseMagic_ready. exact Hs.
  - apply _parseLength_loop_ready; [exact Hs | left; exact Hstate].
  - apply _parseOpen_ready. exact Hs.
  - rewrite _parse_body_paused; [exact Hs |].
    destruct Hs as (_ & _ & _ & Hpaused & _).
    apply Hpaused, Hstate.
  - apply ready_weaken.
    apply _parseLength_loop_ready;
      [apply Hafter; reflexivity | right; reflexivity].
  - apply ready_weaken. apply _parse_body_ready. apply Hafter. reflexivity.
Qed.

Lemma _process_loop_ready k c turns :
  preserves (ready k c) (_process_loop turns).
Proof.
  induction turns as [| turns IH]; intros s Hs; cbn [_process_loop].
  - exact Hs.
  - destruct (geb_num _ _); [| exact Hs].
    pose proof (_parse_ready k c s Hs) as Hparse.
    destruct (_parse s) as [s' [[|] | e]]; cbn in *.
    + apply IH. exact Hparse.
    + exact Hparse.
    + exact Hparse.
Qed.

Hint Resolve _parse_ready _process_loop_ready : kept.

Lemma _process_ready k c cb : preserves (ready k c) (_process cb).
Proof. unfold _process. kept_method. Qed.

Hint Resolve _process_ready : kept.

Lemma _write_ready k c chunk cb : preserves (ready k c) (_write chunk cb).
Proof. unfold _write, xor_update. kept_method. Qed.

Lemma _resumeParsing_ready c : preserves (ready true c) _resumeParsing.
Proof. unfold _resumeParsing, xor_update. kept_method. Qed.

Lemma _onOpen_callback_ready k c open :
  preserves (ready k c) (_onOpen_callback open).
Proof.
  unfold _onOpen_callback.
  apply preserves_bind; [kept |]; intros feed.
  destruct (negb _); [kept |].
  do 5 (apply preserves_bind; [kept_method |]; intros ?).
  apply (establishes_preserves (ready k c) (ready true c));
    [apply ready_weaken |].
  apply establishes_then; [apply ready_weaken | apply _handshake_after_ready |].
  intros _. apply _resumeParsing_ready.
Qed.

Lemma start_ready k c options nonce :
  preserves (ready k c) (start options nonce).
Proof. unfold start. kept_method. Qed.

Lemma destroy_ready k c : preserves (ready k c) destroy.
Proof. unfold destroy. kept_method. Qed.

Hint Resolve _write_ready _onOpen_callback_ready start_ready destroy_ready
  : kept.

Lemma api_ready k c call : preserves (ready k c) (api call).
Proof.
  destruct call; cbn [api];
    unfold sync, filterOptions, data, request; kept_method.
Qed.

Lemma step_ready k c a : preserves (ready k c) (step a).
Proof.
  destruct a; cbn [step]; [kept | apply api_ready |].
  unfold run_task. kept_method.
Qed.

Lemma new_Stream_ready id : ready false false (new_Stream id).
Proof. repeat split; discriminate. Qed.

Lemma run_ready k c actions s : ready k c s -> ready k c (run actions s).
Proof.
  revert s. induction actions as [| a actions IH]; intros s Hs; cbn [run].
  - exact Hs.
  - apply IH. apply step_ready. exact Hs.
Qed.

(** X15.  In every state a session can reach, by whatever writes, calls
    and ticks, a send whose required fields are present does not throw:
    while the session is not secure the send joins the queue, and once it
    is secure the frame is encrypted and pushed. *)
Theorem send_never_throws (id0 : bytes) (actions : list Action) (id : Z)
  (content : Body) (callback : option Callback) :
  required_present content = true ->
  (secure (run actions (new_Stream id0)) = false /\
   exists queue : list Queued,
     _queue (run actions (new_Stream id0)) = Some queue /\
     _secureSend id content callback (run actions (new_Stream id0)) =
     (set__queue (Some (queue ++ [{| q_id := id; q_content := content;
                                     q_callback := callback |}]))
        (run actions (new_Stream id0)), Ok tt)) \/
  (secure (run actions (new_Stream id0)) = true /\
   exists x : XorInstance,
     xor_self (_xor (parser (run actions (new_Stream id0)))) = Some x /\
     _secureSend id content callback (run actions (new_Stream id0)) =
     (sent_frame id content callback x (run actions (new_Stream id0)),
      Ok tt)).
Proof.
  intros Hreq.
  destruct (run_ready false false actions _ (new_Stream_ready id0))
    as (Hqueue & Hsecure & _).
  destruct (secure (run actions (new_Stream id0))) eqn:Hsec.
  - right. split; [reflexivity |].
    destruct (xor_self (_xor (parser (run actions (new_Stream id0)))))
      as [x |] eqn:Hx; [| exfalso; apply Hsecure; reflexivity].
    exists x. split; [reflexivity |].
    apply _secureSend_secure; assumption.
  - left. split; [reflexivity |].
    destruct (_queue (run actions (new_Stream id0))) as [queue |] eqn:Hq;
      [| exfalso; apply Hqueue; reflexivity].
    exists queue. split; [reflexivity |].
    apply _secureSend_queued; assumption.
Qed.

End Ready.

(** ** What every method keeps

    A property of the session that survives the field updates of the two
    files survives every method, and so everything that can happen to a
    session.  The send queue is the exception: what [_secureSend] and
    [_onHandshake] do to it is asked for separately. *)

Section Everywhere.

Context `{Env}.

Variable P : Stream -> Prop.

Hypothesis P_node : forall f s, P s -> P (upd_node f s).
Hypothesis P_parser : forall f s, P s -> P (upd_parser f s).
Hypothesis P_feedKey : forall v s, P s -> P (set_feedKey v s).
Hypothesis P_feed : forall v s, P s -> P (set_feed v s).
Hypothesis P_privateKey : forall v s, P s -> P (set_privateKey v s).
Hypothesis P_chain : forall v s, P s -> P (set_chain v s).
Hypothesis P_secure : forall s, P s -> P (set_secure true s).
Hypothesis P_hyperchain : forall v s, P s -> P (set__hyperchain v s).
Hypothesis P_startCallback : forall v s, P s -> P (set__startCallback v s).
Hypothesis P_destroyed : forall s, P s -> P (set__destroyed true s).
Hypothesis P_nonce : forall v s, P s -> P (set__nonce v s).
Hypothesis P_remote : forall v s, P s -> P (set__remote v s).
Hypothesis P_emptied : forall s, P s -> P (set__queue None s).
Hypothesis P_secureSend :
  forall id content callback, preserves P (_secureSend id content callback).

Ltac everywhere_update :=
  let s := fresh "s" in
  let Hs := fresh "Hs" in
  intros s Hs;
  first [ apply P_node; exact Hs
        | apply P_feedKey; exact Hs
        | apply P_feed; exact Hs
        | apply P_privateKey; exact Hs
        | apply P_chain; exact Hs
        | apply P_secure; exact Hs
        | apply P_hyperchain; exact Hs
        | apply P_startCallback; exact Hs
        | apply P_destroyed; exact Hs
        | apply P_nonce; exact Hs
        | apply P_remote; exact Hs
        | apply P_emptied; exact Hs
        | refine (P_parser _ s Hs) ].

Ltac everywhere :=
  unfold chain_verify, Type_encodingLength, decoded, debug_send, push, emit,
    process_nextTick, debug, call, _setState, take, xor_update;
  kept; try everywhere_update.

Hint Resolve P_secureSend : kept.

Lemma forEach_queue_everywhere queue : preserves P (forEach_queue queue).
Proof.
  induction queue as [| q queue IH]; cbn [forEach_queue]; everywhere.
Qed.

Hint Resolve forEach_queue_everywhere : kept.

Lemma _send_everywhere id content callback :
  preserves P (_send id content callback).
Proof. unfold _send. everywhere. Qed.

Hint Resolve _send_everywhere : kept.

Lemma dispatch_everywhere type payload : preserves P (dispatch type payload).
Proof.
  unfold dispatch, _onHandshake, _onLink, _onData. everywhere.
Qed.

Hint Resolve dispatch_everywhere : kept.

Lemma _parseLength_loop_everywhere pending :
  preserves P (_parseLength_loop pending).
Proof.
  induction pending as [| b pending IH]; cbn [_parseLength_loop]; everywhere.
Qed.

Hint Resolve _parseLength_loop_everywhere : kept.

Lemma _parse_everywhere : preserves P _parse.
Proof.
  unfold _parse, _parseMagic, _parseLength, _parseOpen, _parse_body,
    emit_open, _onOpen, _onStart.
  everywhere.
Qed.

Lemma _process_loop_everywhere turns : preserves P (_process_loop turns).
Proof.
  induction turns as [| turns IH]; intros s Hs; cbn [_process_loop].
  - exact Hs.
  - destruct (geb_num _ _); [| exact Hs].
    pose proof (_parse_everywhere s Hs) as Hparse.
    destruct (_parse s) as [s' [[|] | e]]; cbn in *.
    + apply IH. exact Hparse.
    + exact Hparse.
    + exact Hparse.
Qed.

Hint Resolve _process_loop_everywhere : kept.

Lemma _process_everywhere cb : preserves P (_process cb).
Proof. unfold _process. everywhere. Qed.

Hint Resolve _process_everywhere : kept.

Lemma step_everywhere a : preserves P (step a).
Proof.
  destruct a as [chunk cb | [options nonce | body callback | body callback
                            | body callback | body callback |] |];
    cbn [step api].
  - unfold _write. everywhere.
  - unfold start, _open. everywhere.
  - unfold sync. everywhere.
  - unfold filterOptions. everywhere.
  - unfold data. everywhere.
  - unfold request. everywhere.
  - unfold destroy. everywhere.
  - unfold run_task, _onOpen_callback, _handshake, _resumeParsing.
    everywhere.
Qed.

Lemma run_everywhere actions s : P s -> P (run actions s).
Proof.
  revert s. induction actions as [| a actions IH]; intros s Hs; cbn [run].
  - exact Hs.
  - apply IH. apply step_everywhere. exact Hs.
Qed.

End Everywhere.

(** ** The send queue and the secure flag *)

Section Queue.

Context `{Env}.

(** Every queued send has its required fields. *)
Definition queue_valid (s : Stream) : Prop :=
  match _queue s with
  | Some queue =>
      Forall (fun q => required_present (q_content q) = true) queue
  | None => True
  end.

Lemma _secureSend_queue_valid id content callback :
  preserves queue_valid (_secureSend id content callback).
Proof.
  intros s Hs.
  unfold _secureSend, Type_encodingLength, encodingLength.
  destruct (required_present content) eqn:Hreq; [| exact Hs].
  unfold bind at 1, ret at 1. unfold bind at 1, get at 1.
  destruct (secure s); cbn [negb].
  - apply (_send_everywhere queue_valid); [| | exact Hs];
      intros f t Ht; exact Ht.
  - unfold bind, get, deref, modify, ret, throw.
    destruct (_queue s) as [queue |] eqn:Hqueue; cbn [fst]; [| exact Hs].
    unfold queue_valid in *. rewrite Hqueue in Hs. cbn.
    apply Forall_app. split; [exact Hs |].
    constructor; [exact Hreq | constructor].
Qed.

(** X16.  The queue never holds a message that [_send] would refuse:
    [_secureSend] validates before it queues, so in every state a session
    can reach every queued send has its required fields, and the queue
    drains at the secure transition without "required field is
    missing". *)
Theorem queue_stays_valid (id : bytes) (actions : list Action)
  (queue : list Queued) :
  _queue (run actions (new_Stream id)) = Some queue ->
  Forall (fun q => required_present (q_content q) = true) queue.
Proof.
  intros Hqueue.
  assert (Hvalid : queue_valid (run actions (new_Stream id))).
  { apply (run_everywhere queue_valid);
      try (intros; assumption);
      try (intros ? ? Hs; exact Hs);
      try (intros ? Hs; exact Hs).
    - intros s _. exact I.
    - exact _secureSend_queue_valid.
    - constructor. }
  unfold queue_valid in Hvalid. rewrite Hqueue in Hvalid. exact Hvalid.
Qed.

(** X17.  [_onHandshake] makes a session secure only when the peer's chain
    and signature verify against the reverse paired hash.  A [Handshake]
    that fails the verification throws and leaves the session exactly as
    it was: not secure, nothing emitted, nothing sent, the queue
    untouched. *)
Theorem handshake_must_verify (body : Handshake) (s : Stream) :
  (forall reverseHash root : bytes,
     nonce_reverseHash (_nonce s) = Some reverseHash ->
     _hyperchain s = Some root ->
     hyperchain_verify root (hs_chain body) reverseHash (hs_signature body)
       = false ->
     _onHandshake body s = (s, Throw E_VERIFY)) /\
  (secure s = false ->
   secure (fst (_onHandshake body s)) = true ->
   exists reverseHash root : bytes,
     nonce_reverseHash (_nonce s) = Some reverseHash /\
     _hyperchain s = Some root /\
     hyperchain_verify root (hs_chain body) reverseHash (hs_signature body)
       = true).
Proof.
  split.
  - intros reverseHash root Hrh Hroot Hverify.
    unfold _onHandshake, chain_verify.
    unfold bind at 1. unfold bind at 1, get at 1. rewrite Hrh.
    cbn [deref ret].
    unfold bind at 1. unfold bind at 1. unfold bind at 1, get at 1.
    rewrite Hroot. cbn [deref ret]. rewrite Hverify. reflexivity.
  - intros Hnot.
    unfold _onHandshake, chain_verify.
    unfold bind at 1. unfold bind at 1, get at 1.
    destruct (nonce_reverseHash (_nonce s)) as [reverseHash |];
      cbn [deref ret throw fst]; [| congruence].
    unfold bind at 1. unfold bind at 1. unfold bind at 1, get at 1.
    destruct (_hyperchain s) as [root |];
      cbn [deref ret throw fst]; [| congruence].
    destruct (hyperchain_verify root (hs_chain body) reverseHash
                (hs_signature body)) eqn:Hverify;
      cbn [ret throw fst]; [| congruence].
    intros _. exists reverseHash, root. repeat split. exact Hverify.
Qed.

(** X18.  There is no way back from secure: whatever is written to a
    secure session, whatever is called on it and whenever the ticks run,
    it stays secure. *)
Theorem secure_for_good (actions : list Action) (s : Stream) :
  secure s = true -> secure (run actions s) = true.
Proof.
  apply (run_everywhere (fun t => secure t = true));
    try (intros; assumption);
    try (intros ? ? Hs; exact Hs);
    try (intros ? Hs; exact Hs).
  - intros t _. reflexivity.
  - intros id content callback t Ht.
    unfold _secureSend, Type_encodingLength, encodingLength.
    destruct (required_present content); [| exact Ht].
    unfold bind at 1, ret at 1. unfold bind at 1, get at 1.
    rewrite Ht. cbn [negb].
    apply (_send_everywhere (fun t => secure t = true));
      [intros f u Hu; exact Hu | intros f u Hu; exact Hu | exact Ht].
Qed.

End Queue.

(** ** The link a session issues *)

(** [a <= b] on numbers that may be [Infinity]. *)
Definition no_later (a b : Num) : Prop :=
  match a, b with
  | _, Infinity => True
  | Fin x, Fin y => x <= y
  | Infinity, Fin _ => False
  end.

Lemma no_later_refl (a : Num) : no_later a a.
Proof. destruct a; cbn; [lia | exact I]. Qed.

Lemma no_later_trans (a b c : Num) :
  no_later a b -> no_later b c -> no_later a c.
Proof. destruct a, b, c; cbn; try tauto; lia. Qed.

Lemma Math_min_l (a b : Num) : no_later (Math_min a b) a.
Proof. destruct a, b; cbn; try exact I; lia. Qed.

Lemma Math_min_r (a b : Num) : no_later (Math_min a b) b.
Proof. destruct a, b; cbn; try exact I; lia. Qed.

Section Issued.

Context `{Env}.

Lemma parse_links_bounds (links : list bytes) (expiration0 : Num)
  (publicKey0 : option bytes) (expiration : Num) (publicKey : option bytes) :
  parse_links links expiration0 publicKey0 = Some (expiration, publicKey) ->
  no_later expiration expiration0 /\
  (forall (l : bytes) (link : ParsedLink),
     In l links -> hyperchain_parseLink l = Some link ->
     no_later expiration (link_expiration link)) /\
  publicKey =
    match links with
    | [] => publicKey0
    | _ :: _ =>
        option_map link_publicKey (hyperchain_parseLink (last links []))
    end.
Proof.
  revert expiration0 publicKey0.
  induction links as [| l links IH]; intros expiration0 publicKey0.
  - intros [= <- <-]. split; [apply no_later_refl |].
    split; [intros l link [] | reflexivity].
  - cbn [parse_links].
    destruct (hyperchain_parseLink l) as [link |] eqn:Hlink; [| discriminate].
    intros Hrest. apply IH in Hrest. destruct Hrest as (Hle & Hall & Hkey).
    split; [| split].
    + exact (no_later_trans _ _ _ Hle (Math_min_l _ _)).
    + intros l' link' [<- | Hin] Hlink'.
      * rewrite Hlink in Hlink'. injection Hlink' as <-.
        exact (no_later_trans _ _ _ Hle (Math_min_r _ _)).
      * exact (Hall l' link' Hin Hlink').
    + rewrite Hkey. destruct links as [| l' links'].
      * cbn. rewrite Hlink. reflexivity.
      * reflexivity.
Qed.

(** X19.  The [Link] that [_onHandshake] issues to shorten the peer's
    chain delegates to the public key of the last link of that chain and
    expires no later than any of its links; when a link of the chain does
    not parse, none is issued. *)
Theorem issued_link_within_chain (links : list bytes) :
  match parse_links links Infinity None with
  | Some (expiration, publicKey) =>
      (forall (l : bytes) (link : ParsedLink),
         In l links -> hyperchain_parseLink l = Some link ->
         no_later expiration (link_expiration link)) /\
      (forall l : bytes, In l links -> hyperchain_parseLink l <> None) /\
      publicKey =
        match links with
        | [] => None
        | _ :: _ =>
            option_map link_publicKey (hyperchain_parseLink (last links []))
        end
  | None => exists l : bytes, In l links /\ hyperchain_parseLink l = None
  end.
Proof.
  destruct (parse_links links Infinity None) as [[expiration publicKey] |]
    eqn:Hparse.
  - destruct (parse_links_bounds links Infinity None expiration publicKey
                Hparse) as (_ & Hall & Hkey).
    split; [exact Hall |]. split; [| exact Hkey].
    clear Hall Hkey. revert Hparse. generalize Infinity, (@None bytes).
    induction links as [| l0 links IH]; intros e0 pk0 Hparse l Hin.
    + destruct Hin.
    + cbn [parse_links] in Hparse.
      destruct (hyperchain_parseLink l0) as [link |] eqn:Hlink;
        [| discriminate].
      destruct Hin as [<- | Hin]; [congruence |].
      exact (IH _ _ Hparse l Hin).
  - revert Hparse. generalize Infinity, (@None bytes).
    induction links as [| l0 links IH]; intros e0 pk0 Hparse.
    + discriminate.
    + cbn [parse_links] in Hparse.
      destruct (hyperchain_parseLink l0) as [link |] eqn:Hlink.
      * destruct (IH _ _ Hparse) as (l & Hin & Hnone).
        exists l. split; [right; exact Hin | exact Hnone].
      * exists l0. split; [left; reflexivity | exact Hlink].
Qed.

End Issued.

(** ** The properties on the sessions of Alice and Bob *)

Module Sessions.

Import Sample Scenario.

Lemma magic_checked_witness :
  _write [xd5; x72] (WriteCb 0) alice0 =
    (acknowledged (WriteCb 0) None
       (upd_parser (set__pending (_pending (parser alice0) ++ [xd5; x72]))
          alice0), Ok tt) /\
  _write [x00; x01; x02; x03; x04] (WriteCb 0) alice0 =
    (acknowledged (WriteCb 0) (Some E_MAGIC)
       (upd_parser
          (set__pending
             (skipn 4 (_pending (parser alice0) ++
                       [x00; x01; x02; x03; x04]))) alice0), Ok tt).
Proof.
  split.
  - apply (proj1 (magic_checked alice0 [xd5; x72] 0
                    eq_refl eq_refl eq_refl eq_refl)).
    vm_compute. reflexivity.
  - apply (proj2 (magic_checked alice0 [x00; x01; x02; x03; x04] 0
                    eq_refl eq_refl eq_refl eq_refl));
      vm_compute; discriminate.
Defined.

Lemma parseLength_resumes_witness :
  let s := awaiting_length [xac] in
  let s' := fst (_parseLength s) in
  _pending (parser s') = [] /\
  _state (parser s') = _state (parser s) /\
  _waiting (parser s') = _waiting (parser s) /\
  _parseLength (buffer [x02; x0a] s') = _parseLength (buffer [x02; x0a] s).
Proof.
  apply (parseLength_resumes [x02; x0a] (awaiting_length [xac])
           (fst (_parseLength (awaiting_length [xac])))).
  vm_compute. reflexivity.
Defined.

(** An [Open] with a nonce of three bytes, buffered in a started
    session. *)
Definition short_open : Open :=
  {| open_feed := repeat x01 32; open_nonce := [x01; x02; x03] |}.

Definition open_buffered (open : Open) : Stream :=
  upd_parser (fun p =>
    set__waiting (Fin (size (encode (BOpen open))))
      (set__state open_body (set__pending (encode (BOpen open) ++ []) p)))
    alice1.

Lemma open_refused_witness :
  _parse (open_buffered short_open) =
  (refused [] (open_buffered short_open), Throw E_NONCE_SIZE).
Proof.
  apply (proj1 (proj2 (proj2
           (open_refused (open_buffered short_open)
              (encode (BOpen short_open)) []
              eq_refl eq_refl eq_refl))) short_open);
    vm_compute; first [reflexivity | discriminate].
Defined.

Lemma pending_stays_bounded_witness :
  let s := buffer [x05; x01] alice4 in
  let s' := fst (_process_loop (S (rank s)) s) in
  size (_pending (parser s')) < MAX_PENDING_SIZE /\ within_bound s'.
Proof.
  apply (pending_stays_bounded (buffer [x05; x01] alice4)
           (fst (_process_loop (S (rank (buffer [x05; x01] alice4)))
                   (buffer [x05; x01] alice4))));
    vm_compute; first [reflexivity | discriminate].
Defined.

(** Alice's options with another private key: the chain does not
    verify. *)
Definition stranger_options : StartOptions :=
  {| opt_feedKey := Some feed_key; opt_privateKey := Some (repeat x05 64);
     opt_chain := Some []; opt_discoveryKey := None |}.

Lemma start_failure_sends_nothing_witness :
  let s' := fst (start stranger_options alice_nonce alice0) in
  node s' = node alice0 /\ parser s' = parser alice0 /\
  _nonce s' = _nonce alice0 /\ _queue s' = _queue alice0 /\
  secure s' = secure alice0 /\ _remote s' = _remote alice0 /\
  _startCallback s' = _startCallback alice0 /\
  _destroyed s' = _destroyed alice0.
Proof.
  apply (start_failure_sends_nothing stranger_options alice_nonce alice0
           (fst (start stranger_options alice_nonce alice0)) E_VERIFY).
  vm_compute. reflexivity.
Defined.

(** Alice's options with a discovery key of her own choice. *)
Definition discovery_options : StartOptions :=
  {| opt_feedKey := Some feed_key; opt_privateKey := Some alice_key;
     opt_chain := Some []; opt_discoveryKey := Some (repeat x09 32) |}.

Lemma start_sends_open_witness :
  exists s' : Stream,
    start discovery_options alice_nonce alice0 = (s', Ok tt) /\
    (let body :=
       pb_encode (BOpen {| open_feed := feed_of discovery_options feed_key;
                           open_nonce := alice_nonce |}) in
     pushed (node s') =
       pushed (node alice0) ++
       [MAGIC ++ varint_encode (size body) ++ body]) /\
    xor_self (_xor (parser s')) =
      Some {| xor_nonce := alice_nonce; xor_key := feed_key;
              xor_pos := 0 |} /\
    xor_remote (_xor (parser s')) = xor_remote (_xor (parser alice0)) /\
    nextTick (node s') =
      nextTick (node alice0) ++
      match _startCallback alice0 with
      | Some open => [TStartCallback open]
      | None => []
      end /\
    emitted (node s') = emitted (node alice0) /\
    _state (parser s') = _state (parser alice0) /\
    _pending (parser s') = _pending (parser alice0) /\
    chain s' = Some [] /\ secure s' = secure alice0.
Proof.
  apply (start_sends_open discovery_options alice_nonce alice0
           feed_key alice_key []);
    vm_compute; first [reflexivity | discriminate].
Defined.

Lemma bytes_behind_open_witness :
  run [Write (open_chunk feed_key bob_nonce ++ [x01; x02]) 0; Tick]
      (started (repeat xaa 32) feed_key alice_key [] alice_nonce) =
  fst (_write [x01; x02] (WriteCb 0)
         (handshake_out (repeat xaa 32) feed_key alice_key []
            alice_nonce bob_nonce)).
Proof.
  apply (bytes_behind_open (repeat xaa 32) feed_key alice_key []
           alice_nonce bob_nonce [x01; x02] 0);
    vm_compute; repeat split; try reflexivity; try discriminate;
    repeat constructor.
Defined.

(** The [Open] of a peer on another feed. *)
Definition other_open : Open :=
  {| open_feed := repeat x07 32; open_nonce := bob_nonce |}.

Lemma feed_mismatch_stalls_witness :
  run [Write (open_frame other_open ++ []) 0; Tick]
      (started (repeat xaa 32) feed_key alice_key [] alice_nonce) =
  mismatched (repeat xaa 32) feed_key alice_key [] alice_nonce
    other_open [] 0 /\
  (forall (data : bytes) (turns : nat),
     _process_loop turns
       (buffer data
          (mismatched (repeat xaa 32) feed_key alice_key [] alice_nonce
             other_open [] 0)) =
     (buffer data
        (mismatched (repeat xaa 32) feed_key alice_key [] alice_nonce
           other_open [] 0), Ok None)).
Proof.
  apply (feed_mismatch_stalls (repeat xaa 32) feed_key alice_key []
           alice_nonce other_open [] 0);
    vm_compute; repeat split; try reflexivity; try discriminate;
    repeat constructor.
Defined.

Lemma start_after_open_witness :
  run [Write (open_chunk feed_key bob_nonce) 0;
       Api (call_start (credentials feed_key alice_key []) alice_nonce);
       Tick]
      (new_Stream (repeat xaa 32)) =
  set__startCallback (Some (sent_open feed_key bob_nonce))
    (run [Api (call_start (credentials feed_key alice_key []) alice_nonce);
          Write (open_chunk feed_key bob_nonce) 0; Tick]
         (new_Stream (repeat xaa 32))).
Proof.
  apply (start_after_open (repeat xaa 32) feed_key alice_key []
           alice_nonce bob_nonce 0);
    vm_compute; repeat split; try reflexivity; try discriminate;
    repeat constructor.
Defined.

Lemma link_taken_once_witness :
  let body := {| link_link := link2 |} in
  let s' := fst (_onLink body bob4) in
  s' = bob4 \/
  exists (local remote : list bytes) (root key : bytes),
    chain bob4 = Some local /\
    remote_chain (_remote bob4) = Some remote /\
    _hyperchain bob4 = Some root /\
    privateKey bob4 = Some key /\
    hyperchain_verify root (remote ++ [link_link body]) EMPTY_HASH
      (signatures_sign EMPTY_HASH key) = true /\
    size (remote ++ [link_link body]) < size local /\
    s' = upd_node (fun n =>
           set_emitted
             (emitted n ++ [EvChainUpdate (remote ++ [link_link body])]) n)
           (set_chain (Some (remote ++ [link_link body])) bob4) /\
    forall body' : Link, _onLink body' s' = (s', Ok tt).
Proof.
  apply (link_taken_once {| link_link := link2 |} bob4
           (fst (_onLink {| link_link := link2 |} bob4))).
  vm_compute. reflexivity.
Defined.

(** Where Bob's outbound keystream stands once he is secure. *)
Definition bob_keystream : XorInstance :=
  {| xor_nonce := bob_nonce; xor_key := feed_key; xor_pos := 171 |}.

(** What Alice's decoder makes of Bob's [Request]: the [limit] he left
    out is read as 0. *)
Definition request_read : Request :=
  {| req_start := Some [x61]; req_end := None; req_limit := Some 0 |}.

Definition options_a : FilterOptions :=
  {| fo_size := Some 8; fo_n := Some 2 |}.

Ltac computed :=
  clear; vm_compute; repeat split; try reflexivity; try discriminate;
  repeat constructor.

(** Bob's [Request] is delivered to Alice's listeners; his
    [FilterOptions] is refused by her decoder. *)
Lemma message_delivered_witness :
  (exists (sender' : Stream) (chunk : bytes),
     _secureSend messages.id.REQUEST (BRequest request_a) None bob4 =
       (sender', Ok tt) /\
     pushed (node sender') = pushed (node bob4) ++ [chunk] /\
     _write chunk (WriteCb 2) alice4 =
       (delivered Trequest (BRequest request_read) bob_keystream chunk
          (WriteCb 2) alice4, Ok tt)) /\
  (exists (sender' : Stream) (chunk : bytes),
     _secureSend messages.id.FILTER_OPTIONS (BFilterOptions options_a) None
       bob4 = (sender', Ok tt) /\
     pushed (node sender') = pushed (node bob4) ++ [chunk] /\
     _write chunk (WriteCb 2) alice4 =
       (rejected Tfilter_options bob_keystream chunk (WriteCb 2) alice4,
        Ok tt)).
Proof.
  assert (Hsecure : secure bob4 = true) by computed.
  assert (Hx : xor_self (_xor (parser bob4)) = Some bob_keystream)
    by computed.
  assert (Hlistening : listening bob_keystream alice4) by computed.
  split.
  - assert (Hlength :
      length_readable (varint_encodingLength messages.id.REQUEST +
                       size (pb_encode (BRequest request_a))))
      by computed.
    assert (Hid :
      varint_decode (varint_encode messages.id.REQUEST ++
                     pb_encode (BRequest request_a)) =
      Some (messages.id.REQUEST,
            length (varint_encode messages.id.REQUEST)))
      by computed.
    assert (Hread :
      message_of Trequest (pb_encode (BRequest request_a)) =
      Some (BRequest request_read)) by computed.
    pose proof (message_delivered bob4 alice4 bob_keystream
                  messages.id.REQUEST Trequest (BRequest request_a) None 2
                  Hsecure Hx eq_refl eq_refl eq_refl Hlength Hid Hlistening)
      as (sender' & chunk & Hsend & Hpushed & _ & Hwrite).
    rewrite Hread in Hwrite. destruct Hwrite as [Hwrite _].
    exists sender', chunk.
    split; [exact Hsend |]. split; [exact Hpushed |]. exact Hwrite.
  - assert (Hlength :
      length_readable (varint_encodingLength messages.id.FILTER_OPTIONS +
                       size (pb_encode (BFilterOptions options_a))))
      by computed.
    assert (Hid :
      varint_decode (varint_encode messages.id.FILTER_OPTIONS ++
                     pb_encode (BFilterOptions options_a)) =
      Some (messages.id.FILTER_OPTIONS,
            length (varint_encode messages.id.FILTER_OPTIONS)))
      by computed.
    assert (Hread :
      message_of Tfilter_options (pb_encode (BFilterOptions options_a)) =
      None) by computed.
    pose proof (message_delivered bob4 alice4 bob_keystream
                  messages.id.FILTER_OPTIONS Tfilter_options
                  (BFilterOptions options_a) None 2
                  Hsecure Hx eq_refl eq_refl eq_refl Hlength Hid Hlistening)
      as (sender' & chunk & Hsend & Hpushed & _ & Hwrite).
    rewrite Hread in Hwrite. destruct Hwrite as [Hwrite _].
    exists sender', chunk.
    split; [exact Hsend |]. split; [exact Hpushed |]. exact Hwrite.
Defined.

(** Bob's [Request], as it reaches Alice. *)
Definition request_chunk : bytes :=
  chunk 2 (run [Api (call_request request_a None)] bob4).

Lemma write_in_two_witness :
  _write (skipn 2 request_chunk) (WriteCb 3)
         (fst (_write (firstn 2 request_chunk) (WriteCb 2) alice4)) =
  _write (firstn 2 request_chunk ++ skipn 2 request_chunk) (WriteCb 3)
         (acknowledged (WriteCb 2) None alice4).
Proof.
  apply (write_in_two alice4 (firstn 2 request_chunk)
           (skipn 2 request_chunk) 2 3);
    try (intros _); vm_compute; reflexivity.
Defined.

Lemma own_handshake_first_witness :
  exists (msgLen : Z) (later : list (Z * Z)),
    sent (node (run [Api (call_start alice_options alice_nonce);
                     Write (chunk 0 bob1) 0; Tick; Write (chunk 1 bob3) 1]
                    (new_Stream (repeat xaa 32)))) =
    (messages.id.HANDSHAKE, msgLen) :: later.
Proof.
  apply (own_handshake_first (repeat xaa 32)
           [Api (call_start alice_options alice_nonce);
            Write (chunk 0 bob1) 0; Tick; Write (chunk 1 bob3) 1]).
  left. vm_compute. reflexivity.
Defined.

Lemma send_never_throws_witness :
  let s := run [Api (call_start alice_options alice_nonce);
                Write (chunk 0 bob1) 0]
               (new_Stream (repeat xaa 32)) in
  (secure s = false /\
   exists queue : list Queued,
     _queue s = Some queue /\
     _secureSend messages.id.REQUEST (BRequest request_a) None s =
     (set__queue
        (Some (queue ++ [{| q_id := messages.id.REQUEST;
                            q_content := BRequest request_a;
                            q_callback := None |}])) s, Ok tt)) \/
  (secure s = true /\
   exists x : XorInstance,
     xor_self (_xor (parser s)) = Some x /\
     _secureSend messages.id.REQUEST (BRequest request_a) None s =
     (sent_frame messages.id.REQUEST (BRequest request_a) None x s, Ok tt)).
Proof.
  apply (send_never_throws (repeat xaa 32)
           [Api (call_start alice_options alice_nonce);
            Write (chunk 0 bob1) 0]
           messages.id.REQUEST (BRequest request_a) None).
  reflexivity.
Defined.

Lemma queue_stays_valid_witness :
  Forall (fun q => required_present (q_content q) = true) [queued_request].
Proof.
  apply (queue_stays_valid (repeat xaa 32)
           [Api (call_request request_a None)] [queued_request]).
  vm_compute. reflexivity.
Defined.

(** Bob's [Handshake], signed with Alice's key instead of his. *)
Definition forged_handshake : Handshake :=
  {| hs_id := repeat xbb 32;
     hs_extensions := [];
     hs_signature := sign (_hash (bob_nonce ++ alice_nonce)) alice_key;
     hs_chain := [link1; link2] |}.

Lemma handshake_must_verify_witness :
  _onHandshake forged_handshake alice3 = (alice3, Throw E_VERIFY).
Proof.
  apply (proj1 (handshake_must_verify forged_handshake alice3)
           (_hash (bob_nonce ++ alice_nonce)) feed_key);
    vm_compute; reflexivity.
Defined.

Lemma secure_for_good_witness :
  secure (run [Api call_destroy; Write [x00] 5] alice4) = true.
Proof.
  apply (secure_for_good [Api call_destroy; Write [x00] 5] alice4).
  vm_compute. reflexivity.
Defined.

End Sessions.
